(** * Jigsaw puzzle: grid sizing, slicing and the drag-and-drop state machine

    A shallow embedding of [script.js].

    - The part of the page the script works on - the tray, the slots of the
      board, the piece nodes and the status line - is an explicit state
      ([Dom.puzzleState]).  A piece node is named by its index in
      [puzzleState.pieces]; the tray and every slot hold the list of their
      child nodes in document order, and [appendChild] moves a node from the
      parent it has to the end of its new parent.
    - Every function of the script that reads or changes that state is a
      function on it, under the name it has in the script.  The global
      [puzzleState] is assigned once by [initPuzzle], before any listener is
      registered, so the [if (!puzzleState) return] guards never fire and the
      state is passed as a plain value.
    - [Math.random] is an input: [shufflePieces] takes the sequence of its
      draws.
    - Grid sizing is given over the reals, with an executable integer form
      proved equal to it ([Grid]), and once more in IEEE doubles ([Double]).
    - Left out: CSS styling ([applyTrayStyles], [applySlotStyles]), sound
      ([setupAudio], [createAudioEngine]), the helper panel and the pixels of
      the canvases; a slice is kept as the rectangle it is cut from. *)

From Stdlib Require Import Floats.PrimFloat Floats.FloatOps Floats.SpecFloat.
From Stdlib Require Import Numbers.Cyclic.Int63.Uint63.
From Stdlib Require Import ZArith QArith Reals Lra Lia.
From Stdlib Require Import QArith.Qminmax Psatz.
From stdpp Require Import base numbers list strings pretty.

Local Open Scope Z_scope.

(* ===================================================================== *)
(** * Grid sizing *)
(* ===================================================================== *)

Module Grid.

Definition BOARD_DIMENSION : Z := 300.
Definition MIN_BOARD_SIZE : Z := 2.
Definition MAX_BOARD_SIZE : Z := 7.
Definition TARGET_PIXELS_PER_PIECE : Z := 35000.

(** [clamp(value, min, max) = Math.min(Math.max(value, min), max)]. *)
Definition clamp (value min max : Z) : Z := Z.min (Z.max value min) max.

(** The three numeric steps of [computeBoardSize], read over the reals:
    [base = Math.sqrt(pixelCount / TARGET_PIXELS_PER_PIECE)],
    [boosted = base * 1.15], and [Math.round], which rounds to the nearest
    integer with ties going up. *)
Definition base (pixelCount : Z) : R :=
  sqrt (IZR pixelCount / IZR TARGET_PIXELS_PER_PIECE).

Definition boosted (pixelCount : Z) : R := (base pixelCount * (115 / 100))%R.

Definition Math_round (x : R) : Z := Zfloor (x + / 2).

(** Executable form of [Math.round(boosted)].  With [x = boosted], the
    rounded value is the largest [n] with [2n - 1 <= 2x], and
    [(2x)^2 = 4 * 1.15^2 * pixelCount / 35000 = 529 * pixelCount / 3500000],
    so [n = (isqrt (529 * pixelCount / 3500000) + 1) / 2]
    (lemma [approximatePiecesPerSide_round] below).  For a negative
    [pixelCount] the script computes NaN; the value here is then 0, and both
    are replaced by [MIN_BOARD_SIZE] by the [||] of [computeBoardSize]. *)
Definition approximatePiecesPerSide (pixelCount : Z) : Z :=
  (Z.sqrt (529 * pixelCount / 3500000) + 1) / 2.

(** [a || b] on numbers: [b] when [a] is 0 (or NaN), else [a]. *)
Definition or_else (a b : Z) : Z := if a =? 0 then b else a.

(** [computeBoardSize(image)], on [naturalWidth] and [naturalHeight]. *)
Definition computeBoardSize (naturalWidth naturalHeight : Z) : Z :=
  let pixelCount := naturalWidth * naturalHeight in
  clamp (or_else (approximatePiecesPerSide pixelCount) MIN_BOARD_SIZE)
        MIN_BOARD_SIZE MAX_BOARD_SIZE.

End Grid.

(* ===================================================================== *)
(** * Grid sizing in double precision *)
(* ===================================================================== *)

(** The script computes in IEEE doubles.  This module runs the same steps
    on binary64 numbers; it is used to check the real-number reading of
    [Grid] at the pixel counts where the rounded side changes, and its
    result lies in [[2, 7]] whatever the rounding does. *)
Module Double.
Import Grid.

(** A pixel count as a double (exact from 0 up to 2^53; a number below 0
    or from 2^63 on wraps around, and is the pixel count of no image). *)
Definition of_Z (z : Z) : float := PrimFloat.of_uint63 (Uint63.of_Z z).

(** [Math.round(x)]: the integer nearest to the value [m * 2^e] of a finite
    double, ties going up; [None] for NaN and the infinities. *)
Definition Math_round (x : float) : option Z :=
  match Prim2SF x with
  | S754_zero _ => Some 0
  | S754_finite sign m e =>
      let n := if sign then Z.neg m else Z.pos m in
      Some (if 0 <=? e then n * 2 ^ e
            else (2 * n + 2 ^ (- e)) / 2 ^ (- e + 1))
  | _ => None
  end.

Definition boosted (pixelCount : Z) : float :=
  (PrimFloat.sqrt (of_Z pixelCount / of_Z TARGET_PIXELS_PER_PIECE)
   * 0x1.2666666666666p+0)%float.

(** [Math.round(boosted)] as a number of the script: NaN is read as 0, which
    [||] treats the same way. *)
Definition approximatePiecesPerSide (pixelCount : Z) : Z :=
  match Math_round (boosted pixelCount) with
  | Some n => n
  | None => 0
  end.

Definition computeBoardSize (naturalWidth naturalHeight : Z) : Z :=
  let pixelCount := naturalWidth * naturalHeight in
  clamp (or_else (approximatePiecesPerSide pixelCount) MIN_BOARD_SIZE)
        MIN_BOARD_SIZE MAX_BOARD_SIZE.

(** The pixel counts on either side of each point where the rounded side
    steps from [n - 1] to [n], for [n] from 1 to 8. *)
Definition steps : list Z :=
  [6616; 6617; 59546; 59547; 165406; 165407; 324196; 324197;
   535916; 535917; 800567; 800568; 1118147; 1118148; 1488657; 1488658].

End Double.

(* ===================================================================== *)
(** * The page: slots, pieces, tray and status line *)
(* ===================================================================== *)

Module Dom.

(** A slice of the scene, as [sliceScene] cuts it: the source rectangle
    [(sx, sy, sw, sh)] handed to [drawImage]. *)
Record texture := Texture { sx : Q; sy : Q; sw : Q; sh : Q }.

(** A piece node ([div.puzzle-piece]) with its [dataset] and background.
    Piece nodes are identified by their index in [puzzleState.pieces]. *)
Record piece := Piece {
  pieceId : string;
  correctSlot : option string;
  placedSlot : option string;
  backgroundImage : option texture
}.

(** A slot node ([div.puzzle-slot]): its [dataset.slotId], its child nodes in
    document order, and the two classes the script toggles on it. *)
Record slot := Slot {
  slotId : string;
  children : list nat;
  filled : bool;
  drag_over : bool
}.

(** [puzzleState], with the tray element given by its child nodes and the
    status node by its [textContent] ([None]: no status node). *)
Record puzzleState := PuzzleState {
  tray : list nat;
  slots : list slot;
  pieces : list piece;
  boardSize : nat;
  pieceSize : Q;
  statusNode : option string
}.

(** What a handler hands back to its caller. *)
Inductive jsval := JsUndefined | JsBool (b : bool) | JsString (t : string).

Inductive parent := InTray | InSlot (k : nat).

Global Instance parent_eq_dec : EqDecision parent.
Proof. solve_decision. Defined.

(** ** Field updates *)

Definition set_children (c : list nat) (sl : slot) : slot :=
  Slot (slotId sl) c (filled sl) (drag_over sl).
Definition set_filled (b : bool) (sl : slot) : slot :=
  Slot (slotId sl) (children sl) b (drag_over sl).
Definition set_drag_over (b : bool) (sl : slot) : slot :=
  Slot (slotId sl) (children sl) (filled sl) b.
Definition set_placedSlot (v : option string) (p : piece) : piece :=
  Piece (pieceId p) (correctSlot p) v (backgroundImage p).

Definition set_tray (t : list nat) (s : puzzleState) : puzzleState :=
  PuzzleState t (slots s) (pieces s) (boardSize s) (pieceSize s) (statusNode s).
Definition set_slots (l : list slot) (s : puzzleState) : puzzleState :=
  PuzzleState (tray s) l (pieces s) (boardSize s) (pieceSize s) (statusNode s).
Definition set_pieces (l : list piece) (s : puzzleState) : puzzleState :=
  PuzzleState (tray s) (slots s) l (boardSize s) (pieceSize s) (statusNode s).
Definition set_statusNode (t : option string) (s : puzzleState) : puzzleState :=
  PuzzleState (tray s) (slots s) (pieces s) (boardSize s) (pieceSize s) t.

Definition update_slot (k : nat) (f : slot → slot) (s : puzzleState) :=
  set_slots (alter f k (slots s)) s.
Definition update_piece (i : nat) (f : piece → piece) (s : puzzleState) :=
  set_pieces (alter f i (pieces s)) s.

(** ** The DOM operations the script uses *)

(** [piece.parentElement]: the slot or the tray that has the node among its
    children, if any. *)
Definition parentElement (s : puzzleState) (i : nat) : option parent :=
  match list_find (λ sl, i ∈ children sl) (slots s) with
  | Some (k, _) => Some (InSlot k)
  | None => if decide (i ∈ tray s) then Some InTray else None
  end.

Definition remove_node (i : nat) (l : list nat) : list nat :=
  filter (λ j, j ≠ i) l.

(** First half of [appendChild]: a node that has a parent leaves it. *)
Definition detach (i : nat) (s : puzzleState) : puzzleState :=
  match parentElement s i with
  | Some (InSlot k) =>
      update_slot k (λ sl, set_children (remove_node i (children sl)) sl) s
  | Some InTray => set_tray (remove_node i (tray s)) s
  | None => s
  end.

(** [target.appendChild(piece)]: the node becomes the last child of
    [target]. *)
Definition appendChild (target : parent) (i : nat) (s : puzzleState)
  : puzzleState :=
  let s' := detach i s in
  match target with
  | InTray => set_tray (tray s' ++ [i]) s'
  | InSlot k => update_slot k (λ sl, set_children (children sl ++ [i]) sl) s'
  end.

(** [slot.querySelector('.puzzle-piece')]: the first piece under the slot. *)
Definition querySelector_piece (sl : slot) : option nat := head (children sl).

(** [puzzleState.pieces.find(p => p.dataset.pieceId === pieceId)]. *)
Definition find_piece (s : puzzleState) (id : string) : option nat :=
  fst <$> list_find (λ p, pieceId p = id) (pieces s).

End Dom.

(* ===================================================================== *)
(** * The script *)
(* ===================================================================== *)

Module Puzzle.
Import Grid Dom.

Definition IMAGE_PATH : string := "image.png".

Definition MSG_PLACED : string := "Piece placed on the board.".
Definition MSG_RETURNED : string := "Piece returned to the tray.".
Definition MSG_SHUFFLED : string := "Pieces shuffled. Start solving!".
Definition MSG_COMPLETED : string := "Puzzle completed! Great work!".
Definition MSG_SO_CLOSE : string := "So close! Some pieces need to be swapped.".

(** [setStatus(message)]: writes the status node when there is one. *)
Definition setStatus (message : string) (s : puzzleState) : puzzleState :=
  match statusNode s with
  | Some _ => set_statusNode (Some message) s
  | None => s
  end.

(** ** Building the board, the tray and the slices *)

(** [sliceScene]: one texture per (row, col), rows outermost.  The
    rectangles are given over the rationals here, which is enough for how
    many slices there are and which piece gets which; [DoubleScene] has them
    in the doubles of the script. *)
Definition sliceScene (boardSize : nat) (pieceSize : Q) : list texture :=
  row ← seq 0 boardSize;
  col ← seq 0 boardSize;
  [Texture (inject_Z (Z.of_nat col) * pieceSize)
           (inject_Z (Z.of_nat row) * pieceSize)
           pieceSize pieceSize].

(** [rebuildBoard]: [boardSize * boardSize] empty slots, [slotId = i + 1]. *)
Definition rebuildBoard (boardSize : nat) : list slot :=
  (λ i, Slot (pretty (i + 1)%nat) [] false false)
    <$> seq 0 (boardSize * boardSize).

(** [rebuildTray]: [totalPieces] bare pieces, [pieceId = i + 1], appended to
    the tray in that order. *)
Definition rebuildTray (totalPieces : nat) : list piece :=
  (λ i, Piece (pretty (i + 1)%nat) None None None) <$> seq 0 totalPieces.

(** [hydratePieces(textures)]: piece [index] gets [textures[index]] and
    [correctSlot = index + 1]. *)
Definition hydratePieces (textures : list texture) (s : puzzleState)
  : puzzleState :=
  set_pieces
    (imap (λ index p,
             Piece (pieceId p) (Some (pretty (index + 1)%nat)) (placedSlot p)
                   (textures !! index))
          (pieces s))
    s.

(** ** Moving pieces *)

(** [movePieceToTray(piece)]. *)
Definition movePieceToTray (i : nat) (s : puzzleState) : puzzleState :=
  let s1 :=
    match parentElement s i with
    | Some (InSlot k) =>
        update_slot k (λ sl, set_drag_over false (set_filled false sl)) s
    | _ => s
    end in
  let s2 := appendChild InTray i s1 in
  update_piece i (set_placedSlot (Some "")) s2.

(** [placePieceInSlot(piece, slot)], the slot given by its index. *)
Definition placePieceInSlot (i k : nat) (s : puzzleState) : puzzleState :=
  let s1 :=
    match parentElement s i with
    | Some (InSlot k') => update_slot k' (set_filled false) s
    | _ => s
    end in
  let s2 := appendChild (InSlot k) i s1 in
  let s3 := update_slot k (set_filled true) s2 in
  update_piece i (set_placedSlot (slotId <$> slots s3 !! k)) s3.

(** ** Completion check *)

Definition allFilled (s : puzzleState) : bool :=
  forallb (λ sl, bool_decide (is_Some (querySelector_piece sl))) (slots s).

Definition allCorrect (s : puzzleState) : bool :=
  forallb
    (λ sl,
       match querySelector_piece sl with
       | Some i =>
           match pieces s !! i with
           | Some p => bool_decide (correctSlot p = Some (slotId sl))
           | None => false
           end
       | None => false
       end)
    (slots s).

(** [checkCompletion()]: two messages, and silence while a slot is empty. *)
Definition checkCompletion (s : puzzleState) : puzzleState :=
  if allCorrect s && allFilled s then setStatus MSG_COMPLETED s
  else if allFilled s then setStatus MSG_SO_CLOSE s
  else s.

(** ** Drop handlers *)

(** [handleDropOnSlot(event)]: [k] is the slot the listener fired on
    ([event.currentTarget]; the listener is registered on the slots of the
    board only, so an index outside the board stands for no event at all)
    and [pieceId] is the text carried by the drag. *)
Definition handleDropOnSlot (k : nat) (pieceId : string) (s : puzzleState)
  : puzzleState * jsval :=
  match slots s !! k with
  | None => (s, JsUndefined)
  | Some slot =>
      match find_piece s pieceId with
      | None => (s, JsUndefined)
      | Some piece =>
          let s1 :=
            match querySelector_piece slot with
            | Some occupyingPiece =>
                if decide (occupyingPiece ≠ piece)
                then movePieceToTray occupyingPiece s
                else s
            | None => s
            end in
          let s2 := placePieceInSlot piece k s1 in
          let s3 := update_slot k (set_drag_over false) s2 in
          let s4 := setStatus MSG_PLACED s3 in
          (checkCompletion s4, JsUndefined)
      end
  end.

(** [handleDropOnTray(event)]. *)
Definition handleDropOnTray (pieceId : string) (s : puzzleState)
  : puzzleState * jsval :=
  match find_piece s pieceId with
  | None => (s, JsUndefined)
  | Some piece =>
      let s1 := movePieceToTray piece s in
      let s2 := setStatus MSG_RETURNED s1 in
      (checkCompletion s2, JsUndefined)
  end.

(** ** Shuffling *)

(** [Math.random()] returns a double in [[0, 1)]; a draw is given by its
    numerator over [2^53].  [Math.floor(Math.random() * n)], the floor taken
    of the exact product; the script rounds the product to a double first,
    which [Draws.floor_random_times_double] does as well: *)
Definition TWO53 : N := 9007199254740992.

Definition floor_random_times (draw : N) (n : nat) : nat :=
  N.to_nat ((draw mod TWO53) * N.of_nat n / TWO53).

(** [[a[i], a[j]] = [a[j], a[i]]]; the indices are always inside the array
    where the script swaps. *)
Definition swap (a : list nat) (i j : nat) : list nat :=
  match a !! i, a !! j with
  | Some x, Some y => <[j := x]> (<[i := y]> a)
  | _, _ => a
  end.

(** The Fisher-Yates loop, [i] running down to 1; [t] counts the calls to
    [Math.random] made so far. *)
Fixpoint fisherYates (random : nat → N) (t i : nat) (shuffled : list nat)
  : list nat :=
  match i with
  | O => shuffled
  | S i' =>
      let j := floor_random_times (random t) (i + 1) in
      fisherYates random (S t) i' (swap shuffled i j)
  end.

(** Body of the [slots.forEach] of [shufflePieces]. *)
Definition clearSlot (s : puzzleState) (k : nat) : puzzleState :=
  let s1 :=
    match slots s !! k ≫= querySelector_piece with
    | Some occupant => movePieceToTray occupant s
    | None => s
    end in
  update_slot k (λ sl, set_drag_over false (set_filled false sl)) s1.

(** [shufflePieces()], with the draws of [Math.random] supplied. *)
Definition shufflePieces (random : nat → N) (s : puzzleState) : puzzleState :=
  let s1 := foldl clearSlot s (seq 0 (length (slots s))) in
  let shuffled :=
    fisherYates random 0 (length (pieces s1) - 1) (seq 0 (length (pieces s1))) in
  let s2 := foldl (λ st piece, appendChild InTray piece st) s1 shuffled in
  setStatus MSG_SHUFFLED s2.

(** ** Start-up *)

(** What [initPuzzle] builds for a board of side [boardSize]: the slots, the
    pieces in the tray, and [puzzleState] after [hydratePieces]. *)
Definition assemble (boardSize : nat) (statusNode : option string)
  : puzzleState :=
  let totalPieces := (boardSize * boardSize)%nat in
  let pieceSize := (inject_Z BOARD_DIMENSION / inject_Z (Z.of_nat boardSize))%Q in
  let slots := rebuildBoard boardSize in
  let pieces := rebuildTray totalPieces in
  let textures := sliceScene boardSize pieceSize in
  hydratePieces textures
    (PuzzleState (seq 0 totalPieces) slots pieces boardSize pieceSize statusNode).

(** The same for a loaded image: the side comes from [computeBoardSize]. *)
Definition loadPuzzle (naturalWidth naturalHeight : Z)
    (statusNode : option string) : puzzleState :=
  assemble (Z.to_nat (computeBoardSize naturalWidth naturalHeight)) statusNode.

(** [initPuzzle()] once the image is loaded: the state after the initial
    shuffle.  [statusNode] is what [injectHelperPanel] found or created. *)
Definition initPuzzle (naturalWidth naturalHeight : Z)
    (statusNode : option string) (random : nat → N) : puzzleState :=
  setStatus
    ("Image loaded from " +:+ IMAGE_PATH +:+ " (" +:+ pretty naturalWidth
       +:+ "×" +:+ pretty naturalHeight +:+ "). Drag pieces to solve!")
    (shufflePieces random (loadPuzzle naturalWidth naturalHeight statusNode)).

(** ** The puzzle as a state machine *)

Inductive op :=
| DropOnSlot (k : nat) (pieceId : string)
| DropOnTray (pieceId : string)
| Shuffle (random : nat → N).

Definition step (s : puzzleState) (o : op) : puzzleState :=
  match o with
  | DropOnSlot k pieceId => (handleDropOnSlot k pieceId s).1
  | DropOnTray pieceId => (handleDropOnTray pieceId s).1
  | Shuffle random => shufflePieces random s
  end.

Definition run (ops : list op) (s : puzzleState) : puzzleState :=
  foldl step s ops.

End Puzzle.

(* ===================================================================== *)
(** * Predicates on states *)
(* ===================================================================== *)

Module Model.
Import Dom Puzzle.

(** Every piece node that hangs in the tray or in a slot, in document
    order. *)
Definition nodes (s : puzzleState) : list nat :=
  tray s ++ (slots s ≫= children).

(** [located s i loc]: node [i] is a child of [loc]. *)
Definition located (s : puzzleState) (i : nat) (loc : parent) : Prop :=
  match loc with
  | InTray => i ∈ tray s
  | InSlot k => ∃ sl, slots s !! k = Some sl ∧ i ∈ children sl
  end.

(** The piece a slot shows, by index of the slot. *)
Definition occupant (s : puzzleState) (k : nat) : option nat :=
  slots s !! k ≫= querySelector_piece.

(** Well-formed states: the pieces carry the ids [rebuildTray] gave them,
    every piece node hangs in exactly one place, and a slot has at most one
    child. *)
Definition wf (s : puzzleState) : Prop :=
  pieceId <$> pieces s
    = (λ i, pretty (i + 1)%nat) <$> seq 0 (length (pieces s))
  ∧ NoDup (nodes s)
  ∧ Forall (λ i, (i < length (pieces s))%nat) (nodes s)
  ∧ length (nodes s) = length (pieces s)
  ∧ Forall (λ sl, (length (children sl) ≤ 1)%nat) (slots s).

Global Instance wf_dec s : Decision (wf s).
Proof. unfold wf. apply _. Defined.

(** What the moves come to in a state where every node has one parent:
    [strip] takes a node out of wherever it hangs, [moved_to_tray] is the
    state after [movePieceToTray], [placed_in_slot] the state after
    [placePieceInSlot] (lemmas [detach_strip], [movePieceToTray_tree] and
    [placePieceInSlot_tree]). *)
Definition strip_slot (i : nat) (sl : slot) : slot :=
  set_children (remove_node i (children sl)) sl.

Definition strip (i : nat) (s : puzzleState) : puzzleState :=
  PuzzleState (remove_node i (tray s)) (strip_slot i <$> slots s) (pieces s)
    (boardSize s) (pieceSize s) (statusNode s).

Definition evict_slot (i : nat) (sl : slot) : slot :=
  if decide (i ∈ children sl)
  then Slot (slotId sl) (remove_node i (children sl)) false false
  else sl.

Definition moved_to_tray (i : nat) (s : puzzleState) : puzzleState :=
  PuzzleState (remove_node i (tray s) ++ [i]) (evict_slot i <$> slots s)
    (alter (set_placedSlot (Some "")) i (pieces s))
    (boardSize s) (pieceSize s) (statusNode s).

Definition vacate_slot (i : nat) (sl : slot) : slot :=
  if decide (i ∈ children sl)
  then Slot (slotId sl) (remove_node i (children sl)) false (drag_over sl)
  else sl.

Definition receive (i : nat) (sl : slot) : slot :=
  Slot (slotId sl) (children sl ++ [i]) true (drag_over sl).

Definition placed_in_slot (i k : nat) (s : puzzleState) : puzzleState :=
  PuzzleState (remove_node i (tray s))
    (alter (receive i) k (vacate_slot i <$> slots s))
    (alter (set_placedSlot (slotId <$> slots s !! k)) i (pieces s))
    (boardSize s) (pieceSize s) (statusNode s).

(** The state a drop on slot [k] works on once the occupant, if it is
    another piece, has been sent to the tray. *)
Definition after_eviction (i : nat) (slot : slot) (s : puzzleState)
  : puzzleState :=
  match querySelector_piece slot with
  | Some o => if decide (o ≠ i) then moved_to_tray o s else s
  | None => s
  end.

(** A slot with no child and neither class set. *)
Definition blank (sl : slot) : Prop :=
  children sl = [] ∧ filled sl = false ∧ drag_over sl = false.

(** The [pieceId]s of a list of piece nodes. *)
Definition pieceIds_of (s : puzzleState) (l : list nat) : list string :=
  omap (λ i, pieceId <$> pieces s !! i) l.

(** The two conditions of the completion check, in words of the cells. *)
Definition AllFilled (s : puzzleState) : Prop :=
  ∀ sl, sl ∈ slots s → is_Some (querySelector_piece sl).

Definition AllCorrect (s : puzzleState) : Prop :=
  ∀ sl i, sl ∈ slots s → querySelector_piece sl = Some i →
    ∃ p, pieces s !! i = Some p ∧ correctSlot p = Some (slotId sl).

Definition SomeEmpty (s : puzzleState) : Prop :=
  ∃ sl, sl ∈ slots s ∧ querySelector_piece sl = None.

(** The status line never shows a message of the completion check that the
    board does not deserve. *)
Definition status_agrees (s : puzzleState) : Prop :=
  (statusNode s = Some MSG_COMPLETED → AllFilled s ∧ AllCorrect s)
  ∧ (statusNode s = Some MSG_SO_CLOSE → AllFilled s ∧ ¬ AllCorrect s).

End Model.
(* ===================================================================== *)
(** * Sample states *)
(* ===================================================================== *)

Module Examples.
Import Dom Puzzle.

(** A 100 x 100 image gives a 2 x 2 board; every draw of [Math.random] is
    0 here. *)
Definition zero_draws : nat → N := λ _, 0%N.

Definition start : puzzleState := initPuzzle 100 100 (Some "") zero_draws.

(** Piece 1 dropped on slot 3. *)
Definition one_placed : puzzleState := run [DropOnSlot 2 "1"] start.

(** All four pieces on their own slots. *)
Definition solved : puzzleState :=
  run [DropOnSlot 0 "1"; DropOnSlot 1 "2"; DropOnSlot 2 "3"; DropOnSlot 3 "4"]
    start.

End Examples.

(* ===================================================================== *)
(** * The sizes of [initPuzzle] *)
(* ===================================================================== *)

Module Scene.
Import Grid.

(** [pieceSize = BOARD_DIMENSION / boardSize] of [initPuzzle]. *)
Definition pieceSize_of (boardSize : Z) : Q :=
  (inject_Z BOARD_DIMENSION / inject_Z boardSize)%Q.


End Scene.

(* ===================================================================== *)
(** * The slices in double precision *)
(* ===================================================================== *)

(** [sliceScene] hands [drawImage] the numbers [col * pieceSize],
    [row * pieceSize] and [pieceSize], computed in IEEE doubles from
    [pieceSize = BOARD_DIMENSION / boardSize].  This module runs these steps
    on binary64 numbers, for the question of how the slices fit together,
    where the last bit counts. *)
Module DoubleScene.
Import Grid.

(** The source rectangle of a slice, in doubles. *)
Record texture := Texture { sx : float; sy : float; sw : float; sh : float }.

(** [pieceSize = BOARD_DIMENSION / boardSize] of [initPuzzle]. *)
Definition pieceSize_of (boardSize : Z) : float :=
  (Double.of_Z BOARD_DIMENSION / Double.of_Z boardSize)%float.

(** [sliceScene(sceneCanvas, boardSize, pieceSize)]: rows outermost. *)
Definition sliceScene (boardSize : nat) (pieceSize : float) : list texture :=
  row ← seq 0 boardSize;
  col ← seq 0 boardSize;
  [Texture (Double.of_Z (Z.of_nat col) * pieceSize)
     (Double.of_Z (Z.of_nat row) * pieceSize) pieceSize pieceSize].

(** The rational number a finite double stands for. *)
Definition value_of (x : float) : option Q :=
  match Prim2SF x with
  | S754_zero _ => Some 0%Q
  | S754_finite s m e =>
      Some ((if s then -1 else 1) * inject_Z (Z.pos m) * Qpower 2 e)%Q
  | _ => None
  end.

(** An extent [[x, x + w]] lies on the scene canvas, which measures
    [BOARD_DIMENSION]: as doubles compare, and in exact value. *)
Definition fits (x w : float) : bool :=
  (0 <=? x)%float && (x + w <=? Double.of_Z BOARD_DIMENSION)%float
  && match value_of x, value_of w with
     | Some a, Some b =>
         Qle_bool 0 a && Qle_bool (a + b) (inject_Z BOARD_DIMENSION)
     | _, _ => false
     end.

Definition within (t : texture) : bool :=
  fits (sx t) (sw t) && fits (sy t) (sh t).

(** An extent [[x, x + w]] ends where the next one begins, at [x']: as
    doubles compare, and in exact value up to [2^-45] of a pixel. *)
Definition meets (x w x' : float) : bool :=
  (x + w =? x')%float
  && match value_of x, value_of w, value_of x' with
     | Some a, Some b, Some c =>
         Qle_bool (a + b - c) (Qpower 2 (-45))
         && Qle_bool (c - (a + b)) (Qpower 2 (-45))
     | _, _, _ => false
     end.

Definition abuts_right (t t' : texture) : bool :=
  meets (sx t) (sw t) (sx t') && (sy t =? sy t')%float.

Definition abuts_below (t t' : texture) : bool :=
  meets (sy t) (sh t) (sy t') && (sx t =? sx t')%float.

Definition same_origin (t t' : texture) : bool :=
  (sx t =? sx t')%float && (sy t =? sy t')%float.

End DoubleScene.

(* ===================================================================== *)
(** * What never changes, and what the classes and attributes track *)
(* ===================================================================== *)

Module Frame.
Import Dom Puzzle Model.

(** The part of a piece that is set at load time. *)
Definition piece_static (p : piece) : string * option string * option texture :=
  (pieceId p, correctSlot p, backgroundImage p).

(** [s'] has the board side, the piece size, the slot ids and the static
    part of every piece of [s]. *)
Definition same_frame (s s' : puzzleState) : Prop :=
  boardSize s' = boardSize s
  ∧ pieceSize s' = pieceSize s
  ∧ slotId <$> slots s' = slotId <$> slots s
  ∧ piece_static <$> pieces s' = piece_static <$> pieces s.

(** The [filled] class marks exactly the slots that hold a piece. *)
Definition filled_tracks (s : puzzleState) : Prop :=
  ∀ k sl, slots s !! k = Some sl → (filled sl = true ↔ children sl ≠ []).

(** [dataset.placedSlot] names the slot a piece lies on; for a piece in the
    tray it is empty, or still undefined when the piece was never moved. *)
Definition placedSlot_tracks (s : puzzleState) : Prop :=
  ∀ i p, pieces s !! i = Some p →
    (∀ k sl, slots s !! k = Some sl → i ∈ children sl →
       placedSlot p = Some (slotId sl))
    ∧ (i ∈ tray s → placedSlot p = None ∨ placedSlot p = Some "").

End Frame.

Module Effects.
Import Dom Puzzle Model.

(** The occupant a drop of piece [i] on a slot sends to the tray: the piece
    the slot shows, unless that is [i] itself. *)
Definition evicted (i : nat) (slot : slot) : list nat :=
  match querySelector_piece slot with
  | Some o => if decide (o ≠ i) then [o] else []
  | None => []
  end.

(** The piece records after a drop of [i] on [slot]: the evicted occupant
    has an empty [placedSlot], the dropped piece that of the slot. *)
Definition pieces_after_drop (i : nat) (slot : slot) (l : list piece)
  : list piece :=
  alter (set_placedSlot (Some (slotId slot))) i
    (foldr (λ o, alter (set_placedSlot (Some "")) o) l (evicted i slot)).

End Effects.

(* ===================================================================== *)
(** * Home slots *)
(* ===================================================================== *)

Module Reach.
Import Dom Puzzle Model.

(** Slot [k] and piece [k] were made as a pair by [rebuildBoard],
    [rebuildTray] and [hydratePieces]: there are as many slots as pieces,
    slot [k] has id [k + 1] and piece [k] names it as its [correctSlot]. *)
Definition home (s : puzzleState) : Prop :=
  length (slots s) = length (pieces s)
  ∧ ∀ k sl p, slots s !! k = Some sl → pieces s !! k = Some p →
      slotId sl = pretty (k + 1)%nat
      ∧ correctSlot p = Some (pretty (k + 1)%nat).

(** The finished picture: every slot shows the piece cut for it. *)
Definition at_home (s : puzzleState) : Prop :=
  ∀ k, (k < length (slots s))%nat → occupant s k = Some k.

End Reach.

(* ===================================================================== *)
(** * The draws of a shuffle *)
(* ===================================================================== *)

Module Draws.
Import Puzzle.

(** The index [j] the loop of [shufflePieces] picks at its [t]-th call of
    [Math.random], for [n] pieces: then [i = n - 1 - t], and
    [j = Math.floor(Math.random() * (i + 1))]. *)
Definition chosen (random : nat → N) (n t : nat) : nat :=
  floor_random_times (random t) (n - t).

(** A value of [Math.random], as a numerator over [2^53], for which
    [Math.floor(Math.random() * n)] is [j]: the least one. *)
Definition draw_for (j n : nat) : N :=
  ((N.of_nat j * TWO53 + N.of_nat n - 1) / N.of_nat n)%N.

(** Draws for a shuffle of [n] pieces that make the loop pick the index
    [js t] at its [t]-th step: the least draw for each. *)
Definition draws_for (js : nat → nat) (n : nat) : nat → N :=
  λ t, draw_for (js t) (n - t).

(** The same index as the script computes it, in doubles: the value
    [draw / 2^53] of [Math.random()], its product with [n] rounded to a
    double, and [Math.floor] of that.  [Puzzle.floor_random_times] takes the
    floor of the exact product; the two differ for the few draws whose
    product is rounded up to a whole number. *)
Definition random_of (draw : N) : float :=
  (Double.of_Z (Z.of_N (draw mod TWO53)) / Double.of_Z (Z.of_N TWO53))%float.

(** [Math.floor(x)] of a finite double. *)
Definition Math_floor (x : float) : option Z :=
  match Prim2SF x with
  | S754_zero _ => Some 0
  | S754_finite s m e =>
      let n := if s then Z.neg m else Z.pos m in
      Some (if 0 <=? e then n * 2 ^ e else n / 2 ^ (- e))
  | _ => None
  end.

Definition floor_random_times_double (draw : N) (n : nat) : option Z :=
  Math_floor (random_of draw * Double.of_Z (Z.of_nat n))%float.

End Draws.

(* ===================================================================== *)
(** * Drag events *)
(* ===================================================================== *)

Module Drag.
Import Dom Puzzle.

(** The [dataTransfer] of a drag: its 'text/plain' data (the empty string
    while none is set) and the two effect fields the script writes. *)
Record dataTransfer := DataTransfer {
  text_plain : string;
  effectAllowed : string;
  dropEffect : string
}.

(** The page during a drag: [puzzleState] with the nodes it holds, the piece
    nodes that carry the class [dragging], and the data of the drag. *)
Record page := Page {
  puzzle : puzzleState;
  dragging : list nat;
  transfer : dataTransfer
}.

(** [classList.add]: a class is there once. *)
Definition classList_add (i : nat) (l : list nat) : list nat :=
  if decide (i ∈ l) then l else l ++ [i].

(** [handleDragStart(event)], [event.currentTarget] being piece [piece]. *)
Definition handleDragStart (piece : nat) (pg : page) : page :=
  match pieces (puzzle pg) !! piece with
  | Some p =>
      Page (puzzle pg) (classList_add piece (dragging pg))
        (DataTransfer (pieceId p) "move" (dropEffect (transfer pg)))
  | None => pg
  end.

(** The [forEach] of [handleDragEnd]: no slot keeps [drag-over]. *)
Definition clear_drag_over (s : puzzleState) : puzzleState :=
  set_slots (set_drag_over false <$> slots s) s.

(** [handleDragEnd(event)]. *)
Definition handleDragEnd (piece : nat) (pg : page) : page :=
  Page (clear_drag_over (puzzle pg)) (remove_node piece (dragging pg))
    (transfer pg).

(** [handleDragOver(event)]. *)
Definition handleDragOver (pg : page) : page :=
  Page (puzzle pg) (dragging pg)
    (DataTransfer (text_plain (transfer pg)) (effectAllowed (transfer pg))
       "move").

(** The events [enableDragAndDrop] listens to, with the node they fire
    on. *)
Inductive event :=
| DragStart (piece : nat)
| DragEnd (piece : nat)
| DragOverSlot (k : nat)
| DragOverTray
| DragEnter (k : nat)
| DragLeave (k : nat)
| DropSlot (k : nat)
| DropTray.

Definition on_puzzle (f : puzzleState → puzzleState) (pg : page) : page :=
  Page (f (puzzle pg)) (dragging pg) (transfer pg).

(** The listeners of [enableDragAndDrop]: an event on a node that is no
    piece or no slot of the puzzle meets no listener. *)
Definition fire (pg : page) (e : event) : page :=
  match e with
  | DragStart piece => handleDragStart piece pg
  | DragEnd piece =>
      if decide (piece < length (pieces (puzzle pg)))%nat
      then handleDragEnd piece pg else pg
  | DragOverSlot k =>
      if decide (k < length (slots (puzzle pg)))%nat
      then handleDragOver pg else pg
  | DragOverTray => handleDragOver pg
  | DragEnter k => on_puzzle (update_slot k (set_drag_over true)) pg
  | DragLeave k => on_puzzle (update_slot k (set_drag_over false)) pg
  | DropSlot k =>
      on_puzzle (λ s, (handleDropOnSlot k (text_plain (transfer pg)) s).1) pg
  | DropTray =>
      on_puzzle (λ s, (handleDropOnTray (text_plain (transfer pg)) s).1) pg
  end.

(** The events of a drag between its start and its drop. *)
Definition hovering (e : event) : bool :=
  match e with
  | DragOverSlot _ | DragOverTray | DragEnter _ | DragLeave _ => true
  | _ => false
  end.

End Drag.

(* ===================================================================== *)
(** * Sound *)
(* ===================================================================== *)

Module Audio.
Import Dom Puzzle.

Inductive waveform := sine | triangle | sawtooth | square.

(** A step of a sequence, as the object literals give it: [delay],
    [duration] and [type] may be left out. *)
Record step := Step {
  freq : Q;
  delay : option Q;
  duration : option Q;
  type : option waveform
}.

(** An oscillator [playPulse] starts: its wave and frequency, the three
    points [(value, time)] of its gain envelope, and when it starts and
    stops. *)
Record oscillator := Oscillator {
  osc_type : waveform;
  osc_frequency : Q;
  envelope : list (Q * Q);
  osc_start : Q;
  osc_stop : Q
}.

(** The closure of [createAudioEngine]: [isMuted], the value of the master
    gain, the calls of [context.resume()] and the oscillators started. *)
Record engine := Engine {
  isMuted : bool;
  masterGain : Q;
  resumes : nat;
  oscillators : list oscillator
}.

Definition baseGain : Q := 25 # 100.

(** The engine [createAudioEngine] returns where there is an
    [AudioContext]. *)
Definition fresh : engine := Engine false baseGain 0 [].

(** [createAudioEngine()]: [null] without [AudioContext]. *)
Definition createAudioEngine (supported : bool) : option engine :=
  if supported then Some fresh else None.

Definition playPulse (frequency startTime duration : Q) (type : waveform)
  : oscillator :=
  let attack : Q := 1 # 100 in
  let decay := (duration - attack)%Q in
  Oscillator type frequency
    [((1 # 10000)%Q, startTime);
     (1%Q, (startTime + attack)%Q);
     ((1 # 10000)%Q, (startTime + attack + decay)%Q)]
    startTime (startTime + duration + (5 # 100))%Q.

(** The body of the [forEach] of [playSequence], with the defaults of its
    destructuring. *)
Definition pulse_of (now : Q) (st : step) : oscillator :=
  playPulse (freq st) (now + default 0%Q (delay st))%Q
    (default (18 # 100)%Q (duration st)) (default sine (type st)).

(** [playSequence(steps)]; [suspended] tells whether [context.state] is
    ['suspended'] and [now] is [context.currentTime]. *)
Definition playSequence (steps : list step) (suspended : bool) (now : Q)
    (e : engine) : engine :=
  if isMuted e then e
  else
    Engine (isMuted e) (masterGain e)
      (if suspended then S (resumes e) else resumes e)
      (oscillators e ++ (pulse_of now <$> steps)).

Definition toggleMute (e : engine) : engine :=
  let isMuted' := negb (isMuted e) in
  Engine isMuted' (if isMuted' then 0%Q else baseGain) (resumes e)
    (oscillators e).

Definition PLACE : list step :=
  [Step 420 None (Some (12 # 100)%Q) (Some triangle);
   Step 620 (Some (8 # 100)%Q) (Some (10 # 100)%Q) (Some triangle)].
Definition RETURN : list step :=
  [Step 260 None (Some (12 # 100)%Q) (Some sawtooth)].
Definition SHUFFLE : list step :=
  [Step 160 None (Some (8 # 100)%Q) (Some square);
   Step 220 (Some (5 # 100)%Q) (Some (8 # 100)%Q) (Some square);
   Step 280 (Some (10 # 100)%Q) (Some (8 # 100)%Q) (Some square)].
Definition COMPLETE : list step :=
  [Step 520 None (Some (12 # 100)%Q) (Some sine);
   Step 660 (Some (8 # 100)%Q) (Some (14 # 100)%Q) (Some sine);
   Step 880 (Some (18 # 100)%Q) (Some (18 # 100)%Q) (Some triangle)].

(** The four sounds of the engine. *)
Inductive cue := playPlace | playReturn | playShuffle | playComplete.

Definition steps_of (c : cue) : list step :=
  match c with
  | playPlace => PLACE
  | playReturn => RETURN
  | playShuffle => SHUFFLE
  | playComplete => COMPLETE
  end.

(** The audio button: its label and whether it is disabled. *)
Record button := Button { textContent : string; disabled : bool }.

(** What [setupAudio] leaves: [puzzleState.audio] and the button. *)
Record sound := Sound { audio : option engine; audioToggle : option button }.

Definition syncLabel (e : engine) (b : option button) : option button :=
  (λ b, Button (if isMuted e then "Enable sound" else "Mute sound")
          (disabled b)) <$> b.

(** [setupAudio()], on a [puzzleState] whose [audio] is still [null]. *)
Definition setupAudio (supported : bool) (audioToggle : option button)
  : sound :=
  match createAudioEngine supported with
  | None => Sound None ((λ _, Button "Audio not supported" true) <$> audioToggle)
  | Some e => Sound (Some e) (syncLabel e audioToggle)
  end.

(** What happens to the sound afterwards: a click on the button, or a call
    [puzzleState.audio?.play...?.()] of the game. *)
Inductive event :=
| Click
| Play (c : cue) (suspended : bool) (now : Q).

Definition fire (s : sound) (ev : event) : sound :=
  match ev with
  | Click =>
      match audio s, audioToggle s with
      | Some e, Some _ =>
          let e' := toggleMute e in
          Sound (Some e') (syncLabel e' (audioToggle s))
      | _, _ => s
      end
  | Play c suspended now =>
      Sound (playSequence (steps_of c) suspended now <$> audio s)
        (audioToggle s)
  end.

Definition is_click (ev : event) : bool :=
  match ev with Click => true | _ => false end.

(** The number of clicks among the events. *)
Definition clicks (events : list event) : nat :=
  length (filter (λ ev, is_click ev = true) events).

(** An oscillator as [playPulse] makes them: the envelope starts with the
    oscillator, rises, falls, and is over before the oscillator stops. *)
Definition well_timed (o : oscillator) : Prop :=
  ∃ t1 t2 : Q,
    envelope o = [((1 # 10000)%Q, osc_start o); (1%Q, t1); ((1 # 10000)%Q, t2)]
    ∧ (osc_start o < t1)%Q ∧ (t1 < t2)%Q ∧ (t2 < osc_stop o)%Q.

(** The button as [syncLabel] leaves it. *)
Definition label (e : engine) (b : button) : button :=
  Button (if isMuted e then "Enable sound" else "Mute sound") (disabled b).

(** The master gain is what [toggleMute] sets for [isMuted]. *)
Definition gain_agrees (e : engine) : Prop :=
  masterGain e = if isMuted e then 0%Q else baseGain.

End Audio.

(* ===================================================================== *)
(** * The sounds the game asks for *)
(* ===================================================================== *)

Module Cues.
Import Dom Puzzle.
Export Audio (cue, playPlace, playReturn, playShuffle, playComplete).

(** The handlers call the engine through [puzzleState.audio?.play...?.()]:
    where [setupAudio] found no engine these calls do nothing.  Here the
    handlers are given with the sounds they ask for, oldest first.

    [checkCompletion()] with its call of the engine. *)
Definition checkCompletion (s : puzzleState) (played : list cue)
  : puzzleState * list cue :=
  if allCorrect s && allFilled s
  then (setStatus MSG_COMPLETED s, played ++ [playComplete])
  else if allFilled s then (setStatus MSG_SO_CLOSE s, played)
  else (s, played).

(** [handleDropOnSlot(event)] with its calls of the engine. *)
Definition handleDropOnSlot (k : nat) (pieceId : string) (s : puzzleState)
    (played : list cue) : puzzleState * list cue :=
  match slots s !! k with
  | None => (s, played)
  | Some slot =>
      match find_piece s pieceId with
      | None => (s, played)
      | Some piece =>
          let s1 :=
            match querySelector_piece slot with
            | Some occupyingPiece =>
                if decide (occupyingPiece ≠ piece)
                then movePieceToTray occupyingPiece s
                else s
            | None => s
            end in
          let s2 := placePieceInSlot piece k s1 in
          let s3 := update_slot k (set_drag_over false) s2 in
          let s4 := setStatus MSG_PLACED s3 in
          checkCompletion s4 (played ++ [playPlace])
      end
  end.

(** [handleDropOnTray(event)] with its calls of the engine. *)
Definition handleDropOnTray (pieceId : string) (s : puzzleState)
    (played : list cue) : puzzleState * list cue :=
  match find_piece s pieceId with
  | None => (s, played)
  | Some piece =>
      let s1 := movePieceToTray piece s in
      let s2 := setStatus MSG_RETURNED s1 in
      checkCompletion s2 (played ++ [playReturn])
  end.

(** [shufflePieces()] with its call of the engine. *)
Definition shufflePieces (random : nat → N) (s : puzzleState)
    (played : list cue) : puzzleState * list cue :=
  (Puzzle.shufflePieces random s, played ++ [playShuffle]).

Definition step (o : op) (sp : puzzleState * list cue)
  : puzzleState * list cue :=
  match o with
  | DropOnSlot k pieceId => handleDropOnSlot k pieceId sp.1 sp.2
  | DropOnTray pieceId => handleDropOnTray pieceId sp.1 sp.2
  | Shuffle random => shufflePieces random sp.1 sp.2
  end.

End Cues.

(* ===================================================================== *)
(** * Start-up of the page *)
(* ===================================================================== *)

Module Startup.
Import Dom Puzzle.

(** What [initPuzzle] finds when the window has loaded: whether the tray
    and the board are in the markup; the helper panel, if one is already
    there (with its canvas), with the text of its status node, if it has
    one; and the natural size of [image.png], if it loads. *)
Record document := Document {
  has_tray : bool;
  has_board : bool;
  helper_panel : option (option string);
  image : option (Z * Z)
}.

(** [injectHelperPanel()]: the status node of the panel that is there, or
    the empty [<p>] of a new panel. *)
Definition injectHelperPanel (d : document) : option string :=
  match helper_panel d with
  | Some statusNode => statusNode
  | None => Some ""
  end.

(** [setStatus(message)] on the global [puzzleState], [null] at first. *)
Definition setStatus (message : string) (g : option puzzleState)
  : option puzzleState :=
  Puzzle.setStatus message <$> g.

(** What the status node of the panel reads: [puzzleState.statusNode] is
    that node once [puzzleState] is set. *)
Definition shown (statusNode : option string) (g : option puzzleState)
  : option string :=
  match g with
  | Some s => Dom.statusNode s
  | None => statusNode
  end.

Record outcome := Outcome {
  puzzleState_after : option puzzleState;
  status_line : option string;
  console : list string
}.

Definition MSG_LOADING : string := "Loading image.png...".
Definition MSG_UNABLE : string :=
  "Unable to load image.png. Please ensure the file is present.".

(** [initPuzzle()] as [window.onload] calls it, [puzzleState] being
    [null]. *)
Definition initPuzzle (d : document) (random : nat → N) : outcome :=
  if negb (has_tray d && has_board d)
  then Outcome None (helper_panel d ≫= λ statusNode, statusNode)
         ["Puzzle markup missing. Cannot start puzzle."]
  else
    let statusNode := injectHelperPanel d in
    let g0 := setStatus MSG_LOADING None in
    match image d with
    | Some (naturalWidth, naturalHeight) =>
        let g1 :=
          Some (Puzzle.initPuzzle naturalWidth naturalHeight statusNode
                  random) in
        Outcome g1 (shown statusNode g1) []
    | None =>
        let g1 := setStatus MSG_UNABLE g0 in
        Outcome g1 (shown statusNode g1) ["Failed to initialize puzzle"]
    end.

End Startup.

(* ===================================================================== *)
(** * A way to the finished picture *)
(* ===================================================================== *)

Module Solving.
Import Dom Puzzle.

(** The drops that put piece [k] on slot [k], for the first [n] pieces in
    turn; the drag of piece [k] carries its id, [k + 1]. *)
Definition solution (n : nat) : list op :=
  (λ k, DropOnSlot k (pretty (k + 1)%nat)) <$> seq 0 n.

End Solving.

Lemma boosted_nonneg A : (0 <= Grid.boosted A)%R.
Proof.
  unfold Grid.boosted, Grid.base.
  apply Rmult_le_pos; [apply sqrt_pos | lra].
Qed.

(** [(2 * boosted)^2 = 529 * pixelCount / 3500000]. *)
Lemma boosted_square A :
  0 <= A ->
  (2 * Grid.boosted A * (2 * Grid.boosted A) = 529 * IZR A / 3500000)%R.
Proof.
  intros HA. unfold Grid.boosted, Grid.base, Grid.TARGET_PIXELS_PER_PIECE.
  assert (Hq : (0 <= IZR A / 35000)%R).
  { apply IZR_le in HA. apply Rmult_le_pos; lra. }
  pose proof (sqrt_sqrt _ Hq) as Hs.
  set (r := sqrt (IZR A / 35000)) in *.
  replace (2 * (r * (115 / 100)) * (2 * (r * (115 / 100))))%R
    with (r * r * (13225 / 2500))%R by lra.
  rewrite Hs. lra.
Qed.

(** The executable rounding agrees with [Math.round] over the reals. *)
Lemma approximatePiecesPerSide_round A :
  0 <= A ->
  Grid.approximatePiecesPerSide A = Grid.Math_round (Grid.boosted A).
Proof.
  intros HA. unfold Grid.approximatePiecesPerSide, Grid.Math_round.
  symmetry. apply Zfloor_eq.
  set (q := 529 * A / 3500000).
  set (m := Z.sqrt q).
  set (n := (m + 1) / 2).
  assert (Hq0 : 0 <= q) by (apply Z.div_pos; lia).
  assert (Hq : 3500000 * q <= 529 * A < 3500000 * (q + 1)).
  { unfold q. pose proof (Z.div_mod (529 * A) 3500000 ltac:(lia)).
    pose proof (Z.mod_pos_bound (529 * A) 3500000 ltac:(lia)). lia. }
  assert (Hm : m * m <= q < (m + 1) * (m + 1)).
  { pose proof (Z.sqrt_spec q Hq0) as Hs. unfold Z.succ in Hs. exact Hs. }
  assert (Hm0 : 0 <= m) by apply Z.sqrt_nonneg.
  assert (Hn : 2 * n - 1 <= m <= 2 * n).
  { unfold n. pose proof (Z.div_mod (m + 1) 2 ltac:(lia)).
    pose proof (Z.mod_pos_bound (m + 1) 2 ltac:(lia)). lia. }
  pose proof (boosted_nonneg A) as Hy0.
  pose proof (boosted_square A HA) as Hy2.
  set (y := (2 * Grid.boosted A)%R) in *.
  assert (Hy0' : (0 <= y)%R) by (unfold y; lra).
  assert (HqR : (3500000 * IZR q <= 529 * IZR A < 3500000 * (IZR q + 1))%R).
  { destruct Hq as [Hq1 Hq2]. apply IZR_le in Hq1. apply IZR_lt in Hq2.
    rewrite !mult_IZR in Hq1, Hq2. rewrite plus_IZR in Hq2. lra. }
  assert (HmR : (IZR m * IZR m <= IZR q /\
                 IZR q + 1 <= (IZR m + 1) * (IZR m + 1))%R).
  { destruct Hm as [Hm1 Hm2].
    assert (Hm3 : q + 1 <= (m + 1) * (m + 1)) by lia.
    apply IZR_le in Hm1. apply IZR_le in Hm3.
    rewrite !mult_IZR in Hm1, Hm3. rewrite !plus_IZR in Hm3. lra. }
  assert (HnR : (2 * IZR n - 1 <= IZR m <= 2 * IZR n)%R).
  { destruct Hn as [Hn1 Hn2]. apply IZR_le in Hn1. apply IZR_le in Hn2.
    rewrite minus_IZR, !mult_IZR in Hn1. rewrite mult_IZR in Hn2. lra. }
  assert (Hm0R : (0 <= IZR m)%R) by (apply IZR_le in Hm0; lra).
  assert (Hyq : (IZR q <= y * y < IZR q + 1)%R) by (rewrite Hy2; lra).
  assert (Hlow : (IZR m <= y)%R).
  { destruct (Rle_lt_dec (IZR m) y) as [|Hlt]; [done|]. exfalso.
    assert (0 < (IZR m - y) * (IZR m + y))%R
      by (apply Rmult_lt_0_compat; lra).
    nra. }
  assert (Hup : (y < IZR m + 1)%R).
  { destruct (Rlt_le_dec y (IZR m + 1)) as [|Hge]; [done|]. exfalso.
    assert (0 <= (y - (IZR m + 1)) * (y + (IZR m + 1)))%R
      by (apply Rmult_le_pos; lra).
    nra. }
  unfold y in *. lra.
Qed.

Lemma clamp_range v :
  Grid.MIN_BOARD_SIZE <= Grid.clamp v Grid.MIN_BOARD_SIZE Grid.MAX_BOARD_SIZE
    <= Grid.MAX_BOARD_SIZE.
Proof. unfold Grid.clamp, Grid.MIN_BOARD_SIZE, Grid.MAX_BOARD_SIZE. lia. Qed.

Lemma approximatePiecesPerSide_nonneg A : 0 <= Grid.approximatePiecesPerSide A.
Proof.
  unfold Grid.approximatePiecesPerSide.
  pose proof (Z.sqrt_nonneg (529 * A / 3500000)).
  apply Z.div_pos; lia.
Qed.

(** [computeBoardSize] is the clamped, defaulted rounding of the boosted
    side, as the script computes it. *)
Lemma computeBoardSize_real W H :
  0 <= W * H ->
  Grid.computeBoardSize W H
  = Grid.clamp
      (Grid.or_else (Grid.Math_round (Grid.boosted (W * H))) Grid.MIN_BOARD_SIZE)
      Grid.MIN_BOARD_SIZE Grid.MAX_BOARD_SIZE.
Proof.
  intros HA. unfold Grid.computeBoardSize.
  by rewrite approximatePiecesPerSide_round.
Qed.

(** ** Double precision *)

Lemma Double_computeBoardSize_range W H :
  2 <= Double.computeBoardSize W H <= 7.
Proof. apply clamp_range. Qed.

(** The real-number reading and the double-precision run agree on both
    sides of every step of the rounded side. *)
Example Double_agrees_at_steps :
  forallb (λ A, Double.approximatePiecesPerSide A
                =? Grid.approximatePiecesPerSide A) Double.steps = true.
Proof. by vm_compute. Qed.

Example Double_steps_values :
  Grid.approximatePiecesPerSide <$> Double.steps
  = [0; 1; 1; 2; 2; 3; 3; 4; 4; 5; 5; 6; 6; 7; 7; 8].
Proof. by vm_compute. Qed.

(** C5: for positive image dimensions the grid side is a function of
    (W, H) alone - equal inputs give equal sides - it is the clamped
    rounding of [sqrt (W * H / 35000) * 1.15], and it lies in [2, 7]; the
    double-precision run lies in [2, 7] as well. *)
Theorem computeBoardSize_deterministic_range (W H : Z) :
  0 < W -> 0 < H ->
  (forall W' H', W' = W -> H' = H ->
     Grid.computeBoardSize W' H' = Grid.computeBoardSize W H)
  /\ Grid.computeBoardSize W H
     = Grid.clamp
         (Grid.or_else (Grid.Math_round (Grid.boosted (W * H)))
            Grid.MIN_BOARD_SIZE)
         Grid.MIN_BOARD_SIZE Grid.MAX_BOARD_SIZE
  /\ 2 <= Grid.computeBoardSize W H <= 7
  /\ 2 <= Double.computeBoardSize W H <= 7.
Proof.
  intros HW HH. split; [by intros W' H' -> ->|]. split; [|split].
  - apply computeBoardSize_real. lia.
  - apply clamp_range.
  - apply clamp_range.
Qed.

Lemma computeBoardSize_deterministic_range_witness :
  (0 < 640 /\ 0 < 480)
  /\ Grid.computeBoardSize 640 480 = 3
  /\ 2 <= Grid.computeBoardSize 640 480 <= 7.
Proof.
  split; [lia|]. split; [reflexivity|].
  apply (computeBoardSize_deterministic_range 640 480); lia.
Defined.

Lemma boosted_10000_bounds :
  (614 / 1000 < Grid.boosted 10000 < 616 / 1000)%R.
Proof.
  pose proof (boosted_nonneg 10000) as H0.
  pose proof (boosted_square 10000 ltac:(lia)) as H2.
  set (b := Grid.boosted 10000) in *.
  split.
  - destruct (Rlt_le_dec (614 / 1000) b) as [|Hle]; [done|]. exfalso.
    assert (0 <= (614 / 1000 - b) * (614 / 1000 + b))%R
      by (apply Rmult_le_pos; lra).
    nra.
  - destruct (Rlt_le_dec b (616 / 1000)) as [|Hle]; [done|]. exfalso.
    assert (0 <= (b - 616 / 1000) * (b + 616 / 1000))%R
      by (apply Rmult_le_pos; lra).
    nra.
Qed.

Lemma clamp_below v : v < 2 -> Grid.clamp (Grid.or_else v 2) 2 7 = 2.
Proof.
  intros Hv. unfold Grid.clamp, Grid.or_else.
  destruct (Z.eqb_spec v 0); lia.
Qed.

Lemma clamp_above v : 7 <= v -> Grid.clamp (Grid.or_else v 2) 2 7 = 7.
Proof.
  intros Hv. unfold Grid.clamp, Grid.or_else.
  destruct (Z.eqb_spec v 0); lia.
Qed.

(** C9: the grid side clamps at both ends.  When the boosted side rounds to
    a value below 2 the result is 2; when the boosted side exceeds 7 the
    result is 7; and for W = H = 100 the boosted side is about 0.615, rounds
    to 1, and the result is 2.  The double-precision run clamps the same
    way, and gives 1 and 2 for W = H = 100. *)
Theorem computeBoardSize_clamps (W H : Z) :
  0 < W -> 0 < H ->
  (Grid.Math_round (Grid.boosted (W * H)) < 2 -> Grid.computeBoardSize W H = 2)
  /\ ((7 < Grid.boosted (W * H))%R -> Grid.computeBoardSize W H = 7)
  /\ ((614 / 1000 < Grid.boosted (100 * 100) < 616 / 1000)%R
      /\ Grid.Math_round (Grid.boosted (100 * 100)) = 1
      /\ Grid.computeBoardSize 100 100 = 2)
  /\ (Double.approximatePiecesPerSide (W * H) < 2 ->
      Double.computeBoardSize W H = 2)
  /\ (7 <= Double.approximatePiecesPerSide (W * H) ->
      Double.computeBoardSize W H = 7)
  /\ (Double.approximatePiecesPerSide (100 * 100) = 1
      /\ Double.computeBoardSize 100 100 = 2).
Proof.
  intros HW HH.
  assert (HA : 0 <= W * H) by lia.
  rewrite computeBoardSize_real by done.
  split; [|split; [|split; [|split; [|split]]]].
  - apply clamp_below.
  - intros Hgt. apply clamp_above.
    unfold Grid.Math_round. apply Zfloor_lub. lra.
  - split; [exact boosted_10000_bounds|]. split; [|reflexivity].
    rewrite <- approximatePiecesPerSide_round by lia. reflexivity.
  - apply clamp_below.
  - apply clamp_above.
  - by vm_compute.
Qed.

Lemma boosted_4000000_above : (7 < Grid.boosted (2000 * 2000))%R.
Proof.
  pose proof (boosted_nonneg (2000 * 2000)) as H0.
  pose proof (boosted_square (2000 * 2000) ltac:(lia)) as H2.
  set (b := Grid.boosted (2000 * 2000)) in *.
  destruct (Rlt_le_dec 7 b) as [|Hle]; [done|]. exfalso.
  assert (0 <= (7 - b) * (7 + b))%R by (apply Rmult_le_pos; lra).
  replace (IZR (2000 * 2000)) with 4000000%R in H2
    by (rewrite mult_IZR; lra).
  nra.
Qed.

Lemma computeBoardSize_clamps_witness :
  (0 < 2000 /\ 0 < 2000)
  /\ (7 < Grid.boosted (2000 * 2000))%R
  /\ Grid.computeBoardSize 2000 2000 = 7.
Proof.
  split; [lia|]. split; [exact boosted_4000000_above|].
  assert (HW : 0 < 2000) by lia.
  destruct (computeBoardSize_clamps 2000 2000 HW HW) as (_ & Habove & _).
  exact (Habove boosted_4000000_above).
Defined.

(* ===================================================================== *)
(** * Slices, slots and pieces line up *)
(* ===================================================================== *)

Section Slicing.
Import Dom Puzzle.
Local Open Scope nat_scope.

Lemma bind_singleton_fmap {A B} (f : A → B) (l : list A) :
  (l ≫= λ x, [f x]) = f <$> l.
Proof. induction l as [|x l IH]; [done|]. by rewrite bind_cons, IH. Qed.

(** A nested loop whose inner loop always pushes [n] items fills the array
    row by row. *)
Lemma length_bind_rows {B} (g : nat → list B) n a m :
  (∀ r, length (g r) = n) → length (seq a m ≫= g) = m * n.
Proof.
  intros Hg. revert a. induction m as [|m IH]; intros a; [done|].
  simpl seq. rewrite bind_cons, length_app, Hg, IH. lia.
Qed.

Lemma lookup_bind_rows {B} (g : nat → list B) n a m i j :
  (∀ r, length (g r) = n) → i < m → j < n →
  (seq a m ≫= g) !! (i * n + j) = g (a + i) !! j.
Proof.
  intros Hg. revert a i. induction m as [|m IH]; intros a i Hi Hj; [lia|].
  simpl seq. rewrite bind_cons. destruct i as [|i].
  - rewrite lookup_app_l by (rewrite Hg; lia). by rewrite Nat.add_0_r.
  - rewrite lookup_app_r by (rewrite Hg; lia). rewrite Hg.
    replace (S i * n + j - n) with (i * n + j) by lia.
    rewrite IH by lia. f_equal. f_equal. lia.
Qed.

Lemma sliceScene_rows N ps :
  sliceScene N ps
  = seq 0 N ≫= λ row,
      (λ col, Texture (inject_Z (Z.of_nat col) * ps)
                      (inject_Z (Z.of_nat row) * ps) ps ps) <$> seq 0 N.
Proof.
  unfold sliceScene. apply list_bind_ext; [|done].
  intros row. apply bind_singleton_fmap.
Qed.

Lemma length_sliceScene N ps : length (sliceScene N ps) = N * N.
Proof.
  rewrite sliceScene_rows.
  apply length_bind_rows. intros r. by rewrite length_fmap, length_seq.
Qed.

Lemma lookup_sliceScene N ps row col :
  row < N → col < N →
  sliceScene N ps !! (row * N + col)
  = Some (Texture (inject_Z (Z.of_nat col) * ps)
                  (inject_Z (Z.of_nat row) * ps) ps ps).
Proof.
  intros Hr Hc. rewrite sliceScene_rows.
  rewrite (lookup_bind_rows _ N) by
    (done || (intros r; by rewrite length_fmap, length_seq)).
  rewrite list_lookup_fmap, lookup_seq_lt by done. done.
Qed.

Lemma length_rebuildBoard N : length (rebuildBoard N) = N * N.
Proof. unfold rebuildBoard. by rewrite length_fmap, length_seq. Qed.

Lemma lookup_rebuildBoard N k :
  k < N * N → rebuildBoard N !! k = Some (Slot (pretty (k + 1)) [] false false).
Proof.
  intros Hk. unfold rebuildBoard.
  by rewrite list_lookup_fmap, lookup_seq_lt.
Qed.

Lemma length_pieces_assemble N st : length (pieces (assemble N st)) = N * N.
Proof.
  unfold assemble, hydratePieces, rebuildTray; simpl.
  by rewrite length_imap, length_fmap, length_seq.
Qed.

Lemma lookup_pieces_assemble N st k :
  k < N * N →
  pieces (assemble N st) !! k
  = Some (Piece (pretty (k + 1)) (Some (pretty (k + 1))) None
            (sliceScene N (pieceSize (assemble N st)) !! k)).
Proof.
  intros Hk. unfold assemble, hydratePieces, rebuildTray; simpl.
  rewrite list_lookup_imap, list_lookup_fmap, lookup_seq_lt by done.
  done.
Qed.

(** C4: slicing yields N * N textures, the board N * N slots and the tray
    N * N pieces; the k-th piece carries the k-th texture and its
    [correctSlot] is the [slotId] of the k-th slot (both are k); and the
    textures come in row-major order: index [row * N + col] is the slice at
    column [col] of row [row]. *)
Theorem slice_cell_correspondence (N : nat) (st : option string) :
  let s := assemble N st in
  let textures := sliceScene N (pieceSize s) in
  length textures = N * N
  ∧ length (slots s) = N * N
  ∧ length (pieces s) = N * N
  ∧ (∀ k, 1 ≤ k ≤ N * N →
       ∃ p sl t,
         pieces s !! (k - 1) = Some p
         ∧ slots s !! (k - 1) = Some sl
         ∧ textures !! (k - 1) = Some t
         ∧ backgroundImage p = Some t
         ∧ correctSlot p = Some (slotId sl)
         ∧ slotId sl = pretty k)
  ∧ (∀ row col, row < N → col < N →
       textures !! (row * N + col)
       = Some (Texture (inject_Z (Z.of_nat col) * pieceSize s)
                       (inject_Z (Z.of_nat row) * pieceSize s)
                       (pieceSize s) (pieceSize s))).
Proof.
  intros s textures.
  split; [apply length_sliceScene|].
  split; [apply length_rebuildBoard|].
  split; [apply length_pieces_assemble|].
  split.
  - intros k Hk.
    destruct (lookup_lt_is_Some_2 textures (k - 1)) as [t Ht].
    { unfold textures. rewrite length_sliceScene. lia. }
    eexists _, _, t. 
    split; [apply lookup_pieces_assemble; lia|].
    split; [apply lookup_rebuildBoard; lia|].
    split; [done|]. simpl. split; [done|].
    replace (k - 1 + 1) with k by lia. done.
  - intros row col Hr Hc. by apply lookup_sliceScene.
Qed.

End Slicing.

(* ===================================================================== *)
(** * The DOM tree: one parent per node *)
(* ===================================================================== *)

Section Tree.
Import Dom Puzzle Model.
Local Open Scope nat_scope.

Lemma slot_eta sl : Slot (slotId sl) (children sl) (filled sl) (drag_over sl) = sl.
Proof. by destruct sl. Qed.

Lemma state_eta s :
  PuzzleState (tray s) (slots s) (pieces s) (boardSize s) (pieceSize s)
    (statusNode s) = s.
Proof. by destruct s. Qed.

Lemma elem_of_remove_node j i l : j ∈ remove_node i l ↔ j ≠ i ∧ j ∈ l.
Proof. unfold remove_node. by rewrite list_elem_of_filter. Qed.

Lemma remove_node_notin i l : i ∉ l → remove_node i l = l.
Proof.
  unfold remove_node. induction l as [|x l IH]; intros Hi; [done|].
  rewrite not_elem_of_cons in Hi. destruct Hi as [Hx Hl].
  rewrite filter_cons_True by done. by rewrite IH.
Qed.

Lemma remove_node_perm i l : NoDup l → i ∈ l → remove_node i l ++ [i] ≡ₚ l.
Proof.
  unfold remove_node. induction l as [|x l IH]; intros Hnd Hi.
  - by apply elem_of_nil in Hi.
  - apply NoDup_cons in Hnd as [Hx Hnd].
    destruct (decide (x = i)) as [->|Hne].
    + rewrite filter_cons_False by naive_solver.
      change (filter (λ j, j ≠ i) l) with (remove_node i l).
      rewrite remove_node_notin by done.
      by rewrite Permutation_app_comm.
    + rewrite filter_cons_True by done. simpl. f_equiv.
      apply IH; [done|]. apply elem_of_cons in Hi as [->|]; done.
Qed.

Lemma remove_node_bind {A} i (f : A → list nat) (l : list A) :
  remove_node i (l ≫= f) = l ≫= (λ x, remove_node i (f x)).
Proof.
  unfold remove_node. induction l as [|x l IH]; [done|].
  by rewrite !bind_cons, filter_app, IH.
Qed.

Lemma remove_node_idemp i l : remove_node i (remove_node i l) = remove_node i l.
Proof.
  apply remove_node_notin. rewrite elem_of_remove_node. by intros [? _].
Qed.

(** In a list of child lists without repetition, a node sits in one list. *)
Lemma bind_NoDup_unique {A} (f : A → list nat) (l : list A) a b x y i :
  NoDup (l ≫= f) → l !! a = Some x → l !! b = Some y →
  i ∈ f x → i ∈ f y → a = b.
Proof.
  revert a b. induction l as [|z l IH]; intros a b Hnd Ha Hb Hx Hy; [done|].
  rewrite bind_cons in Hnd. apply NoDup_app in Hnd as (Hz & Hdis & Hl).
  destruct a as [|a], b as [|b]; simplify_eq/=; [done| | |].
  - exfalso. apply (Hdis i Hx). apply list_elem_of_bind.
    exists y. split; [done|]. by eapply list_elem_of_lookup_2.
  - exfalso. apply (Hdis i Hy). apply list_elem_of_bind.
    exists x. split; [done|]. by eapply list_elem_of_lookup_2.
  - f_equal. by apply IH.
Qed.

Lemma tree_slot_unique s a b sa sb i :
  NoDup (nodes s) → slots s !! a = Some sa → slots s !! b = Some sb →
  i ∈ children sa → i ∈ children sb → a = b.
Proof.
  unfold nodes. intros (_ & _ & Hnd)%NoDup_app.
  by apply bind_NoDup_unique.
Qed.

Lemma tree_tray_slot s k sl i :
  NoDup (nodes s) → i ∈ tray s → slots s !! k = Some sl → i ∉ children sl.
Proof.
  unfold nodes. intros (_ & Hdis & _)%NoDup_app Hi Hk Hc.
  apply (Hdis i Hi). apply list_elem_of_bind. exists sl.
  split; [done|]. by eapply list_elem_of_lookup_2.
Qed.

Lemma elem_of_nodes s i :
  i ∈ nodes s ↔ i ∈ tray s ∨ ∃ k sl, slots s !! k = Some sl ∧ i ∈ children sl.
Proof.
  unfold nodes. rewrite elem_of_app, list_elem_of_bind. split.
  - intros [?|(sl & Hi & [k Hk]%list_elem_of_lookup)]; [by left|].
    right. by exists k, sl.
  - intros [?|(k & sl & Hk & Hi)]; [by left|]. right. exists sl.
    split; [done|]. by eapply list_elem_of_lookup_2.
Qed.

(** ** [parentElement] *)

Lemma parentElement_InSlot s i k :
  parentElement s i = Some (InSlot k) →
  ∃ sl, slots s !! k = Some sl ∧ i ∈ children sl.
Proof.
  unfold parentElement.
  destruct (list_find _ _) as [[k' sl]|] eqn:Hf.
  - intros [= ->]. apply list_find_Some in Hf as (Hk & Hi & _). by exists sl.
  - by case_decide.
Qed.

Lemma parentElement_InTray s i :
  parentElement s i = Some InTray →
  i ∈ tray s ∧ Forall (λ sl, i ∉ children sl) (slots s).
Proof.
  unfold parentElement.
  destruct (list_find _ _) as [[k' sl]|] eqn:Hf; [done|].
  apply list_find_None in Hf. by case_decide.
Qed.

Lemma parentElement_None s i :
  parentElement s i = None →
  (i ∉ tray s) ∧ Forall (λ sl, i ∉ children sl) (slots s).
Proof.
  unfold parentElement.
  destruct (list_find _ _) as [[k' sl]|] eqn:Hf; [done|].
  apply list_find_None in Hf. by case_decide.
Qed.



(** [parentElement] reads the child lists only. *)
Lemma parentElement_ext s s' i :
  tray s' = tray s → children <$> slots s' = children <$> slots s →
  parentElement s' i = parentElement s i.
Proof.
  intros Ht Hc. unfold parentElement. rewrite Ht.
  assert (Hfind : ∀ l l' : list slot, children <$> l' = children <$> l →
    fst <$> list_find (λ sl, i ∈ children sl) l'
    = fst <$> list_find (λ sl, i ∈ children sl) l).
  { clear. intros l. induction l as [|x l IH]; intros [|x' l'] Heq;
      simplify_eq/=; [done|].
    case_decide as H1; case_decide as H2; try done; try congruence.
    specialize (IH l' ltac:(done)).
    destruct (list_find _ l') as [[??]|], (list_find _ l) as [[??]|];
      simplify_eq/=; done. }
  specialize (Hfind (slots s) (slots s') Hc).
  destruct (list_find _ (slots s')) as [[??]|],
    (list_find _ (slots s)) as [[??]|]; simplify_eq/=; done.
Qed.

End Tree.

(* ===================================================================== *)
(** * The moves, in a tree *)
(* ===================================================================== *)

Section Moves.
Import Dom Puzzle Model.
Local Open Scope nat_scope.

Lemma alter_fmap_others {A} (f : A → A) (l : list A) k :
  (∀ j x, j ≠ k → l !! j = Some x → f x = x) → alter f k l = f <$> l.
Proof.
  intros Hf. apply list_eq. intros j.
  rewrite list_lookup_fmap. destruct (decide (k = j)) as [->|Hne].
  - by rewrite list_lookup_alter_eq.
  - rewrite list_lookup_alter_ne by done.
    destruct (l !! j) as [x|] eqn:Hj; [|done]. simpl.
    by rewrite (Hf j x).
Qed.

Lemma fmap_fixed {A} (f : A → A) (l : list A) :
  Forall (λ x, f x = x) l → f <$> l = l.
Proof.
  intros Hf. rewrite <- (list_fmap_id l) at 2.
  apply list_fmap_ext. intros j x Hj. rewrite Forall_lookup in Hf. by eapply Hf.
Qed.

Lemma strip_slot_notin i sl : i ∉ children sl → strip_slot i sl = sl.
Proof.
  intros Hi. unfold strip_slot, set_children.
  rewrite remove_node_notin by done. apply slot_eta.
Qed.

(** Where every node has one parent, [detach] is [strip]. *)
Lemma detach_strip s i : NoDup (nodes s) → detach i s = strip i s.
Proof.
  intros Hnd. unfold detach, strip.
  destruct (parentElement s i) as [[|k]|] eqn:Hp.
  - apply parentElement_InTray in Hp as [Hi Hall].
    unfold set_tray. f_equal. symmetry. apply fmap_fixed.
    eapply Forall_impl; [exact Hall|]. intros sl. apply strip_slot_notin.
  - apply parentElement_InSlot in Hp as (sl & Hk & Hi).
    unfold update_slot, set_slots. f_equal.
    + symmetry. apply remove_node_notin. intros Ht.
      by destruct (tree_tray_slot s k sl i).
    + apply alter_fmap_others. intros j x Hne Hj.
      apply strip_slot_notin. intros Hx.
      by destruct Hne, (tree_slot_unique s j k x sl i).
  - apply parentElement_None in Hp as [Hi Hall].
    rewrite remove_node_notin by done.
    rewrite fmap_fixed; [by destruct s|].
    eapply Forall_impl; [exact Hall|]. intros sl. apply strip_slot_notin.
Qed.

(** Updating the parent slot of a node, where every node has one parent,
    is updating every slot that holds it. *)
Lemma parent_slot_update s i (g : slot → slot) :
  NoDup (nodes s) →
  match parentElement s i with
  | Some (InSlot k) => update_slot k g s
  | _ => s
  end
  = set_slots ((λ sl, if decide (i ∈ children sl) then g sl else sl) <$> slots s) s.
Proof.
  intros Hnd. unfold update_slot, set_slots.
  destruct (parentElement s i) as [[|k]|] eqn:Hp.
  - apply parentElement_InTray in Hp as [Hi Hall].
    rewrite fmap_fixed; [by destruct s|].
    eapply Forall_impl; [exact Hall|]. intros sl Hsl. by rewrite decide_False.
  - apply parentElement_InSlot in Hp as (sl & Hk & Hi). f_equal.
    apply list_eq. intros j. rewrite list_lookup_fmap.
    destruct (decide (k = j)) as [->|Hne].
    + rewrite list_lookup_alter_eq, Hk. simpl. by rewrite decide_True.
    + rewrite list_lookup_alter_ne by done.
      destruct (slots s !! j) as [x|] eqn:Hj; [|done]. simpl.
      rewrite decide_False; [done|]. intros Hx.
      by destruct Hne, (tree_slot_unique s k j sl x i).
  - apply parentElement_None in Hp as [Hi Hall].
    rewrite fmap_fixed; [by destruct s|].
    eapply Forall_impl; [exact Hall|]. intros sl Hsl. by rewrite decide_False.
Qed.

Lemma nodes_children_ext s s' :
  tray s' = tray s → children <$> slots s' = children <$> slots s →
  nodes s' = nodes s.
Proof.
  intros Ht Hc. unfold nodes. rewrite Ht. f_equal.
  revert Hc. generalize (slots s') as l'. generalize (slots s) as l.
  induction l as [|x l IH]; intros [|x' l'] Heq; try done.
  rewrite !fmap_cons in Heq. injection Heq as H1 H2.
  rewrite !bind_cons, H1. f_equal. by apply IH.
Qed.

Lemma movePieceToTray_tree s i :
  NoDup (nodes s) → movePieceToTray i s = moved_to_tray i s.
Proof.
  intros Hnd. unfold movePieceToTray.
  rewrite (parent_slot_update s i) by done.
  set (g := λ sl, if decide (i ∈ children sl)
                  then set_drag_over false (set_filled false sl) else sl).
  assert (Hc : children <$> (g <$> slots s) = children <$> slots s).
  { rewrite <- list_fmap_compose. apply list_fmap_ext. intros j sl _.
    unfold g. simpl. by case_decide. }
  unfold appendChild. rewrite detach_strip.
  2:{ rewrite (nodes_children_ext s); done. }
  unfold moved_to_tray, strip, update_piece, set_pieces, set_tray, set_slots.
  simpl. f_equal.
  rewrite <- list_fmap_compose. apply list_fmap_ext. intros j sl _.
  unfold g, evict_slot, strip_slot, set_children. simpl.
  case_decide as Hi; simpl; [done|].
  rewrite remove_node_notin by done. apply slot_eta.
Qed.

Lemma placePieceInSlot_tree s i k :
  NoDup (nodes s) → placePieceInSlot i k s = placed_in_slot i k s.
Proof.
  intros Hnd. unfold placePieceInSlot.
  rewrite (parent_slot_update s i) by done.
  set (g := λ sl, if decide (i ∈ children sl) then set_filled false sl else sl).
  assert (Hc : children <$> (g <$> slots s) = children <$> slots s).
  { rewrite <- list_fmap_compose. apply list_fmap_ext. intros j sl _.
    unfold g. simpl. by case_decide. }
  unfold appendChild. rewrite detach_strip.
  2:{ rewrite (nodes_children_ext s); done. }
  unfold placed_in_slot, strip, update_piece, update_slot, set_pieces,
    set_tray, set_slots.
  simpl.
  assert (Hs : strip_slot i <$> (g <$> slots s) = vacate_slot i <$> slots s).
  { rewrite <- list_fmap_compose. apply list_fmap_ext. intros j sl _.
    unfold g, vacate_slot, strip_slot, set_children, set_filled. simpl.
    case_decide as Hi; simpl; [done|].
    rewrite remove_node_notin by done. apply slot_eta. }
  rewrite Hs. f_equal.
  - rewrite list_alter_alter_eq. apply list_alter_ext; [|done].
    intros sl _. done.
  - f_equal. f_equal.
    rewrite list_alter_alter_eq, list_lookup_alter_eq, list_lookup_fmap.
    destruct (slots s !! k) as [sl|]; [|done]. simpl.
    unfold vacate_slot. by case_decide.
Qed.

End Moves.

(* ===================================================================== *)
(** * Well-formed states *)
(* ===================================================================== *)

Section Invariant.
Import Dom Puzzle Model.
Local Open Scope nat_scope.

Lemma seq_Permutation (l : list nat) n :
  NoDup l → Forall (λ i, i < n) l → length l = n → l ≡ₚ seq 0 n.
Proof.
  intros Hnd Hlt Hlen. apply submseteq_length_Permutation.
  - apply NoDup_submseteq; [done|]. intros x Hx.
    rewrite Forall_forall in Hlt. apply elem_of_seq. specialize (Hlt x Hx). lia.
  - rewrite length_seq. lia.
Qed.

Lemma wf_nodes s : wf s → nodes s ≡ₚ seq 0 (length (pieces s)).
Proof. intros (_ & Hnd & Hlt & Hlen & _). by apply seq_Permutation. Qed.

Lemma wf_tree s : wf s → NoDup (nodes s).
Proof. by intros (_ & Hnd & _). Qed.

Lemma wf_single s : wf s → Forall (λ sl, length (children sl) ≤ 1) (slots s).
Proof. by intros (_ & _ & _ & _ & Hs). Qed.

Lemma wf_elem_of_nodes s i : wf s → i ∈ nodes s ↔ i < length (pieces s).
Proof.
  intros Hwf. rewrite (wf_nodes s Hwf), elem_of_seq. lia.
Qed.

(** The invariant is carried by anything that keeps the nodes, the piece
    ids and the one-child bound. *)
Lemma wf_transfer s s' :
  wf s → nodes s' ≡ₚ nodes s →
  pieceId <$> pieces s' = pieceId <$> pieces s →
  Forall (λ sl, length (children sl) ≤ 1) (slots s') →
  wf s'.
Proof.
  intros (Hid & Hnd & Hlt & Hlen & _) Hp Hids Hs.
  assert (Hl : length (pieces s') = length (pieces s)).
  { by rewrite <- (length_fmap pieceId (pieces s')), Hids, length_fmap. }
  unfold wf. rewrite Hl, Hids, Hp. done.
Qed.

Lemma fmap_alter_same {A B} (f : A → B) (g : A → A) i (l : list A) :
  (∀ x, f (g x) = f x) → f <$> alter g i l = f <$> l.
Proof.
  intros Hfg. revert i.
  induction l as [|x l IH]; intros [|i]; csimpl; [done..| |].
  - by rewrite Hfg.
  - by rewrite IH.
Qed.

Lemma pieceId_alter_placedSlot v i (l : list piece) :
  pieceId <$> alter (set_placedSlot v) i l = pieceId <$> l.
Proof. by apply fmap_alter_same. Qed.

Lemma correctSlot_alter_placedSlot v i (l : list piece) :
  correctSlot <$> alter (set_placedSlot v) i l = correctSlot <$> l.
Proof. by apply fmap_alter_same. Qed.

(** ** Finding a piece by its id *)

Lemma wf_pieceId s i p :
  wf s → pieces s !! i = Some p → pieceId p = pretty (i + 1).
Proof.
  intros (Hid & _) Hi.
  assert (H : (pieceId <$> pieces s) !! i = Some (pieceId p))
    by (by rewrite list_lookup_fmap, Hi).
  rewrite Hid, list_lookup_fmap in H.
  rewrite lookup_seq_lt in H by (by eapply lookup_lt_Some). by simplify_eq/=.
Qed.

Lemma find_piece_Some s id i :
  find_piece s id = Some i →
  ∃ p, pieces s !! i = Some p ∧ pieceId p = id.
Proof.
  unfold find_piece. destruct (list_find _ _) as [[j p]|] eqn:Hf; [|done].
  intros [= <-]. apply list_find_Some in Hf as (Hj & Hp & _). by exists p.
Qed.

Lemma find_piece_wf s i p :
  wf s → pieces s !! i = Some p → find_piece s (pieceId p) = Some i.
Proof.
  intros Hwf Hi. unfold find_piece.
  destruct (list_find _ _) as [[j q]|] eqn:Hf.
  - apply list_find_Some in Hf as (Hj & Hq & _). simpl. f_equal.
    rewrite (wf_pieceId s j q), (wf_pieceId s i p) in Hq by done.
    apply (inj pretty) in Hq. lia.
  - apply list_find_None in Hf. rewrite Forall_lookup in Hf.
    by destruct (Hf i p Hi).
Qed.

(** ** Node lists after a move *)

Lemma children_evict_slot i sl :
  children (evict_slot i sl) = remove_node i (children sl).
Proof.
  unfold evict_slot. case_decide; [done|]. by rewrite remove_node_notin.
Qed.

Lemma children_vacate_slot i sl :
  children (vacate_slot i sl) = remove_node i (children sl).
Proof.
  unfold vacate_slot. case_decide; [done|]. by rewrite remove_node_notin.
Qed.

Lemma bind_children_fmap (f : slot → slot) i (l : list slot) :
  (∀ sl, children (f sl) = remove_node i (children sl)) →
  (f <$> l) ≫= children = remove_node i (l ≫= children).
Proof.
  intros Hf. rewrite remove_node_bind. induction l as [|x l IH]; [done|].
  rewrite fmap_cons, !bind_cons, IH. by rewrite Hf.
Qed.

Lemma nodes_moved_to_tray s i :
  NoDup (nodes s) → i ∈ nodes s → nodes (moved_to_tray i s) ≡ₚ nodes s.
Proof.
  intros Hnd Hi. unfold nodes at 1. simpl.
  rewrite (bind_children_fmap _ i) by apply children_evict_slot.
  rewrite <- (remove_node_perm i (nodes s)) by done.
  unfold nodes, remove_node. rewrite filter_app.
  rewrite <- !(assoc_L (++)). f_equiv. apply Permutation_app_comm.
Qed.

Lemma bind_alter_receive i k (l : list slot) :
  k < length l →
  alter (receive i) k l ≫= children ≡ₚ (l ≫= children) ++ [i].
Proof.
  revert k. induction l as [|x l IH]; intros k Hk; simpl in Hk; [lia|].
  destruct k as [|k]; csimpl.
  - rewrite <- !(assoc_L (++)). f_equiv. apply Permutation_app_comm.
  - rewrite IH by lia. by rewrite (assoc_L (++)).
Qed.

Lemma nodes_placed_in_slot s i k :
  NoDup (nodes s) → i ∈ nodes s → k < length (slots s) →
  nodes (placed_in_slot i k s) ≡ₚ nodes s.
Proof.
  intros Hnd Hi Hk. unfold nodes at 1. simpl.
  rewrite bind_alter_receive by (by rewrite length_fmap).
  rewrite (bind_children_fmap _ i) by apply children_vacate_slot.
  rewrite <- (remove_node_perm i (nodes s)) by done.
  unfold nodes, remove_node. by rewrite filter_app, (assoc_L (++)).
Qed.

Lemma length_remove_node i l : length (remove_node i l) ≤ length l.
Proof. apply length_filter. Qed.

Lemma single_moved_to_tray s i :
  Forall (λ sl, length (children sl) ≤ 1) (slots s) →
  Forall (λ sl, length (children sl) ≤ 1) (slots (moved_to_tray i s)).
Proof.
  intros Hs. simpl. apply Forall_fmap.
  eapply Forall_impl; [exact Hs|]. intros sl Hsl. simpl in *.
  rewrite children_evict_slot. pose proof (length_remove_node i (children sl)).
  lia.
Qed.

Lemma single_placed_in_slot s i k :
  Forall (λ sl, length (children sl) ≤ 1) (slots s) →
  (∀ sl, slots s !! k = Some sl → remove_node i (children sl) = []) →
  Forall (λ sl, length (children sl) ≤ 1) (slots (placed_in_slot i k s)).
Proof.
  intros Hs Hk. simpl. apply Forall_lookup. intros j sl Hj.
  destruct (decide (k = j)) as [->|Hne].
  - rewrite list_lookup_alter_eq, list_lookup_fmap in Hj.
    destruct (slots s !! j) as [x|] eqn:Hx; simplify_eq/=.
    rewrite children_vacate_slot, (Hk x), length_app by done. simpl. lia.
  - rewrite list_lookup_alter_ne, list_lookup_fmap in Hj by done.
    destruct (slots s !! j) as [x|] eqn:Hx; simplify_eq/=.
    rewrite children_vacate_slot.
    rewrite Forall_lookup in Hs. specialize (Hs j x Hx). simpl in Hs.
    pose proof (length_remove_node i (children x)). lia.
Qed.

Lemma movePieceToTray_wf s i :
  wf s → i < length (pieces s) → wf (movePieceToTray i s).
Proof.
  intros Hwf Hi. rewrite movePieceToTray_tree by by apply wf_tree.
  apply (wf_transfer s); [done| | |].
  - apply nodes_moved_to_tray; [by apply wf_tree|]. by apply wf_elem_of_nodes.
  - apply pieceId_alter_placedSlot.
  - by apply single_moved_to_tray, wf_single.
Qed.

Lemma placePieceInSlot_wf s i k :
  wf s → i < length (pieces s) → k < length (slots s) →
  (∀ sl, slots s !! k = Some sl → remove_node i (children sl) = []) →
  wf (placePieceInSlot i k s).
Proof.
  intros Hwf Hi Hk Hempty. rewrite placePieceInSlot_tree by by apply wf_tree.
  apply (wf_transfer s); [done| | |].
  - apply nodes_placed_in_slot; [by apply wf_tree| |done].
    by apply wf_elem_of_nodes.
  - apply pieceId_alter_placedSlot.
  - apply single_placed_in_slot; [by apply wf_single|done].
Qed.

End Invariant.

(* ===================================================================== *)
(** * The handlers keep states well formed *)
(* ===================================================================== *)

Section Handlers.
Import Dom Puzzle Model.
Local Open Scope nat_scope.

Lemma setStatus_board m s :
  tray (setStatus m s) = tray s ∧ slots (setStatus m s) = slots s
  ∧ pieces (setStatus m s) = pieces s.
Proof. unfold setStatus. by destruct (statusNode s). Qed.

Lemma checkCompletion_board s :
  tray (checkCompletion s) = tray s ∧ slots (checkCompletion s) = slots s
  ∧ pieces (checkCompletion s) = pieces s.
Proof.
  unfold checkCompletion.
  destruct (allCorrect s && allFilled s); [apply setStatus_board|].
  destruct (allFilled s); [apply setStatus_board|done].
Qed.

(** Writing the status line or toggling [drag-over] moves no node. *)
Lemma wf_board s s' :
  tray s' = tray s → children <$> slots s' = children <$> slots s →
  pieces s' = pieces s → wf s → wf s'.
Proof.
  intros Ht Hc Hp Hwf. apply (wf_transfer s); [done| | |].
  - by rewrite (nodes_children_ext s s').
  - by rewrite Hp.
  - apply wf_single in Hwf.
    assert (H : Forall (λ c : list nat, length c ≤ 1) (children <$> slots s'))
      by (rewrite Hc; by apply Forall_fmap).
    by apply Forall_fmap in H.
Qed.

Lemma setStatus_wf m s : wf s → wf (setStatus m s).
Proof.
  destruct (setStatus_board m s) as (Ht & Hs & Hp).
  apply wf_board; [done| |done]. by rewrite Hs.
Qed.

Lemma checkCompletion_wf s : wf s → wf (checkCompletion s).
Proof.
  destruct (checkCompletion_board s) as (Ht & Hs & Hp).
  apply wf_board; [done| |done]. by rewrite Hs.
Qed.

Lemma children_alter_flags (g : slot → slot) k (l : list slot) :
  (∀ sl, children (g sl) = children sl) →
  children <$> alter g k l = children <$> l.
Proof. apply fmap_alter_same. Qed.

Lemma update_slot_flags_wf (g : slot → slot) k s :
  (∀ sl, children (g sl) = children sl) → wf s → wf (update_slot k g s).
Proof.
  intros Hg. apply wf_board; [done| |done].
  simpl. by apply children_alter_flags.
Qed.

Lemma single_head_Some (l : list nat) o :
  length l ≤ 1 → head l = Some o → l = [o].
Proof. destruct l as [|x [|y l]]; simpl; intros; simplify_eq; [done|lia]. Qed.

Lemma single_head_None (l : list nat) : head l = None → l = [].
Proof. by destruct l. Qed.

Lemma remove_node_singleton i : remove_node i [i] = [].
Proof. unfold remove_node. by rewrite filter_cons_False by naive_solver. Qed.

Lemma wf_slot_single s k sl :
  wf s → slots s !! k = Some sl → length (children sl) ≤ 1.
Proof.
  intros Hs%wf_single Hk. rewrite Forall_lookup in Hs. apply (Hs k sl Hk).
Qed.

Lemma wf_occupant_lt s k sl o :
  wf s → slots s !! k = Some sl → o ∈ children sl → o < length (pieces s).
Proof.
  intros Hwf Hk Ho. apply (wf_elem_of_nodes s o Hwf).
  apply elem_of_nodes. right. by exists k, sl.
Qed.

Lemma after_eviction_wf s k slot i :
  wf s → slots s !! k = Some slot → wf (after_eviction i slot s).
Proof.
  intros Hwf Hk. unfold after_eviction, querySelector_piece.
  destruct (head (children slot)) as [o|] eqn:Ho; [|done].
  case_decide; [|done].
  rewrite <- movePieceToTray_tree by by apply wf_tree.
  apply movePieceToTray_wf; [done|].
  apply (wf_occupant_lt s k slot); [done..|].
  rewrite (single_head_Some _ o); [constructor| |done].
  by eapply wf_slot_single.
Qed.

Lemma after_eviction_target s k slot i :
  wf s → slots s !! k = Some slot →
  ∃ sl', slots (after_eviction i slot s) !! k = Some sl'
         ∧ remove_node i (children sl') = []
         ∧ slotId sl' = slotId slot.
Proof.
  intros Hwf Hk. unfold after_eviction, querySelector_piece.
  pose proof (wf_slot_single s k slot Hwf Hk) as Hlen.
  destruct (head (children slot)) as [o|] eqn:Ho.
  - apply single_head_Some in Ho; [|done].
    case_decide as Hne.
    + exists (evict_slot o slot). simpl. rewrite list_lookup_fmap, Hk.
      split; [done|]. rewrite children_evict_slot, Ho, remove_node_singleton.
      split; [done|]. unfold evict_slot. by case_decide.
    + exists slot. split; [done|]. subst o.
      by rewrite Ho, remove_node_singleton.
  - apply single_head_None in Ho. exists slot. by rewrite Ho.
Qed.

Lemma handleDropOnSlot_tree s k slot id i :
  wf s → slots s !! k = Some slot → find_piece s id = Some i →
  (handleDropOnSlot k id s).1
  = checkCompletion
      (setStatus MSG_PLACED
         (update_slot k (set_drag_over false)
            (placed_in_slot i k (after_eviction i slot s)))).
Proof.
  intros Hwf Hk Hf. unfold handleDropOnSlot. rewrite Hk, Hf. simpl.
  assert (Hs1 :
    match querySelector_piece slot with
    | Some occupyingPiece =>
        if decide (occupyingPiece ≠ i) then movePieceToTray occupyingPiece s
        else s
    | None => s
    end = after_eviction i slot s).
  { unfold after_eviction. destruct (querySelector_piece slot); [|done].
    case_decide; [|done]. apply movePieceToTray_tree. by apply wf_tree. }
  rewrite Hs1, placePieceInSlot_tree; [done|].
  by apply wf_tree, (after_eviction_wf s k).
Qed.

Lemma length_pieces_after_eviction i slot s :
  length (pieces (after_eviction i slot s)) = length (pieces s).
Proof.
  unfold after_eviction. destruct (querySelector_piece slot); [|done].
  case_decide; [|done]. simpl. apply length_alter.
Qed.

Lemma length_slots_after_eviction i slot s :
  length (slots (after_eviction i slot s)) = length (slots s).
Proof.
  unfold after_eviction. destruct (querySelector_piece slot); [|done].
  case_decide; [|done]. simpl. apply length_fmap.
Qed.

Lemma find_piece_lt s id i : find_piece s id = Some i → i < length (pieces s).
Proof.
  intros (p & Hp & _)%find_piece_Some. by eapply lookup_lt_Some.
Qed.

Lemma placed_after_eviction_wf s k slot i :
  wf s → slots s !! k = Some slot → i < length (pieces s) →
  wf (placed_in_slot i k (after_eviction i slot s)).
Proof.
  intros Hwf Hk Hi.
  pose proof (after_eviction_wf s k slot i Hwf Hk) as Hwf1.
  rewrite <- placePieceInSlot_tree by by apply wf_tree.
  apply placePieceInSlot_wf; [done| | |].
  - by rewrite length_pieces_after_eviction.
  - rewrite length_slots_after_eviction. by eapply lookup_lt_Some.
  - intros sl Hsl.
    destruct (after_eviction_target s k slot i Hwf Hk) as (sl' & Hsl' & He & _).
    by simplify_eq.
Qed.

Lemma handleDropOnSlot_wf s k id : wf s → wf (handleDropOnSlot k id s).1.
Proof.
  intros Hwf.
  destruct (slots s !! k) as [slot|] eqn:Hk;
    [|by unfold handleDropOnSlot; rewrite Hk].
  destruct (find_piece s id) as [i|] eqn:Hf;
    [|by unfold handleDropOnSlot; rewrite Hk, Hf].
  rewrite (handleDropOnSlot_tree s k slot id i) by done.
  apply checkCompletion_wf, setStatus_wf, update_slot_flags_wf; [done|].
  apply placed_after_eviction_wf; [done..|]. by eapply find_piece_lt.
Qed.

Lemma handleDropOnTray_tree s id i :
  wf s → find_piece s id = Some i →
  (handleDropOnTray id s).1
  = checkCompletion (setStatus MSG_RETURNED (moved_to_tray i s)).
Proof.
  intros Hwf Hf. unfold handleDropOnTray. rewrite Hf. simpl.
  rewrite movePieceToTray_tree; [done|]. by apply wf_tree.
Qed.

Lemma handleDropOnTray_wf s id : wf s → wf (handleDropOnTray id s).1.
Proof.
  intros Hwf. unfold handleDropOnTray.
  destruct (find_piece s id) as [i|] eqn:Hf; [|done]. simpl.
  apply checkCompletion_wf, setStatus_wf, movePieceToTray_wf; [done|].
  by eapply find_piece_lt.
Qed.

End Handlers.

(* ===================================================================== *)
(** * Shuffling *)
(* ===================================================================== *)

Section Shuffle.
Import Dom Puzzle Model.
Local Open Scope nat_scope.

(** The index drawn for position [i] lies in [[0, i]]. *)
Lemma floor_random_times_lt draw n : 0 < n → floor_random_times draw n < n.
Proof.
  intros Hn. unfold floor_random_times.
  assert (H : (N.div (N.modulo draw TWO53 * N.of_nat n) TWO53 < N.of_nat n)%N).
  { apply N.Div0.div_lt_upper_bound.
    apply N.mul_lt_mono_pos_r; [lia|]. by apply N.mod_lt. }
  lia.
Qed.

Lemma swap_Permutation a i j : swap a i j ≡ₚ a.
Proof.
  unfold swap. destruct (a !! i) as [x|] eqn:Hi; [|done].
  destruct (a !! j) as [y|] eqn:Hj; [|done].
  by apply Permutation_insert_swap.
Qed.

Lemma fisherYates_Permutation random t i a : fisherYates random t i a ≡ₚ a.
Proof.
  revert t a. induction i as [|i IH]; intros t a; simpl; [done|].
  by rewrite IH, swap_Permutation.
Qed.

(** ** First loop: the slots are emptied *)

Lemma blank_clear sl :
  children sl = [] → blank (set_drag_over false (set_filled false sl)).
Proof. by intros Hc. Qed.

Lemma clearSlot_spec s k :
  wf s → k < length (slots s) →
  wf (clearSlot s k)
  ∧ length (slots (clearSlot s k)) = length (slots s)
  ∧ slotId <$> slots (clearSlot s k) = slotId <$> slots s
  ∧ pieceId <$> pieces (clearSlot s k) = pieceId <$> pieces s
  ∧ correctSlot <$> pieces (clearSlot s k) = correctSlot <$> pieces s
  ∧ (∀ j sl', slots (clearSlot s k) !! j = Some sl' →
       j = k ∨ (∃ sl, slots s !! j = Some sl ∧ blank sl) → blank sl').
Proof.
  intros Hwf Hk. unfold clearSlot.
  destruct (lookup_lt_is_Some_2 _ _ Hk) as [slot Hslot].
  rewrite Hslot. simpl. unfold querySelector_piece.
  pose proof (wf_slot_single s k slot Hwf Hslot) as Hlen.
  destruct (head (children slot)) as [o|] eqn:Ho.
  - apply single_head_Some in Ho; [|done].
    assert (Holt : o < length (pieces s)).
    { apply (wf_occupant_lt s k slot); [done..|]. rewrite Ho. constructor. }
    pose proof (movePieceToTray_wf s o Hwf Holt) as Hwf1.
    rewrite movePieceToTray_tree in * by by apply wf_tree.
    split; [by apply update_slot_flags_wf|].
    simpl. rewrite length_alter, length_fmap. split; [done|].
    split.
    { rewrite (fmap_alter_same slotId) by done.
      rewrite <- list_fmap_compose. apply list_fmap_ext. intros j sl _.
      unfold evict_slot. simpl. by case_decide. }
    split; [apply pieceId_alter_placedSlot|].
    split; [apply correctSlot_alter_placedSlot|].
    intros j sl' Hj Hcase. destruct (decide (k = j)) as [->|Hne].
    + rewrite list_lookup_alter_eq, list_lookup_fmap, Hslot in Hj.
      simplify_eq/=. apply blank_clear.
      by rewrite children_evict_slot, Ho, remove_node_singleton.
    + rewrite list_lookup_alter_ne, list_lookup_fmap in Hj by done.
      destruct Hcase as [->|(sl & Hsl & Hb)]; [done|].
      rewrite Hsl in Hj. simplify_eq/=.
      unfold evict_slot. pose proof Hb as (Hc & _).
      rewrite decide_False; [done|]. rewrite Hc. apply not_elem_of_nil.
  - apply single_head_None in Ho.
    split; [by apply update_slot_flags_wf|].
    simpl. rewrite length_alter. split; [done|].
    split; [by apply fmap_alter_same|].
    split; [done|]. split; [done|].
    intros j sl' Hj Hcase. destruct (decide (k = j)) as [->|Hne].
    + rewrite list_lookup_alter_eq, Hslot in Hj. simplify_eq/=.
      by apply blank_clear.
    + rewrite list_lookup_alter_ne in Hj by done.
      destruct Hcase as [->|(sl & Hsl & Hb)]; [done|]. by simplify_eq.
Qed.

Lemma clearSlots_spec s m :
  wf s → m ≤ length (slots s) →
  let s1 := foldl clearSlot s (seq 0 m) in
  wf s1
  ∧ length (slots s1) = length (slots s)
  ∧ slotId <$> slots s1 = slotId <$> slots s
  ∧ pieceId <$> pieces s1 = pieceId <$> pieces s
  ∧ correctSlot <$> pieces s1 = correctSlot <$> pieces s
  ∧ (∀ j sl, j < m → slots s1 !! j = Some sl → blank sl).
Proof.
  intros Hwf. cbv zeta. induction m as [|m IH]; intros Hm.
  { simpl. do 5 (split; [done|]). intros; lia. }
  rewrite seq_S, foldl_app. simpl foldl.
  destruct (IH ltac:(lia)) as (Hwf1 & Hl1 & Hs1 & Hp1 & Hc1 & Hb1).
  set (s1 := foldl clearSlot s (seq 0 m)) in *.
  destruct (clearSlot_spec s1 m Hwf1 ltac:(lia))
    as (Hwf2 & Hl2 & Hs2 & Hp2 & Hc2 & Hb2).
  split; [done|]. split; [congruence|]. split; [congruence|].
  split; [congruence|]. split; [congruence|].
  intros j sl Hj Hsl. apply (Hb2 j sl Hsl).
  destruct (decide (j = m)) as [->|Hne]; [by left|]. right.
  destruct (lookup_lt_is_Some_2 (slots s1) j) as [sl1 Hsl1]; [lia|].
  exists sl1. split; [done|]. apply (Hb1 j sl1); [lia|done].
Qed.

(** ** Second loop: the pieces are appended to the tray in shuffled order *)

Lemma bind_children_nil (l : list slot) :
  Forall (λ sl, children sl = []) l → l ≫= children = [].
Proof.
  induction 1 as [|x l Hx _ IH]; [done|]. by rewrite bind_cons, Hx, IH.
Qed.

Lemma appendChild_tray_empty_board s i :
  Forall (λ sl, children sl = []) (slots s) → NoDup (tray s) →
  appendChild InTray i s = set_tray (remove_node i (tray s) ++ [i]) s.
Proof.
  intros Hb Hnd. unfold appendChild. rewrite detach_strip.
  2:{ unfold nodes. by rewrite bind_children_nil, app_nil_r. }
  unfold strip, set_tray. simpl. f_equal. apply fmap_fixed.
  eapply Forall_impl; [exact Hb|]. intros sl Hsl. apply strip_slot_notin.
  rewrite Hsl. apply not_elem_of_nil.
Qed.

Lemma NoDup_move_to_end i (t : list nat) :
  NoDup t → NoDup (remove_node i t ++ [i]).
Proof.
  intros Hnd. apply NoDup_app. split; [by apply NoDup_filter|].
  split; [|apply NoDup_singleton].
  intros x [Hne _]%elem_of_remove_node Hx%list_elem_of_singleton. done.
Qed.

Lemma foldl_appendChild_tray s (l : list nat) :
  Forall (λ sl, children sl = []) (slots s) → NoDup (tray s) →
  foldl (λ st piece, appendChild InTray piece st) s l
  = set_tray (foldl (λ t i, remove_node i t ++ [i]) (tray s) l) s.
Proof.
  revert s. induction l as [|i l IH]; intros s Hb Hnd; cbn [foldl].
  { by destruct s. }
  rewrite appendChild_tray_empty_board by done.
  rewrite IH; [done|done|]. simpl. by apply NoDup_move_to_end.
Qed.

Lemma foldl_move_to_end (t l : list nat) :
  NoDup l →
  foldl (λ t i, remove_node i t ++ [i]) t l = filter (λ x, x ∉ l) t ++ l.
Proof.
  revert t. induction l as [|i l IH]; intros t Hnd; simpl.
  { rewrite app_nil_r. symmetry. 
    induction t as [|x t IHt]; [done|].
    rewrite filter_cons_True by apply not_elem_of_nil. by rewrite IHt. }
  apply NoDup_cons in Hnd as [Hi Hnd]. rewrite IH by done.
  rewrite filter_app, filter_singleton_True by done.
  rewrite <- (assoc_L (++)). simpl. f_equal.
  unfold remove_node. rewrite list_filter_filter.
  apply list_filter_iff. intros x. rewrite not_elem_of_cons. tauto.
Qed.

Lemma filter_none (P : nat → Prop) `{∀ x, Decision (P x)} (l : list nat) :
  (∀ x, x ∈ l → ¬ P x) → filter P l = [].
Proof.
  induction l as [|x l IH]; intros Hl; [done|].
  rewrite filter_cons_False by (apply Hl; constructor).
  apply IH. intros y Hy. apply Hl. by constructor.
Qed.

Lemma pieceIds_of_seq s :
  pieceIds_of s (seq 0 (length (pieces s))) = pieceId <$> pieces s.
Proof.
  unfold pieceIds_of. generalize (pieces s) as l.
  assert (H : ∀ (k l : list piece),
    omap (λ i, pieceId <$> (k ++ l) !! i) (seq (length k) (length l))
    = pieceId <$> l).
  { intros k l. revert k. induction l as [|p l IH]; intros k; [done|].
    simpl. rewrite lookup_app_r, Nat.sub_diag by lia. simpl. f_equal.
    specialize (IH (k ++ [p])). rewrite length_app in IH. simpl in IH.
    rewrite Nat.add_1_r, <- (assoc_L (++)) in IH. exact IH. }
  intros l. apply (H [] l).
Qed.

End Shuffle.

Section ShuffleSpec.
Import Dom Puzzle Model.
Local Open Scope nat_scope.

Lemma fmap_length_eq {A B} (f : A → B) (l k : list A) :
  f <$> l = f <$> k → length l = length k.
Proof. intros H. by rewrite <- (length_fmap f l), H, length_fmap. Qed.

(** What [shufflePieces] leaves behind in a well-formed state: the tray is
    the Fisher-Yates arrangement of all piece nodes and every slot is
    blank. *)
Lemma shufflePieces_spec s random :
  wf s →
  let s' := shufflePieces random s in
  let n := length (pieces s) in
  wf s'
  ∧ tray s' = fisherYates random 0 (n - 1) (seq 0 n)
  ∧ Forall blank (slots s')
  ∧ slotId <$> slots s' = slotId <$> slots s
  ∧ pieceId <$> pieces s' = pieceId <$> pieces s
  ∧ correctSlot <$> pieces s' = correctSlot <$> pieces s.
Proof.
  intros Hwf. cbv zeta. unfold shufflePieces.
  destruct (clearSlots_spec s (length (slots s)) Hwf ltac:(done))
    as (Hwf1 & Hl1 & Hs1 & Hp1 & Hc1 & Hb1).
  set (s1 := foldl clearSlot s (seq 0 (length (slots s)))) in *.
  assert (Hn : length (pieces s1) = length (pieces s))
    by by apply (fmap_length_eq pieceId).
  rewrite Hn. set (n := length (pieces s)) in *.
  set (shuffled := fisherYates random 0 (n - 1) (seq 0 n)).
  assert (Hblank : Forall blank (slots s1)).
  { apply Forall_lookup. intros j sl Hj. apply (Hb1 j sl); [|done].
    rewrite <- Hl1. by eapply lookup_lt_Some. }
  assert (Hempty : Forall (λ sl, children sl = []) (slots s1)).
  { eapply Forall_impl; [exact Hblank|]. by intros sl (Hc & _). }
  assert (Hnodes1 : nodes s1 = tray s1).
  { unfold nodes. by rewrite bind_children_nil, app_nil_r. }
  assert (Htray1 : tray s1 ≡ₚ seq 0 n).
  { rewrite <- Hnodes1, (wf_nodes s1 Hwf1). by rewrite Hn. }
  assert (Hsh : shuffled ≡ₚ seq 0 n) by apply fisherYates_Permutation.
  assert (Hfold : foldl (λ st piece, appendChild InTray piece st) s1 shuffled
                  = set_tray shuffled s1).
  { rewrite foldl_appendChild_tray.
    2: done.
    2:{ rewrite Htray1. apply NoDup_seq. }
    f_equal. rewrite foldl_move_to_end by (rewrite Hsh; apply NoDup_seq).
    rewrite filter_none; [done|].
    intros x Hx Hnot. apply Hnot. by rewrite Hsh, <- Htray1. }
  rewrite Hfold.
  destruct (setStatus_board MSG_SHUFFLED (set_tray shuffled s1))
    as (Ht & Hs & Hp).
  rewrite Ht, Hs, Hp. simpl.
  split; [|done].
  apply setStatus_wf, (wf_transfer s1); [done| |done|by apply (wf_single s1)].
  unfold nodes at 1. simpl. fold (nodes s1).
  rewrite bind_children_nil, app_nil_r by done.
  by rewrite Hnodes1, Hsh, Htray1.
Qed.

Lemma shufflePieces_wf s random : wf s → wf (shufflePieces random s).
Proof. intros Hwf. by destruct (shufflePieces_spec s random Hwf). Qed.

(** ** The start state *)

Lemma assemble_wf N st : wf (assemble N st).
Proof.
  assert (Hnodes : nodes (assemble N st) = seq 0 (N * N)).
  { unfold nodes. simpl. rewrite bind_children_nil, app_nil_r; [done|].
    unfold rebuildBoard. apply Forall_fmap. by apply Forall_true. }
  unfold wf. rewrite Hnodes, length_pieces_assemble, length_seq.
  split.
  { apply list_eq. intros k. rewrite !list_lookup_fmap.
    destruct (decide (k < N * N)) as [Hk|Hk].
    - by rewrite lookup_pieces_assemble, lookup_seq_lt.
    - rewrite lookup_seq_ge by lia.
      rewrite (lookup_ge_None_2 (pieces (assemble N st)));
        [done|rewrite length_pieces_assemble; lia]. }
  split; [apply NoDup_seq|].
  split; [apply Forall_seq; intros; lia|].
  split; [done|].
  simpl. unfold rebuildBoard. apply Forall_fmap, Forall_true. simpl. lia.
Qed.

Lemma initPuzzle_wf W H st random : wf (initPuzzle W H st random).
Proof.
  unfold initPuzzle, loadPuzzle.
  apply setStatus_wf, shufflePieces_wf, assemble_wf.
Qed.

Lemma step_wf s o : wf s → wf (step s o).
Proof.
  destruct o as [k id|id|random]; simpl.
  - apply handleDropOnSlot_wf.
  - apply handleDropOnTray_wf.
  - apply shufflePieces_wf.
Qed.

Lemma run_wf ops s : wf s → wf (run ops s).
Proof.
  unfold run. revert s. induction ops as [|o ops IH]; intros s Hwf; [done|].
  simpl. apply IH. by apply step_wf.
Qed.

(** ** One location per piece *)

Lemma located_unique s i loc loc' :
  NoDup (nodes s) → located s i loc → located s i loc' → loc = loc'.
Proof.
  intros Hnd. destruct loc as [|k], loc' as [|k']; simpl.
  - done.
  - intros Ht (sl & Hk & Hi). by destruct (tree_tray_slot s k' sl i).
  - intros (sl & Hk & Hi) Ht. by destruct (tree_tray_slot s k sl i).
  - intros (sl & Hk & Hi) (sl' & Hk' & Hi'). f_equal.
    by apply (tree_slot_unique s k k' sl sl' i).
Qed.

Lemma located_exists s i :
  wf s → i < length (pieces s) → ∃ loc, located s i loc.
Proof.
  intros Hwf Hi. apply (wf_elem_of_nodes s i Hwf) in Hi.
  apply elem_of_nodes in Hi as [Ht|(k & sl & Hk & Hc)].
  - by exists InTray.
  - exists (InSlot k). by exists sl.
Qed.


End ShuffleSpec.

(* ===================================================================== *)
(** * What a drop leaves on the board *)
(* ===================================================================== *)

Section Drops.
Import Dom Puzzle Model.
Local Open Scope nat_scope.

Lemma handleDropOnSlot_board s k slot id i :
  wf s → slots s !! k = Some slot → find_piece s id = Some i →
  let s1 := after_eviction i slot s in
  let s' := (handleDropOnSlot k id s).1 in
  tray s' = remove_node i (tray s1)
  ∧ slots s'
    = alter (set_drag_over false) k
        (alter (receive i) k (vacate_slot i <$> slots s1))
  ∧ pieceId <$> pieces s' = pieceId <$> pieces s.
Proof.
  intros Hwf Hk Hf. cbv zeta.
  rewrite (handleDropOnSlot_tree s k slot id i) by done.
  destruct (checkCompletion_board
    (setStatus MSG_PLACED (update_slot k (set_drag_over false)
       (placed_in_slot i k (after_eviction i slot s))))) as (-> & -> & ->).
  destruct (setStatus_board MSG_PLACED
    (update_slot k (set_drag_over false)
       (placed_in_slot i k (after_eviction i slot s)))) as (-> & -> & ->).
  simpl. split; [done|]. split; [done|].
  rewrite pieceId_alter_placedSlot.
  unfold after_eviction. destruct (querySelector_piece slot); [|done].
  case_decide; [|done]. simpl. apply pieceId_alter_placedSlot.
Qed.

Lemma occupant_Some s k o :
  wf s → occupant s k = Some o →
  ∃ sl, slots s !! k = Some sl ∧ children sl = [o].
Proof.
  intros Hwf. unfold occupant, querySelector_piece.
  destruct (slots s !! k) as [sl|] eqn:Hk; [|done]. simpl. intros Ho.
  exists sl. split; [done|]. apply single_head_Some; [|done].
  by apply (wf_slot_single s k).
Qed.

Lemma find_piece_by_id s i id :
  wf s → pieceId <$> pieces s !! i = Some id → find_piece s id = Some i.
Proof.
  intros Hwf Hid. destruct (pieces s !! i) as [p|] eqn:Hp; [|done].
  simplify_eq/=. by apply find_piece_wf.
Qed.

(** The eviction touches the target slot only. *)
Lemma after_eviction_other s k slot i j :
  wf s → slots s !! k = Some slot → j ≠ k →
  slots (after_eviction i slot s) !! j = slots s !! j.
Proof.
  intros Hwf Hk Hne. unfold after_eviction, querySelector_piece.
  destruct (head (children slot)) as [o|] eqn:Ho; [|done].
  case_decide; [|done]. simpl. rewrite list_lookup_fmap.
  destruct (slots s !! j) as [sl|] eqn:Hj; [|done]. simpl. f_equal.
  unfold evict_slot. rewrite decide_False; [done|]. intros Hin.
  apply Hne, (tree_slot_unique s j k sl slot o); [by apply wf_tree|done..|].
  apply head_Some in Ho as [l ->]. constructor.
Qed.

End Drops.

(* ===================================================================== *)
(** * The status line and the completion check *)
(* ===================================================================== *)

Section Status.
Import Dom Puzzle Model.
Local Open Scope nat_scope.

Lemma setStatus_eq m s :
  setStatus m s
  = set_statusNode (match statusNode s with Some _ => Some m | None => None end) s.
Proof. unfold setStatus. destruct s as [? ? ? ? ? []]; done. Qed.

Lemma statusNode_setStatus m s t :
  statusNode s = Some t → statusNode (setStatus m s) = Some m.
Proof. intros Hs. unfold setStatus. by rewrite Hs. Qed.

(** The handlers and the check write the status line and nothing else, and
    only where there is one. *)
Lemma checkCompletion_status s :
  ∃ x, checkCompletion s = set_statusNode x s
       ∧ (is_Some x ↔ is_Some (statusNode s)).
Proof.
  unfold checkCompletion.
  destruct (allCorrect s && allFilled s); [|destruct (allFilled s)].
  - eexists. split; [apply setStatus_eq|]. by destruct (statusNode s).
  - eexists. split; [apply setStatus_eq|]. by destruct (statusNode s).
  - exists (statusNode s). split; [by destruct s|done].
Qed.

Lemma allFilled_spec s : allFilled s = true ↔ AllFilled s.
Proof.
  unfold allFilled, AllFilled. rewrite forallb_forall.
  split; intros H sl Hsl.
  - apply list_elem_of_In in Hsl. specialize (H sl Hsl).
    by apply bool_decide_eq_true in H.
  - apply list_elem_of_In in Hsl. apply bool_decide_eq_true. by apply H.
Qed.

Lemma allCorrect_spec s : allCorrect s = true ↔ AllFilled s ∧ AllCorrect s.
Proof.
  unfold allCorrect, AllFilled, AllCorrect. rewrite forallb_forall. split.
  - intros H. split.
    + intros sl Hsl. apply list_elem_of_In in Hsl. specialize (H sl Hsl).
      by destruct (querySelector_piece sl).
    + intros sl i Hsl Hi. apply list_elem_of_In in Hsl. specialize (H sl Hsl).
      rewrite Hi in H. destruct (pieces s !! i) as [p|]; [|done].
      exists p. split; [done|]. by apply bool_decide_eq_true in H.
  - intros [Hf Hc] sl Hsl. apply list_elem_of_In in Hsl.
    destruct (Hf sl Hsl) as [i Hi]. rewrite Hi.
    destruct (Hc sl i Hsl Hi) as (p & -> & Hp). by apply bool_decide_eq_true.
Qed.

Lemma not_AllFilled s : ¬ AllFilled s ↔ SomeEmpty s.
Proof.
  unfold AllFilled, SomeEmpty. rewrite <- Forall_forall. split.
  - intros Hn%not_Forall_Exists; [|apply _].
    apply Exists_exists in Hn as (sl & Hsl & Hq). exists sl. split; [done|].
    simpl in Hq. by destruct (querySelector_piece sl) as [i|]; [destruct Hq|].
  - intros (sl & Hsl & Hq) Hf. rewrite Forall_forall in Hf.
    specialize (Hf sl Hsl). rewrite Hq in Hf. by destruct Hf.
Qed.

(** The three branches of [checkCompletion]. *)
Lemma checkCompletion_cases s :
  (AllFilled s ∧ AllCorrect s
   ∧ checkCompletion s = setStatus MSG_COMPLETED s)
  ∨ (AllFilled s ∧ ¬ AllCorrect s
     ∧ checkCompletion s = setStatus MSG_SO_CLOSE s)
  ∨ (SomeEmpty s ∧ checkCompletion s = s).
Proof.
  unfold checkCompletion.
  destruct (allCorrect s) eqn:Hc; destruct (allFilled s) eqn:Hf; simpl.
  - apply allCorrect_spec in Hc as [Hc1 Hc2]. by left.
  - apply allCorrect_spec in Hc as [Hc1 Hc2].
    apply allFilled_spec in Hc1. congruence.
  - apply allFilled_spec in Hf. right. left. split; [done|]. split; [|done].
    intros Hc'. apply not_true_iff_false in Hc. apply Hc, allCorrect_spec.
    by split.
  - right. right. split; [|done]. apply not_AllFilled. intros Hf'.
    apply allFilled_spec in Hf'. congruence.
Qed.

Lemma SomeEmpty_not_AllFilled s : SomeEmpty s → ¬ AllFilled s.
Proof. apply not_AllFilled. Qed.

(** What the status line reads after the check, for a line that did not
    already carry one of the messages of the check. *)
Lemma checkCompletion_reads s t :
  statusNode s = Some t → t ≠ MSG_COMPLETED → t ≠ MSG_SO_CLOSE →
  (statusNode (checkCompletion s) = Some MSG_COMPLETED
     ↔ AllFilled s ∧ AllCorrect s)
  ∧ (statusNode (checkCompletion s) = Some MSG_SO_CLOSE
     ↔ AllFilled s ∧ ¬ AllCorrect s)
  ∧ (statusNode (checkCompletion s) = Some t ↔ SomeEmpty s).
Proof.
  intros Hst Ht1 Ht2.
  destruct (checkCompletion_cases s)
    as [(Hf & Hc & ->)|[(Hf & Hc & ->)|(He & ->)]];
    rewrite ?(statusNode_setStatus _ s t Hst), ?Hst.
  - split; [done|]. split.
    + split; [done|]. by intros [_ Hn].
    + split; [congruence|]. by intros Hn%SomeEmpty_not_AllFilled.
  - split; [|split].
    + split; [done|]. by intros [_ Hc'].
    + done.
    + split; [congruence|]. by intros Hn%SomeEmpty_not_AllFilled.
  - pose proof (SomeEmpty_not_AllFilled s He) as Hn. split; [|split].
    + split; [congruence|]. by intros [Hf _].
    + split; [congruence|]. by intros [Hf _].
    + done.
Qed.

(** ** The status line of the states the script reaches *)

Lemma status_agrees_other s :
  statusNode s ≠ Some MSG_COMPLETED → statusNode s ≠ Some MSG_SO_CLOSE →
  status_agrees s.
Proof. intros H1 H2. by split. Qed.

Lemma statusNode_setStatus_cases m s :
  statusNode (setStatus m s) = Some m ∨ statusNode (setStatus m s) = None.
Proof. unfold setStatus. destruct (statusNode s) eqn:Hs; [by left|by right]. Qed.

Lemma status_agrees_setStatus m s :
  m ≠ MSG_COMPLETED → m ≠ MSG_SO_CLOSE → status_agrees (setStatus m s).
Proof.
  intros H1 H2. apply status_agrees_other;
    destruct (statusNode_setStatus_cases m s) as [-> | ->]; congruence.
Qed.

Lemma status_agrees_board s s' :
  slots s' = slots s → pieces s' = pieces s →
  (AllFilled s' ↔ AllFilled s) ∧ (AllCorrect s' ↔ AllCorrect s).
Proof.
  intros Hs Hp. unfold AllFilled, AllCorrect. by rewrite Hs, Hp.
Qed.

Lemma status_agrees_check m s :
  m ≠ MSG_COMPLETED → m ≠ MSG_SO_CLOSE →
  status_agrees (checkCompletion (setStatus m s)).
Proof.
  intros H1 H2. set (u := setStatus m s).
  destruct (checkCompletion_cases u)
    as [(Hf & Hc & ->)|[(Hf & Hc & ->)|(He & ->)]].
  - destruct (setStatus_board MSG_COMPLETED u) as (_ & Hs & Hp).
    destruct (status_agrees_board u _ Hs Hp) as [Hf' Hc'].
    split; [by rewrite Hf', Hc'|].
    by destruct (statusNode_setStatus_cases MSG_COMPLETED u) as [-> | ->].
  - destruct (setStatus_board MSG_SO_CLOSE u) as (_ & Hs & Hp).
    destruct (status_agrees_board u _ Hs Hp) as [Hf' Hc'].
    split; [|by rewrite Hf', Hc'].
    by destruct (statusNode_setStatus_cases MSG_SO_CLOSE u) as [-> | ->].
  - by apply status_agrees_setStatus.
Qed.

Lemma step_status_agrees s o : status_agrees s → status_agrees (step s o).
Proof.
  intros Hs. destruct o as [k id|id|random]; simpl.
  - unfold handleDropOnSlot. destruct (slots s !! k); [|done].
    destruct (find_piece s id); [|done]. simpl. by apply status_agrees_check.
  - unfold handleDropOnTray. destruct (find_piece s id); [|done]. simpl.
    by apply status_agrees_check.
  - unfold shufflePieces. by apply status_agrees_setStatus.
Qed.

Lemma run_status_agrees ops s : status_agrees s → status_agrees (run ops s).
Proof.
  unfold run. revert s. induction ops as [|o ops IH]; intros s Hs; [done|].
  simpl. apply IH. by apply step_status_agrees.
Qed.

Lemma initPuzzle_status_agrees W H st random :
  status_agrees (initPuzzle W H st random).
Proof. unfold initPuzzle. by apply status_agrees_setStatus. Qed.

(** In every state the script reaches, the check may run at any time: what
    the status line reads afterwards tells the three cases apart. *)
Lemma checkCompletion_reachable W H st random ops :
  let s := run ops (initPuzzle W H st random) in
  is_Some (statusNode s) →
  (statusNode (checkCompletion s) = Some MSG_COMPLETED
     ↔ AllFilled s ∧ AllCorrect s)
  ∧ (statusNode (checkCompletion s) = Some MSG_SO_CLOSE
     ↔ AllFilled s ∧ ¬ AllCorrect s)
  ∧ (statusNode (checkCompletion s) ≠ Some MSG_COMPLETED
     ∧ statusNode (checkCompletion s) ≠ Some MSG_SO_CLOSE
     ↔ SomeEmpty s).
Proof.
  intros s [t Hst].
  assert (Hag : status_agrees s) by apply run_status_agrees, initPuzzle_status_agrees.
  destruct Hag as [Hag1 Hag2].
  destruct (checkCompletion_cases s)
    as [(Hf & Hc & ->)|[(Hf & Hc & ->)|(He & ->)]];
    rewrite ?(statusNode_setStatus _ s t Hst).
  - split; [done|]. split.
    + split; [done|]. by intros [_ Hn].
    + split; [by intros [? _]|]. by intros Hn%SomeEmpty_not_AllFilled.
  - split; [|split].
    + split; [done|]. by intros [_ Hc'].
    + done.
    + split; [by intros [_ ?]|]. by intros Hn%SomeEmpty_not_AllFilled.
  - pose proof (SomeEmpty_not_AllFilled s He) as Hn. split; [|split].
    + split; [|by intros [Hf _]]. intros Hst'. by destruct (Hag1 Hst').
    + split; [|by intros [Hf _]]. intros Hst'. by destruct (Hag2 Hst').
    + split; [done|]. intros _.
      split; intros Hst'; [by destruct (Hag1 Hst')|by destruct (Hag2 Hst')].
Qed.



Lemma setStatus_set_statusNode m x s :
  (is_Some x ↔ is_Some (statusNode s)) →
  setStatus m (set_statusNode x s) = setStatus m s.
Proof.
  intros Hx. rewrite !setStatus_eq. simpl.
  destruct x as [x|], (statusNode s) as [y|]; try done.
  - destruct Hx as [Hx _]. by destruct Hx.
  - destruct Hx as [_ Hx]. by destruct Hx.
Qed.

End Status.

(* ===================================================================== *)
(** * Properties of the puzzle *)
(* ===================================================================== *)

Section Claims.
Import Dom Puzzle Model.
Local Open Scope nat_scope.

(** C1: after any sequence of drops on slots, drops on the tray and
    shuffles from the start state, the piece nodes hanging in the tray and
    in the slots are exactly the pieces, each once; every piece has one
    location and no other; and no slot holds more than one piece. *)
Theorem bijection_invariant (W H : Z) (st : option string) (random : nat → N)
    (ops : list op) :
  let s := run ops (initPuzzle W H st random) in
  nodes s ≡ₚ seq 0 (length (pieces s))
  ∧ (∀ i, i < length (pieces s) →
       ∃ loc, located s i loc ∧ ∀ loc', located s i loc' → loc' = loc)
  ∧ (∀ k sl, slots s !! k = Some sl → length (children sl) ≤ 1).
Proof.
  intros s.
  assert (Hwf : wf s) by apply run_wf, initPuzzle_wf.
  split; [by apply wf_nodes|]. split.
  - intros i Hi. destruct (located_exists s i Hwf Hi) as [loc Hloc].
    exists loc. split; [done|]. intros loc' Hloc'.
    apply (located_unique s i); [by apply wf_tree|done..].
  - intros k sl Hk. by apply (wf_slot_single s k).
Qed.

(** C6: after a shuffle every slot is empty, with its [filled] class
    removed, and every piece is in the tray; the pieces of the model keep
    their ids, the ids of the pieces in the tray are those of all pieces as
    a multiset, and the tray holds the piece nodes in the order the
    Fisher-Yates loop produced. *)
Theorem shuffle_all_in_holding (s : puzzleState) (random : nat → N) :
  wf s →
  let s' := shufflePieces random s in
  let n := length (pieces s) in
  (∀ k sl, slots s' !! k = Some sl →
     children sl = [] ∧ querySelector_piece sl = None ∧ filled sl = false)
  ∧ (∀ i, i < n → located s' i InTray)
  ∧ pieceId <$> pieces s' = pieceId <$> pieces s
  ∧ pieceIds_of s' (tray s') ≡ₚ pieceId <$> pieces s'
  ∧ tray s' ≡ₚ seq 0 n
  ∧ tray s' = fisherYates random 0 (n - 1) (seq 0 n).
Proof.
  intros Hwf. cbv zeta.
  destruct (shufflePieces_spec s random Hwf)
    as (Hwf' & Ht & Hb & Hs & Hp & Hc).
  set (s' := shufflePieces random s) in *.
  assert (Hn : length (pieces s') = length (pieces s))
    by by apply (fmap_length_eq pieceId).
  assert (Hperm : tray s' ≡ₚ seq 0 (length (pieces s)))
    by (rewrite Ht; apply fisherYates_Permutation).
  split.
  { intros k sl Hk. rewrite Forall_lookup in Hb.
    destruct (Hb k sl Hk) as (Hc1 & Hf & _).
    unfold querySelector_piece. by rewrite Hc1. }
  split.
  { intros i Hi. simpl. rewrite Hperm. apply elem_of_seq. lia. }
  split; [done|]. split; [|done].
  unfold pieceIds_of. rewrite Hperm, <- Hn.
  fold (pieceIds_of s' (seq 0 (length (pieces s')))).
  by rewrite pieceIds_of_seq.
Qed.

Lemma shuffle_all_in_holding_witness :
  let s := Examples.one_placed in
  wf s
  ∧ tray (shufflePieces Examples.zero_draws s) ≡ₚ seq 0 (length (pieces s))
  ∧ ∀ k sl, slots (shufflePieces Examples.zero_draws s) !! k = Some sl →
      children sl = [] ∧ querySelector_piece sl = None ∧ filled sl = false.
Proof.
  intros s.
  assert (Hwf : wf s) by (apply (bool_decide_unpack _); by vm_compute).
  split; [exact Hwf|].
  destruct (shuffle_all_in_holding s Examples.zero_draws Hwf)
    as (H1 & _ & _ & _ & H2 & _).
  exact (conj H2 H1).
Defined.

(** C2: when piece A fills slot c and piece B lies in the tray, dropping
    B on c sends A to the tray first - after that step c is empty - and then
    puts B on c: afterwards A is in the tray and nowhere else, B is the only
    child of c and is nowhere else, and the piece nodes on the page are those
    of before, none lost and none twice. *)
Theorem displacement_correct (s : puzzleState) (c A B : nat) (idB : string) :
  wf s →
  occupant s c = Some A →
  located s B InTray →
  A ≠ B →
  pieceId <$> pieces s !! B = Some idB →
  let s1 := movePieceToTray A s in
  let s' := (handleDropOnSlot c idB s).1 in
  (occupant s1 c = None ∧ located s1 A InTray
   ∧ s' = checkCompletion
            (setStatus MSG_PLACED
               (update_slot c (set_drag_over false)
                  (placePieceInSlot B c s1))))
  ∧ (located s' A InTray ∧ ∀ loc, located s' A loc → loc = InTray)
  ∧ (occupant s' c = Some B
     ∧ (∃ sl, slots s' !! c = Some sl ∧ children sl = [B] ∧ filled sl = true)
     ∧ ∀ loc, located s' B loc → loc = InSlot c)
  ∧ nodes s' ≡ₚ nodes s
  ∧ pieceId <$> pieces s' = pieceId <$> pieces s.
Proof.
  intros Hwf HA HB Hne Hid. cbv zeta. simpl in HB.
  destruct (occupant_Some s c A Hwf HA) as (slot & Hc & Hch).
  pose proof (find_piece_by_id s B idB Hwf Hid) as Hf.
  pose proof (handleDropOnSlot_wf s c idB Hwf) as Hwf'.
  destruct (handleDropOnSlot_board s c slot idB B Hwf Hc Hf)
    as (Ht & Hs & Hp).
  assert (He : after_eviction B slot s = moved_to_tray A s).
  { unfold after_eviction, querySelector_piece. rewrite Hch. simpl.
    by rewrite decide_True. }
  rewrite He in Ht, Hs. simpl in Ht, Hs.
  assert (Hmv : movePieceToTray A s = moved_to_tray A s)
    by (apply movePieceToTray_tree; by apply wf_tree).
  assert (HtA : A ∈ tray (handleDropOnSlot c idB s).1).
  { rewrite Ht. apply elem_of_remove_node. split; [done|].
    apply elem_of_app. right. constructor. }
  assert (Hsc : slots (handleDropOnSlot c idB s).1 !! c
    = Some (set_drag_over false
              (receive B (vacate_slot B (evict_slot A slot))))).
  { rewrite Hs, !list_lookup_alter_eq, !list_lookup_fmap, Hc. done. }
  assert (Hcc : children (set_drag_over false
                  (receive B (vacate_slot B (evict_slot A slot)))) = [B]).
  { simpl. rewrite children_vacate_slot, children_evict_slot, Hch.
    by rewrite remove_node_singleton. }
  assert (HlB : located (handleDropOnSlot c idB s).1 B (InSlot c)).
  { eexists. split; [exact Hsc|]. rewrite Hcc. constructor. }
  split.
  { rewrite Hmv. split.
    - unfold occupant, querySelector_piece. simpl.
      rewrite list_lookup_fmap, Hc. simpl.
      by rewrite children_evict_slot, Hch, remove_node_singleton.
    - split.
      + simpl. apply elem_of_app. right. constructor.
      + rewrite (handleDropOnSlot_tree s c slot idB B) by done.
        rewrite He, <- Hmv, placePieceInSlot_tree; [done|].
        by apply wf_tree, movePieceToTray_wf, (wf_occupant_lt s c slot);
          [..|rewrite Hch; constructor]. }
  split.
  { split; [done|]. intros loc Hloc.
    apply (located_unique (handleDropOnSlot c idB s).1 A);
      [by apply wf_tree|done..]. }
  split.
  { split.
    - unfold occupant, querySelector_piece. rewrite Hsc. simpl.
      rewrite children_vacate_slot, children_evict_slot, Hch.
      by rewrite remove_node_singleton.
    - split.
      + eexists. split; [exact Hsc|]. split; [exact Hcc|done].
      + intros loc Hloc.
        apply (located_unique (handleDropOnSlot c idB s).1 B);
          [by apply wf_tree|done..]. }
  split; [|done].
  rewrite (wf_nodes _ Hwf'), (wf_nodes _ Hwf).
  by rewrite (fmap_length_eq pieceId _ _ Hp).
Qed.

Lemma displacement_correct_witness :
  let s := Examples.one_placed in
  (wf s ∧ occupant s 2 = Some 0 ∧ located s 1 InTray ∧ 0 ≠ 1
   ∧ pieceId <$> pieces s !! 1 = Some "2")
  ∧ located (handleDropOnSlot 2 "2" s).1 0 InTray
  ∧ occupant (handleDropOnSlot 2 "2" s).1 2 = Some 1.
Proof.
  intros s.
  assert (Hwf : wf s) by (apply (bool_decide_unpack _); by vm_compute).
  assert (HA : occupant s 2 = Some 0) by (by vm_compute).
  assert (HB : located s 1 InTray)
    by (apply (bool_decide_unpack (1 ∈ tray s)); by vm_compute).
  assert (Hne : 0 ≠ 1) by lia.
  assert (Hid : pieceId <$> pieces s !! 1 = Some "2") by (by vm_compute).
  split; [exact (conj Hwf (conj HA (conj HB (conj Hne Hid))))|].
  destruct (displacement_correct s 2 0 1 "2" Hwf HA HB Hne Hid)
    as (_ & [H1 _] & [H2 _] & _).
  exact (conj H1 H2).
Defined.

(** C10: when a piece sits on slot X and is dropped on another slot Y,
    slot X ends up with no child and without its [filled] class, the piece
    is the only child of Y, which is [filled], and every slot other than X
    and Y is left as it was. *)
Theorem move_between_cells (s : puzzleState) (X Y i : nat) (id : string) :
  wf s →
  occupant s X = Some i →
  X ≠ Y →
  Y < length (slots s) →
  pieceId <$> pieces s !! i = Some id →
  let s' := (handleDropOnSlot Y id s).1 in
  (occupant s' X = None
   ∧ ∃ sl, slots s' !! X = Some sl ∧ children sl = [] ∧ filled sl = false)
  ∧ (occupant s' Y = Some i
     ∧ ∃ sl, slots s' !! Y = Some sl ∧ children sl = [i] ∧ filled sl = true)
  ∧ (∀ Z, Z ≠ X → Z ≠ Y → slots s' !! Z = slots s !! Z).
Proof.
  intros Hwf HX Hne HY Hid. cbv zeta.
  destruct (occupant_Some s X i Hwf HX) as (slX & HslX & HchX).
  destruct (lookup_lt_is_Some_2 _ _ HY) as [slY HslY].
  pose proof (find_piece_by_id s i id Hwf Hid) as Hf.
  destruct (handleDropOnSlot_board s Y slY id i Hwf HslY Hf)
    as (_ & Hs & _).
  assert (Hother : ∀ Z, Z ≠ Y →
    slots (handleDropOnSlot Y id s).1 !! Z = vacate_slot i <$> slots s !! Z).
  { intros Z HZ. rewrite Hs, !list_lookup_alter_ne, list_lookup_fmap by done.
    by rewrite (after_eviction_other s Y slY i Z). }
  assert (HX' : slots (handleDropOnSlot Y id s).1 !! X
                = Some (Slot (slotId slX) [] false (drag_over slX))).
  { rewrite Hother, HslX by done. simpl. unfold vacate_slot.
    rewrite decide_True by (rewrite HchX; constructor).
    by rewrite HchX, remove_node_singleton. }
  destruct (after_eviction_target s Y slY i Hwf HslY) as (sl' & Hsl' & He & _).
  assert (HY' : slots (handleDropOnSlot Y id s).1 !! Y
                = Some (set_drag_over false (receive i (vacate_slot i sl')))).
  { by rewrite Hs, !list_lookup_alter_eq, list_lookup_fmap, Hsl'. }
  assert (HcY : children (set_drag_over false (receive i (vacate_slot i sl')))
                = [i]).
  { simpl. by rewrite children_vacate_slot, He. }
  split.
  { split; [by unfold occupant; rewrite HX'|]. by eexists. }
  split.
  { split.
    - unfold occupant, querySelector_piece. rewrite HY'. simpl.
      by rewrite children_vacate_slot, He.
    - eexists. split; [exact HY'|]. by split. }
  intros Z HZX HZY. rewrite Hother by done.
  destruct (slots s !! Z) as [slZ|] eqn:HslZ; [|done]. simpl. f_equal.
  unfold vacate_slot. rewrite decide_False; [done|]. intros Hin.
  apply HZX, (tree_slot_unique s Z X slZ slX i); [by apply wf_tree|done..|].
  rewrite HchX. constructor.
Qed.

Lemma move_between_cells_witness :
  let s := Examples.one_placed in
  (wf s ∧ occupant s 2 = Some 0 ∧ 2 ≠ 1 ∧ 1 < length (slots s)
   ∧ pieceId <$> pieces s !! 0 = Some "1")
  ∧ occupant (handleDropOnSlot 1 "1" s).1 2 = None
  ∧ occupant (handleDropOnSlot 1 "1" s).1 1 = Some 0.
Proof.
  intros s.
  assert (Hwf : wf s) by (apply (bool_decide_unpack _); by vm_compute).
  assert (HX : occupant s 2 = Some 0) by (by vm_compute).
  assert (Hne : 2 ≠ 1) by lia.
  assert (HY : 1 < length (slots s)) by (vm_compute; lia).
  assert (Hid : pieceId <$> pieces s !! 0 = Some "1") by (by vm_compute).
  split; [exact (conj Hwf (conj HX (conj Hne (conj HY Hid))))|].
  destruct (move_between_cells s 2 1 0 "1" Hwf HX Hne HY Hid)
    as ([H1 _] & [H2 _] & _).
  exact (conj H1 H2).
Defined.



(** The three cases on the 2 x 2 board: all pieces home, two pieces
    swapped, one slot empty. *)
Example completion_solved :
  statusNode Examples.solved = Some MSG_COMPLETED.
Proof. by vm_compute. Qed.

Example completion_swapped :
  statusNode (run [DropOnSlot 0 "2"; DropOnSlot 1 "1"] Examples.solved)
  = Some MSG_SO_CLOSE.
Proof. by vm_compute. Qed.

Example completion_one_empty :
  statusNode (run [DropOnTray "3"] Examples.solved) = Some MSG_RETURNED.
Proof. by vm_compute. Qed.


(** C7, as the script has it: a drop that carries a piece id no piece of
    the model has changes nothing - the whole state, and so every location
    and every slot, is as before - and the handler returns [undefined], as
    it does on every path, so the returned value tells the caller
    nothing. *)
Theorem absent_piece_noop (s : puzzleState) (id : string) :
  (∀ p, p ∈ pieces s → pieceId p ≠ id) →
  (∀ k, (handleDropOnSlot k id s).1 = s)
  ∧ (handleDropOnTray id s).1 = s
  ∧ (∀ k id' s0, (handleDropOnSlot k id' s0).2 = JsUndefined)
  ∧ (∀ id' s0, (handleDropOnTray id' s0).2 = JsUndefined).
Proof.
  intros Habs.
  assert (Hf : find_piece s id = None).
  { unfold find_piece. destruct (list_find _ _) as [[j p]|] eqn:Hf; [|done].
    apply list_find_Some in Hf as (Hj & Hp & _).
    destruct (Habs p); [by eapply list_elem_of_lookup_2|done]. }
  split; [|split; [|split]].
  - intros k. unfold handleDropOnSlot. rewrite Hf.
    by destruct (slots s !! k).
  - unfold handleDropOnTray. by rewrite Hf.
  - intros k id' s0. unfold handleDropOnSlot.
    destruct (slots s0 !! k); [|done]. by destruct (find_piece s0 id').
  - intros id' s0. unfold handleDropOnTray. by destruct (find_piece s0 id').
Qed.

Lemma absent_piece_noop_witness :
  (∀ p, p ∈ pieces Examples.start → pieceId p ≠ "9")
  ∧ (handleDropOnTray "9" Examples.start).1 = Examples.start.
Proof.
  assert (H : ∀ p, p ∈ pieces Examples.start → pieceId p ≠ "9").
  { apply Forall_forall. apply (bool_decide_unpack _). by vm_compute. }
  split; [exact H|].
  destruct (absent_piece_noop Examples.start "9" H) as (_ & H2 & _).
  exact H2.
Defined.

(** C7 as stated fails: a return value that told failure from success would
    differ between a drop with an absent id and a drop with a present one;
    on the start state of the 2 x 2 board, "9" is absent, "1" is present,
    and both handlers return the same value for the two. *)
Lemma absent_piece_no_return_signal :
  ¬ (∀ id id',
       find_piece Examples.start id = None →
       is_Some (find_piece Examples.start id') →
       (handleDropOnSlot 0 id Examples.start).2
         ≠ (handleDropOnSlot 0 id' Examples.start).2
       ∧ (handleDropOnTray id Examples.start).2
         ≠ (handleDropOnTray id' Examples.start).2).
Proof.
  intros H.
  destruct (H "9" "1") as [H1 _].
  - by vm_compute.
  - exists 0. by vm_compute.
  - apply H1. by vm_compute.
Qed.

End Claims.

(* ===================================================================== *)
(** * More on grid sizing *)
(* ===================================================================== *)

Section GridMore.

Lemma approximatePiecesPerSide_ge A n :
  1 <= n ->
  n <= Grid.approximatePiecesPerSide A <-> 3500000 * (2 * n - 1) ^ 2 <= 529 * A.
Proof.
  intros Hn. unfold Grid.approximatePiecesPerSide.
  set (q := 529 * A / 3500000).
  assert (Hdiv : forall k, k <= q <-> 3500000 * k <= 529 * A).
  { intros k. unfold q. split.
    - intros Hk. pose proof (Z.mul_div_le (529 * A) 3500000 ltac:(lia)). nia.
    - intros Hk. apply Z.div_le_lower_bound; lia. }
  rewrite <- Hdiv.
  assert (Hsq : 2 * n - 1 <= Z.sqrt q <-> (2 * n - 1) ^ 2 <= q).
  { split.
    - intros Hs. destruct (Z.le_gt_cases 0 q) as [Hq|Hq].
      + pose proof (Z.sqrt_spec q Hq) as [Hlo _]. nia.
      + rewrite Z.sqrt_neg in Hs by done. lia.
    - intros Hs. apply Z.sqrt_le_square; [nia|lia|]. nia. }
  rewrite <- Hsq.
  split.
  - intros H. pose proof (Z.mul_div_le (Z.sqrt q + 1) 2 ltac:(lia)). lia.
  - intros H. apply Z.div_le_lower_bound; lia.
Qed.

Lemma approximatePiecesPerSide_mono A A' :
  A <= A' -> Grid.approximatePiecesPerSide A <= Grid.approximatePiecesPerSide A'.
Proof.
  intros HA. unfold Grid.approximatePiecesPerSide.
  apply Z.div_le_mono; [lia|].
  apply Z.add_le_mono_r, Z.sqrt_le_mono, Z.div_le_mono; lia.
Qed.

Lemma computeBoardSize_clamp_only W H :
  Grid.computeBoardSize W H
  = Grid.clamp (Grid.approximatePiecesPerSide (W * H)) 2 7.
Proof.
  unfold Grid.computeBoardSize, Grid.or_else, Grid.clamp,
    Grid.MIN_BOARD_SIZE, Grid.MAX_BOARD_SIZE.
  destruct (Z.eqb_spec (Grid.approximatePiecesPerSide (W * H)) 0); lia.
Qed.

(** X1: a picture with at least as many pixels never gets a smaller board:
    the grid side grows with the pixel count. *)
Theorem computeBoardSize_monotone (W H W' H' : Z) :
  W * H <= W' * H' ->
  Grid.computeBoardSize W H <= Grid.computeBoardSize W' H'.
Proof.
  intros HA. rewrite !computeBoardSize_clamp_only.
  pose proof (approximatePiecesPerSide_mono _ _ HA).
  unfold Grid.clamp. lia.
Qed.

Lemma computeBoardSize_monotone_witness :
  640 * 480 <= 1920 * 1080
  /\ Grid.computeBoardSize 640 480 <= Grid.computeBoardSize 1920 1080.
Proof.
  assert (H : 640 * 480 <= 1920 * 1080) by lia.
  exact (conj H (computeBoardSize_monotone 640 480 1920 1080 H)).
Defined.

(** X2: the pixel counts at which the board grows.  For a side n from 3 to
    7 the board has at least n pieces per side exactly when
    [529 * pixels >= 3500000 * (2n - 1)^2], that is from 165407, 324197,
    535917, 800568 and 1118148 pixels on; below 165407 pixels the side
    is 2. *)
Theorem computeBoardSize_thresholds (W H : Z) :
  (forall n, 3 <= n <= 7 ->
     n <= Grid.computeBoardSize W H
     <-> 3500000 * (2 * n - 1) ^ 2 <= 529 * (W * H))
  /\ (3 <= Grid.computeBoardSize W H <-> 165407 <= W * H)
  /\ (4 <= Grid.computeBoardSize W H <-> 324197 <= W * H)
  /\ (5 <= Grid.computeBoardSize W H <-> 535917 <= W * H)
  /\ (6 <= Grid.computeBoardSize W H <-> 800568 <= W * H)
  /\ (7 <= Grid.computeBoardSize W H <-> 1118148 <= W * H)
  /\ (Grid.computeBoardSize W H = 2 <-> W * H < 165407).
Proof.
  assert (Hgen : forall n, 3 <= n <= 7 ->
     n <= Grid.computeBoardSize W H
     <-> 3500000 * (2 * n - 1) ^ 2 <= 529 * (W * H)).
  { intros n Hn. rewrite computeBoardSize_clamp_only.
    rewrite <- approximatePiecesPerSide_ge by lia.
    unfold Grid.clamp. lia. }
  split; [exact Hgen|].
  pose proof (Hgen 3 ltac:(lia)) as H3. pose proof (Hgen 4 ltac:(lia)) as H4.
  pose proof (Hgen 5 ltac:(lia)) as H5. pose proof (Hgen 6 ltac:(lia)) as H6.
  pose proof (Hgen 7 ltac:(lia)) as H7.
  pose proof (clamp_range
    (Grid.or_else (Grid.approximatePiecesPerSide (W * H)) Grid.MIN_BOARD_SIZE))
    as Hr.
  fold (Grid.computeBoardSize W H) in Hr.
  unfold Grid.MIN_BOARD_SIZE, Grid.MAX_BOARD_SIZE in Hr.
  repeat split; lia.
Qed.

(** X3: [clamp].  With [min <= max] the result lies between the bounds, a
    value already between them is returned as it is, clamping twice is
    clamping once, and clamping keeps the order of values; with the bounds
    the wrong way round the result is [max] whatever the value. *)
Theorem clamp_spec (value min max : Z) :
  (min <= max ->
     min <= Grid.clamp value min max <= max
     /\ (min <= value <= max -> Grid.clamp value min max = value)
     /\ Grid.clamp (Grid.clamp value min max) min max = Grid.clamp value min max
     /\ (forall value', value <= value' ->
           Grid.clamp value min max <= Grid.clamp value' min max))
  /\ (max < min -> Grid.clamp value min max = max).
Proof. unfold Grid.clamp. repeat split; intros; lia. Qed.

End GridMore.

(* ===================================================================== *)
(** * What the operations never touch *)
(* ===================================================================== *)

Section FrameFacts.
Import Dom Puzzle Model Frame.
Local Open Scope nat_scope.

Lemma same_frame_refl s : same_frame s s.
Proof. by repeat split. Qed.

Lemma same_frame_trans s1 s2 s3 :
  same_frame s1 s2 → same_frame s2 s3 → same_frame s1 s3.
Proof.
  intros (H1 & H2 & H3 & H4) (H1' & H2' & H3' & H4').
  repeat split; congruence.
Qed.

Lemma same_frame_update_slot s k g :
  (∀ sl, slotId (g sl) = slotId sl) → same_frame s (update_slot k g s).
Proof.
  intros Hg. repeat split; simpl. by apply fmap_alter_same.
Qed.

Lemma same_frame_set_tray s t : same_frame s (set_tray t s).
Proof. by repeat split. Qed.

Lemma same_frame_placedSlot s i v :
  same_frame s (update_piece i (set_placedSlot v) s).
Proof. repeat split; simpl. by apply fmap_alter_same. Qed.

Lemma same_frame_setStatus m s : same_frame s (setStatus m s).
Proof. rewrite setStatus_eq. by repeat split. Qed.

Lemma same_frame_checkCompletion s : same_frame s (checkCompletion s).
Proof.
  destruct (checkCompletion_status s) as (x & -> & _). by repeat split.
Qed.

Lemma same_frame_detach s i : same_frame s (detach i s).
Proof.
  unfold detach. destruct (parentElement s i) as [[|k]|].
  - apply same_frame_set_tray.
  - by apply same_frame_update_slot.
  - apply same_frame_refl.
Qed.

Lemma same_frame_appendChild s target i : same_frame s (appendChild target i s).
Proof.
  unfold appendChild. eapply same_frame_trans; [apply same_frame_detach|].
  destruct target as [|k].
  - apply same_frame_set_tray.
  - by apply same_frame_update_slot.
Qed.

Lemma same_frame_movePieceToTray s i : same_frame s (movePieceToTray i s).
Proof.
  unfold movePieceToTray.
  eapply same_frame_trans; [|apply same_frame_placedSlot].
  eapply same_frame_trans; [|apply same_frame_appendChild].
  destruct (parentElement s i) as [[|k]|];
    [apply same_frame_refl|by apply same_frame_update_slot|apply same_frame_refl].
Qed.

Lemma same_frame_placePieceInSlot s i k : same_frame s (placePieceInSlot i k s).
Proof.
  unfold placePieceInSlot.
  eapply same_frame_trans; [|apply same_frame_placedSlot].
  eapply same_frame_trans; [|by apply same_frame_update_slot].
  eapply same_frame_trans; [|apply same_frame_appendChild].
  destruct (parentElement s i) as [[|k']|];
    [apply same_frame_refl|by apply same_frame_update_slot|apply same_frame_refl].
Qed.

Lemma same_frame_handleDropOnSlot s k id :
  same_frame s (handleDropOnSlot k id s).1.
Proof.
  unfold handleDropOnSlot. destruct (slots s !! k) as [slot|];
    [|apply same_frame_refl].
  destruct (find_piece s id) as [i|]; [|apply same_frame_refl]. simpl.
  eapply same_frame_trans; [|apply same_frame_checkCompletion].
  eapply same_frame_trans; [|apply same_frame_setStatus].
  eapply same_frame_trans; [|by apply same_frame_update_slot].
  eapply same_frame_trans; [|apply same_frame_placePieceInSlot].
  destruct (querySelector_piece slot) as [o|]; [|apply same_frame_refl].
  case_decide; [apply same_frame_movePieceToTray|apply same_frame_refl].
Qed.

Lemma same_frame_handleDropOnTray s id : same_frame s (handleDropOnTray id s).1.
Proof.
  unfold handleDropOnTray. destruct (find_piece s id) as [i|];
    [|apply same_frame_refl]. simpl.
  eapply same_frame_trans; [|apply same_frame_checkCompletion].
  eapply same_frame_trans; [|apply same_frame_setStatus].
  apply same_frame_movePieceToTray.
Qed.

Lemma same_frame_clearSlot s k : same_frame s (clearSlot s k).
Proof.
  unfold clearSlot.
  eapply same_frame_trans; [|by apply same_frame_update_slot].
  destruct (slots s !! k ≫= querySelector_piece);
    [apply same_frame_movePieceToTray|apply same_frame_refl].
Qed.

Lemma same_frame_foldl {A} (f : puzzleState → A → puzzleState) (l : list A) s :
  (∀ st x, same_frame st (f st x)) → same_frame s (foldl f s l).
Proof.
  intros Hf. revert s. induction l as [|x l IH]; intros s;
    [apply same_frame_refl|].
  simpl. eapply same_frame_trans; [apply Hf|apply IH].
Qed.

Lemma same_frame_shufflePieces s random : same_frame s (shufflePieces random s).
Proof.
  unfold shufflePieces.
  eapply same_frame_trans; [|apply same_frame_setStatus].
  eapply same_frame_trans;
    [|apply same_frame_foldl; intros; apply same_frame_appendChild].
  apply same_frame_foldl. intros. apply same_frame_clearSlot.
Qed.

Lemma same_frame_step s o : same_frame s (step s o).
Proof.
  destruct o as [k id|id|random]; simpl.
  - apply same_frame_handleDropOnSlot.
  - apply same_frame_handleDropOnTray.
  - apply same_frame_shufflePieces.
Qed.

Lemma same_frame_run s ops : same_frame s (run ops s).
Proof. unfold run. apply same_frame_foldl. apply same_frame_step. Qed.

Lemma same_frame_initPuzzle W H st random :
  same_frame (loadPuzzle W H st) (initPuzzle W H st random).
Proof.
  unfold initPuzzle.
  eapply same_frame_trans; [apply same_frame_shufflePieces|].
  apply same_frame_setStatus.
Qed.

(** X6: nothing the player does changes what was fixed at load time.  After
    any sequence of drops and shuffles the board side and the piece size
    are those [initPuzzle] computed, there are still [side * side] slots
    and pieces, slot k still has id k, and piece k still has id k, home slot
    k and the k-th slice as its image. *)
Theorem load_time_data_immutable (W H : Z) (st : option string)
    (random : nat → N) (ops : list op) :
  let s := run ops (initPuzzle W H st random) in
  let side := Z.to_nat (Grid.computeBoardSize W H) in
  boardSize s = side
  ∧ pieceSize s = Scene.pieceSize_of (Grid.computeBoardSize W H)
  ∧ length (slots s) = side * side
  ∧ length (pieces s) = side * side
  ∧ (∀ k, k < side * side →
       ∃ sl p t,
         slots s !! k = Some sl ∧ slotId sl = pretty (k + 1)
         ∧ pieces s !! k = Some p
         ∧ pieceId p = pretty (k + 1)
         ∧ correctSlot p = Some (pretty (k + 1))
         ∧ sliceScene side (pieceSize s) !! k = Some t
         ∧ backgroundImage p = Some t).
Proof.
  intros s side.
  assert (Hf : same_frame (assemble side st) s).
  { eapply same_frame_trans; [apply same_frame_initPuzzle|].
    apply same_frame_run. }
  destruct Hf as (Hb & Hp & Hs & Hst).
  assert (Hps : pieceSize s = Scene.pieceSize_of (Grid.computeBoardSize W H)).
  { rewrite Hp. unfold assemble, hydratePieces, Scene.pieceSize_of. simpl.
    unfold side. rewrite Z2Nat.id; [done|]. pose proof (clamp_range
      (Grid.or_else (Grid.approximatePiecesPerSide (W * H)) Grid.MIN_BOARD_SIZE)).
    unfold Grid.computeBoardSize, Grid.MIN_BOARD_SIZE in *. lia. }
  split; [by rewrite Hb|]. split; [done|].
  assert (Hls : length (slots s) = side * side).
  { rewrite (fmap_length_eq slotId _ _ Hs). apply length_rebuildBoard. }
  assert (Hlp : length (pieces s) = side * side).
  { rewrite (fmap_length_eq piece_static _ _ Hst).
    apply length_pieces_assemble. }
  split; [done|]. split; [done|].
  intros k Hk.
  destruct (lookup_lt_is_Some_2 (slots s) k) as [sl Hsl]; [lia|].
  destruct (lookup_lt_is_Some_2 (pieces s) k) as [p Hpk]; [lia|].
  destruct (lookup_lt_is_Some_2 (sliceScene side (pieceSize s)) k) as [t Ht].
  { rewrite length_sliceScene. lia. }
  exists sl, p, t.
  assert (Hsid : (slotId <$> slots s) !! k = Some (slotId sl))
    by (by rewrite list_lookup_fmap, Hsl).
  rewrite Hs, list_lookup_fmap in Hsid.
  change (slots (assemble side st)) with (rebuildBoard side) in Hsid.
  rewrite lookup_rebuildBoard in Hsid by done. simpl in Hsid.
  assert (Hpst : (piece_static <$> pieces s) !! k = Some (piece_static p))
    by (by rewrite list_lookup_fmap, Hpk).
  rewrite Hst, list_lookup_fmap, lookup_pieces_assemble in Hpst by done.
  apply fmap_Some in Hpst as (q & [= <-] & Hq).
  unfold piece_static in Hq.
  cbn [pieceId correctSlot backgroundImage] in Hq.
  change (inject_Z Grid.BOARD_DIMENSION / inject_Z (Z.of_nat side))%Q
    with (pieceSize (assemble side st)) in Hq.
  rewrite <- Hp, Ht in Hq. injection Hq as Hq1 Hq2 Hq3.
  split; [done|]. split; [congruence|]. split; [done|].
  split; [done|]. split; [done|]. split; [done|]. done.
Qed.

End FrameFacts.

(* ===================================================================== *)
(** * The sizes of [initPuzzle] *)
(* ===================================================================== *)

Section SceneFacts.
Import Dom Puzzle Scene.
Local Open Scope Q_scope.


End SceneFacts.

Section SliceFacts.
Import DoubleScene.
Local Open Scope nat_scope.

Lemma forallb_lookup {A} (p : A → bool) (l : list A) :
  forallb p l = true → ∀ k t, l !! k = Some t → p t = true.
Proof.
  intros Hp k t Hk. rewrite forallb_forall in Hp. apply Hp.
  apply list_elem_of_In. by eapply list_elem_of_lookup_2.
Qed.

(** A check that runs over two indices proves the property of every pair
    of elements found at the positions it looks up. *)
Lemma forallb_pairs {A} (p : nat → nat → A → A → bool) (l : list A)
    (f g : nat → nat → nat) (R C : nat) :
  forallb (λ r, forallb (λ c,
     match l !! f r c, l !! g r c with
     | Some t, Some t' => p r c t t'
     | _, _ => true
     end) (seq 0 C)) (seq 0 R) = true →
  ∀ r c t t', r < R → c < C →
    l !! f r c = Some t → l !! g r c = Some t' → p r c t t' = true.
Proof.
  intros Hp r c t t' Hr Hc Ht Ht'. rewrite forallb_forall in Hp.
  specialize (Hp r). rewrite forallb_forall in Hp.
  assert (Hin : ∀ n m, n < m → In n (seq 0 m)) by (intros; apply in_seq; lia).
  specialize (Hp (Hin _ _ Hr) c (Hin _ _ Hc)). by rewrite Ht, Ht' in Hp.
Qed.

Lemma sliceScene_size N ps t :
  t ∈ sliceScene N ps → sw t = ps ∧ sh t = ps.
Proof.
  unfold sliceScene. intros (row & Ht & _)%list_elem_of_bind.
  apply list_elem_of_bind in Ht as (col & Ht & _).
  by apply list_elem_of_singleton in Ht as ->.
Qed.

(** X7: the slices tile the scene, in the doubles of the script.  For the
    board side of any image (2 to 7) and [pieceSize = 300 / side], computed
    as the script computes them: there are [side * side] slices, each of
    width and height [pieceSize]; every slice lies on the 300 x 300 scene
    canvas; no two slices start at the same point; and a slice starts
    where its left neighbour and its upper neighbour end.  The last three
    hold as the doubles compare ([<=], [==] on binary64, the sums rounded)
    and also of the exact values of the doubles, the slices lying on the
    canvas exactly and neighbours meeting within [2^-45] of a pixel: on a
    board of side 7 the products [col * pieceSize] are rounded and some
    neighbours miss each other by less than that. *)
Theorem sliceScene_tiles (W H : Z) :
  let side := Grid.computeBoardSize W H in
  let N := Z.to_nat side in
  let ps := pieceSize_of side in
  let textures := sliceScene N ps in
  length textures = N * N
  ∧ (∀ k t, textures !! k = Some t →
       sw t = ps ∧ sh t = ps ∧ within t = true)
  ∧ (∀ k k' t t', textures !! k = Some t → textures !! k' = Some t' →
       same_origin t t' = true → k = k')
  ∧ (∀ row col t t', row < N → col + 1 < N →
       textures !! (row * N + col) = Some t →
       textures !! (row * N + (col + 1)) = Some t' →
       abuts_right t t' = true)
  ∧ (∀ row col t t', row + 1 < N → col < N →
       textures !! (row * N + col) = Some t →
       textures !! ((row + 1) * N + col) = Some t' →
       abuts_below t t' = true).
Proof.
  intros side.
  assert (Hside : (2 <= side <= 7)%Z) by apply clamp_range.
  assert (Hcases : side = 2%Z ∨ side = 3%Z ∨ side = 4%Z ∨ side = 5%Z
                   ∨ side = 6%Z ∨ side = 7%Z) by lia.
  clearbody side.
  destruct Hcases as [-> | [-> | [-> | [-> | [-> | ->]]]]];
    intros N ps textures;
    (split; [by vm_compute|]);
    (split; [intros k t Hk;
       assert (Hw : forallb within textures = true) by (by vm_compute);
       pose proof (forallb_lookup within textures Hw k t Hk);
       destruct (sliceScene_size N ps t) as [? ?];
         [by eapply list_elem_of_lookup_2|];
       split; [done|]; split; done|]);
    (split; [intros k k' t t' Hk Hk' Ho;
       pose proof (lookup_lt_Some _ _ _ Hk) as Hlt;
       pose proof (lookup_lt_Some _ _ _ Hk') as Hlt';
       assert (Hb : (negb (same_origin t t') || Nat.eqb k k') = true);
       [apply (forallb_pairs
                 (λ r c t t', negb (same_origin t t') || Nat.eqb r c)
                 textures (λ r _, r) (λ _ c, c) (length textures)
                 (length textures)); [by vm_compute|done..]|];
       rewrite Ho in Hb; by apply Nat.eqb_eq in Hb|]);
    (split; [intros row col t t' Hr Hc;
       apply (forallb_pairs (λ _ _, abuts_right) textures
                (λ r c, r * N + c) (λ r c, r * N + (c + 1)) N (N - 1));
         [by vm_compute|done|unfold N; simpl; simpl in Hc; lia]
      |intros row col t t' Hr Hc;
       apply (forallb_pairs (λ _ _, abuts_below) textures
                (λ r c, r * N + c) (λ r c, (r + 1) * N + c) (N - 1) N);
         [by vm_compute|unfold N; simpl; simpl in Hr; lia|done]]).
Qed.

(** On a board of side 9, which no image gets, the doubles would no longer
    meet: the sixth slice of a row ends past the start of the seventh. *)
Example sliceScene_side_9 :
  let l := sliceScene 9 (pieceSize_of 9) in
  ∃ t t', l !! 5 = Some t ∧ l !! 6 = Some t' ∧ abuts_right t t' = false.
Proof. eexists _, _. split; [reflexivity|]. split; [reflexivity|]. by vm_compute. Qed.

End SliceFacts.

(* ===================================================================== *)
(** * What a drop does, in full *)
(* ===================================================================== *)

Section EffectFacts.
Import Dom Puzzle Model Frame Effects.
Local Open Scope nat_scope.

Lemma slotId_vacate_slot i sl : slotId (vacate_slot i sl) = slotId sl.
Proof. unfold vacate_slot. by case_decide. Qed.

Lemma slotId_evict_slot i sl : slotId (evict_slot i sl) = slotId sl.
Proof. unfold evict_slot. by case_decide. Qed.

Lemma after_eviction_tray s k slot i :
  wf s → slots s !! k = Some slot →
  tray (after_eviction i slot s) = tray s ++ evicted i slot
  ∧ pieces (after_eviction i slot s)
    = foldr (λ o, alter (set_placedSlot (Some "")) o) (pieces s)
        (evicted i slot).
Proof.
  intros Hwf Hk. unfold after_eviction, evicted.
  destruct (querySelector_piece slot) as [o|] eqn:Ho;
    [|by rewrite app_nil_r].
  case_decide; [|by rewrite app_nil_r]. simpl. split; [|done].
  rewrite remove_node_notin; [done|]. intros Hin.
  apply (tree_tray_slot s k slot o); [by apply wf_tree|done..|].
  unfold querySelector_piece in Ho. apply head_Some in Ho as [l ->].
  constructor.
Qed.

(** The full effect of a drop on a slot, in a well-formed state. *)
Lemma handleDropOnSlot_effect s k slot id i :
  wf s → slots s !! k = Some slot → find_piece s id = Some i →
  let s' := (handleDropOnSlot k id s).1 in
  slots s' !! k = Some (Slot (slotId slot) [i] true false)
  ∧ (∀ j, j ≠ k → slots s' !! j = vacate_slot i <$> slots s !! j)
  ∧ tray s' = remove_node i (tray s) ++ evicted i slot
  ∧ pieces s' = pieces_after_drop i slot (pieces s).
Proof.
  intros Hwf Hk Hf. cbv zeta.
  destruct (handleDropOnSlot_board s k slot id i Hwf Hk Hf) as (Ht & Hs & _).
  destruct (after_eviction_target s k slot i Hwf Hk) as (sl' & Hsl' & He & Hid).
  destruct (after_eviction_tray s k slot i Hwf Hk) as (Ht1 & Hp1).
  split; [|split; [|split]].
  - rewrite Hs, !list_lookup_alter_eq, list_lookup_fmap, Hsl'.
    cbn [fmap option_fmap option_map]. f_equal.
    unfold set_drag_over, receive. cbn [slotId children filled drag_over].
    by rewrite children_vacate_slot, He, slotId_vacate_slot, Hid.
  - intros j Hj. rewrite Hs, !list_lookup_alter_ne, list_lookup_fmap by done.
    by rewrite (after_eviction_other s k slot i j).
  - rewrite Ht, Ht1. unfold remove_node. rewrite filter_app. f_equal.
    unfold evicted. destruct (querySelector_piece slot) as [o|]; [|done].
    case_decide; [|done]. by rewrite filter_cons_True.
  - rewrite (handleDropOnSlot_tree s k slot id i) by done.
    destruct (checkCompletion_board
      (setStatus MSG_PLACED (update_slot k (set_drag_over false)
         (placed_in_slot i k (after_eviction i slot s))))) as (_ & _ & ->).
    destruct (setStatus_board MSG_PLACED
      (update_slot k (set_drag_over false)
         (placed_in_slot i k (after_eviction i slot s)))) as (_ & _ & ->).
    simpl. unfold pieces_after_drop. by rewrite Hsl', Hp1, <- Hid.
Qed.

(** The full effect of a drop on the tray, in a well-formed state. *)
Lemma handleDropOnTray_effect s id i :
  wf s → find_piece s id = Some i →
  let s' := (handleDropOnTray id s).1 in
  slots s' = evict_slot i <$> slots s
  ∧ tray s' = remove_node i (tray s) ++ [i]
  ∧ pieces s' = alter (set_placedSlot (Some "")) i (pieces s).
Proof.
  intros Hwf Hf. cbv zeta. rewrite (handleDropOnTray_tree s id i) by done.
  destruct (checkCompletion_board (setStatus MSG_RETURNED (moved_to_tray i s)))
    as (-> & -> & ->).
  by destruct (setStatus_board MSG_RETURNED (moved_to_tray i s))
    as (-> & -> & ->).
Qed.

End EffectFacts.

(* ===================================================================== *)
(** * The [filled] class and [placedSlot] follow the pieces *)
(* ===================================================================== *)

Section Tracks.
Import Dom Puzzle Model Frame Effects.
Local Open Scope nat_scope.

Lemma single_elem (l : list nat) i : length l ≤ 1 → i ∈ l → l = [i].
Proof.
  destruct l as [|x [|y l]]; simpl; intros Hl Hi; [by apply elem_of_nil in Hi| |lia].
  apply list_elem_of_singleton in Hi. by subst.
Qed.

Lemma wf_children_of s k sl i :
  wf s → slots s !! k = Some sl → i ∈ children sl → children sl = [i].
Proof.
  intros Hwf Hk Hi. apply single_elem; [|done]. by apply (wf_slot_single s k).
Qed.

Lemma elem_of_evicted o i slot :
  o ∈ evicted i slot ↔ querySelector_piece slot = Some o ∧ o ≠ i.
Proof.
  unfold evicted. destruct (querySelector_piece slot) as [o'|].
  - case_decide as Hne.
    + rewrite list_elem_of_singleton. split; [by intros ->|]. by intros [[= ->] _].
    + split; [by intros ?%elem_of_nil|]. intros [[= ->] Hne']. by subst.
  - split; [by intros ?%elem_of_nil|]. by intros [? _].
Qed.

Lemma evicted_in_slot o i slot : o ∈ evicted i slot → o ∈ children slot.
Proof.
  intros [Ho _]%elem_of_evicted. unfold querySelector_piece in Ho.
  apply head_Some in Ho as [l ->]. constructor.
Qed.

Lemma lookup_pieces_after_drop i slot (l : list piece) j :
  pieces_after_drop i slot l !! j
  = (if decide (j = i) then set_placedSlot (Some (slotId slot))
     else if decide (j ∈ evicted i slot) then set_placedSlot (Some "")
     else λ p, p) <$> l !! j.
Proof.
  unfold pieces_after_drop.
  assert (Hin : ∀ o, o ∈ evicted i slot → o ≠ i)
    by (by intros o [_ ?]%elem_of_evicted).
  assert (Hfold : foldr (λ o, alter (set_placedSlot (Some "")) o) l
                    (evicted i slot) !! j
    = (if decide (j ∈ evicted i slot) then set_placedSlot (Some "")
       else λ p, p) <$> l !! j).
  { destruct (decide (j ∈ evicted i slot)) as [Hj|Hj];
      unfold evicted in *; destruct (querySelector_piece slot) as [o|];
      try case_decide; cbn [foldr] in *;
      try (by apply elem_of_nil in Hj); try (by destruct (l !! j)).
    - apply list_elem_of_singleton in Hj as ->. by rewrite list_lookup_alter_eq.
    - rewrite list_lookup_alter_ne; [by destruct (l !! j)|].
      intros ->. apply Hj. constructor. }
  destruct (decide (j = i)) as [->|Hji].
  - rewrite list_lookup_alter_eq, Hfold.
    rewrite decide_False; [by destruct (l !! i)|].
    intros Hi. by apply (Hin i).
  - by rewrite list_lookup_alter_ne, Hfold.
Qed.

(** ** Sending a piece to the tray *)

Lemma filled_tracks_evict s i :
  wf s → filled_tracks s →
  ∀ k sl', (evict_slot i <$> slots s) !! k = Some sl' →
    (filled sl' = true ↔ children sl' ≠ []).
Proof.
  intros Hwf Hft k sl' Hk. rewrite list_lookup_fmap in Hk.
  destruct (slots s !! k) as [sl|] eqn:Hsl; simplify_eq/=.
  unfold evict_slot. case_decide as Hi; [|by apply (Hft k)]. simpl.
  rewrite (wf_children_of s k sl i), remove_node_singleton by done. done.
Qed.

Lemma placedSlot_tracks_moved s i :
  wf s → placedSlot_tracks s →
  ∀ j p', alter (set_placedSlot (Some "")) i (pieces s) !! j = Some p' →
    (∀ k sl', (evict_slot i <$> slots s) !! k = Some sl' → j ∈ children sl' →
       placedSlot p' = Some (slotId sl'))
    ∧ (j ∈ remove_node i (tray s) ++ [i] →
       placedSlot p' = None ∨ placedSlot p' = Some "").
Proof.
  intros Hwf Hpt j p' Hj.
  destruct (decide (i = j)) as [->|Hne].
  - rewrite list_lookup_alter_eq in Hj.
    destruct (pieces s !! j) as [p|] eqn:Hp; simplify_eq/=. split; [|by right].
    intros k sl' Hk Hin. rewrite list_lookup_fmap in Hk.
    destruct (slots s !! k) as [sl|]; simplify_eq/=.
    rewrite children_evict_slot, elem_of_remove_node in Hin. by destruct Hin.
  - rewrite list_lookup_alter_ne in Hj by done.
    destruct (Hpt j p' Hj) as [Ha Hb]. split.
    + intros k sl' Hk Hin. rewrite list_lookup_fmap in Hk.
      destruct (slots s !! k) as [sl|] eqn:Hsl; simplify_eq/=.
      rewrite children_evict_slot, elem_of_remove_node in Hin.
      destruct Hin as [_ Hin]. rewrite slotId_evict_slot. by apply (Ha k).
    + intros Hin. apply Hb. apply elem_of_app in Hin as [Hin|Hin].
      * by apply elem_of_remove_node in Hin as [_ ?].
      * apply list_elem_of_singleton in Hin. by subst.
Qed.

Lemma handleDropOnTray_tracks s id :
  wf s → filled_tracks s → placedSlot_tracks s →
  filled_tracks (handleDropOnTray id s).1
  ∧ placedSlot_tracks (handleDropOnTray id s).1.
Proof.
  intros Hwf Hft Hpt.
  destruct (find_piece s id) as [i|] eqn:Hf;
    [|by unfold handleDropOnTray; rewrite Hf].
  destruct (handleDropOnTray_effect s id i Hwf Hf) as (Hs & Ht & Hp).
  split.
  - intros k sl' Hk. rewrite Hs in Hk. by apply (filled_tracks_evict s i Hwf Hft k).
  - intros j p' Hj. rewrite Hp in Hj. rewrite Hs, Ht.
    by apply (placedSlot_tracks_moved s i).
Qed.

(** ** Dropping a piece on a slot *)

Lemma handleDropOnSlot_tracks s k id :
  wf s → filled_tracks s → placedSlot_tracks s →
  filled_tracks (handleDropOnSlot k id s).1
  ∧ placedSlot_tracks (handleDropOnSlot k id s).1.
Proof.
  intros Hwf Hft Hpt.
  destruct (slots s !! k) as [slot|] eqn:Hk;
    [|by unfold handleDropOnSlot; rewrite Hk].
  destruct (find_piece s id) as [i|] eqn:Hf;
    [|by unfold handleDropOnSlot; rewrite Hk, Hf].
  destruct (handleDropOnSlot_effect s k slot id i Hwf Hk Hf)
    as (Hsk & Hsj & Ht & Hp).
  set (s' := (handleDropOnSlot k id s).1) in *.
  assert (Hslot : ∀ j sl', slots s' !! j = Some sl' → j ≠ k →
    ∃ sl, slots s !! j = Some sl ∧ sl' = vacate_slot i sl).
  { intros j sl' Hj Hne. rewrite Hsj in Hj by done.
    destruct (slots s !! j) as [sl|]; simplify_eq/=. by exists sl. }
  split.
  - intros j sl' Hj. destruct (decide (j = k)) as [->|Hne].
    + rewrite Hsk in Hj. by simplify_eq/=.
    + destruct (Hslot j sl' Hj Hne) as (sl & Hsl & ->).
      unfold vacate_slot. case_decide as Hi; [|by apply (Hft j)]. simpl.
      rewrite (wf_children_of s j sl i), remove_node_singleton by done. done.
  - intros j p' Hj. rewrite Hp, lookup_pieces_after_drop in Hj.
    destruct (pieces s !! j) as [p|] eqn:Hpj; simplify_eq/=.
    destruct (Hpt j p Hpj) as [Ha Hb].
    split.
    + intros j' sl' Hj' Hin. destruct (decide (j' = k)) as [->|Hne].
      * rewrite Hsk in Hj'. simplify_eq/=.
        apply list_elem_of_singleton in Hin as ->. by rewrite decide_True.
      * destruct (Hslot j' sl' Hj' Hne) as (sl & Hsl & ->).
        rewrite children_vacate_slot, elem_of_remove_node in Hin.
        destruct Hin as [Hji Hin]. rewrite slotId_vacate_slot.
        rewrite decide_False by done. rewrite decide_False; [by apply (Ha j')|].
        intros He%evicted_in_slot.
        apply Hne, (tree_slot_unique s j' k sl slot j);
          [by apply wf_tree|done..].
    + rewrite Ht. intros Hin. apply elem_of_app in Hin as [Hin|Hin].
      * apply elem_of_remove_node in Hin as [Hji Hin].
        rewrite decide_False by done. rewrite decide_False; [by apply Hb|].
        intros He%evicted_in_slot.
        apply (tree_tray_slot s k slot j); [by apply wf_tree|done..].
      * pose proof Hin as [_ Hji]%elem_of_evicted.
        rewrite decide_False by done. rewrite decide_True by done. by right.
Qed.

End Tracks.

Section TracksRun.
Import Dom Puzzle Model Frame Effects.
Local Open Scope nat_scope.

Lemma placedSlot_tracks_flags s k (g : slot → slot) :
  (∀ sl, slotId (g sl) = slotId sl) → (∀ sl, children (g sl) = children sl) →
  placedSlot_tracks s → placedSlot_tracks (update_slot k g s).
Proof.
  intros Hid Hch Hpt j p Hj. destruct (Hpt j p Hj) as [Ha Hb].
  split; [|done]. intros k' sl' Hk' Hin. simpl in Hk'.
  destruct (decide (k = k')) as [->|Hne].
  - rewrite list_lookup_alter_eq in Hk'.
    destruct (slots s !! k') as [sl|] eqn:Hsl; simplify_eq/=.
    rewrite Hid. rewrite Hch in Hin. by apply (Ha k').
  - rewrite list_lookup_alter_ne in Hk' by done. by apply (Ha k').
Qed.

Lemma clearSlot_tracks s k :
  wf s → placedSlot_tracks s → k < length (slots s) →
  placedSlot_tracks (clearSlot s k).
Proof.
  intros Hwf Hpt Hk. unfold clearSlot.
  apply placedSlot_tracks_flags; [done..|].
  destruct (slots s !! k ≫= querySelector_piece) as [o|]; [|done].
  rewrite movePieceToTray_tree by by apply wf_tree.
  intros j p' Hj. by apply (placedSlot_tracks_moved s o Hwf Hpt j p' Hj).
Qed.

Lemma clearSlots_tracks s m :
  wf s → placedSlot_tracks s → m ≤ length (slots s) →
  placedSlot_tracks (foldl clearSlot s (seq 0 m)).
Proof.
  intros Hwf Hpt. induction m as [|m IH]; intros Hm; [done|].
  rewrite seq_S, foldl_app. simpl foldl.
  destruct (clearSlots_spec s m Hwf ltac:(lia)) as (Hwf1 & Hl1 & _).
  apply clearSlot_tracks; [done|apply IH; lia|]. rewrite Hl1. lia.
Qed.

(** [shufflePieces] as one assignment: the slots and pieces are those left
    by the first loop, and the tray is the shuffled array. *)
Lemma shufflePieces_form s random :
  wf s →
  let s1 := foldl clearSlot s (seq 0 (length (slots s))) in
  let n := length (pieces s) in
  shufflePieces random s
  = setStatus MSG_SHUFFLED
      (set_tray (fisherYates random 0 (n - 1) (seq 0 n)) s1)
  ∧ wf s1 ∧ Forall blank (slots s1) ∧ nodes s1 = tray s1.
Proof.
  intros Hwf. cbv zeta. unfold shufflePieces.
  destruct (clearSlots_spec s (length (slots s)) Hwf ltac:(done))
    as (Hwf1 & Hl1 & Hs1 & Hp1 & Hc1 & Hb1).
  set (s1 := foldl clearSlot s (seq 0 (length (slots s)))) in *.
  assert (Hn : length (pieces s1) = length (pieces s))
    by by apply (fmap_length_eq pieceId).
  rewrite Hn. set (n := length (pieces s)) in *.
  set (shuffled := fisherYates random 0 (n - 1) (seq 0 n)).
  assert (Hblank : Forall blank (slots s1)).
  { apply Forall_lookup. intros j sl Hj. apply (Hb1 j sl); [|done].
    rewrite <- Hl1. by eapply lookup_lt_Some. }
  assert (Hempty : Forall (λ sl, children sl = []) (slots s1)).
  { eapply Forall_impl; [exact Hblank|]. by intros sl (Hc & _). }
  assert (Hnodes1 : nodes s1 = tray s1).
  { unfold nodes. by rewrite bind_children_nil, app_nil_r. }
  assert (Htray1 : tray s1 ≡ₚ seq 0 n).
  { rewrite <- Hnodes1, (wf_nodes s1 Hwf1). by rewrite Hn. }
  assert (Hsh : shuffled ≡ₚ seq 0 n) by apply fisherYates_Permutation.
  split; [|done]. f_equal.
  rewrite foldl_appendChild_tray.
  2: done.
  2:{ rewrite Htray1. apply NoDup_seq. }
  f_equal. rewrite foldl_move_to_end by (rewrite Hsh; apply NoDup_seq).
  rewrite filter_none; [done|].
  intros x Hx Hnot. apply Hnot. by rewrite Hsh, <- Htray1.
Qed.

Lemma shufflePieces_tracks s random :
  wf s → placedSlot_tracks s →
  filled_tracks (shufflePieces random s)
  ∧ placedSlot_tracks (shufflePieces random s).
Proof.
  intros Hwf Hpt.
  destruct (shufflePieces_form s random Hwf) as (Hform & Hwf1 & Hblank & Hnodes).
  pose proof (clearSlots_tracks s (length (slots s)) Hwf Hpt ltac:(done)) as Hpt1.
  set (s1 := foldl clearSlot s (seq 0 (length (slots s)))) in *.
  rewrite Hform, setStatus_eq.
  rewrite Forall_lookup in Hblank.
  split.
  - intros k sl Hk. simpl in Hk. destruct (Hblank k sl Hk) as (-> & -> & _).
    done.
  - intros j p Hj. simpl in Hj. split.
    + intros k sl Hk Hin. simpl in Hk.
      destruct (Hblank k sl Hk) as (Hc & _). rewrite Hc in Hin.
      by apply elem_of_nil in Hin.
    + intros _. destruct (Hpt1 j p Hj) as [_ Hb]. apply Hb.
      rewrite <- Hnodes. apply (wf_elem_of_nodes s1 j Hwf1).
      by eapply lookup_lt_Some.
Qed.

Lemma assemble_placedSlot_tracks N st : placedSlot_tracks (assemble N st).
Proof.
  intros j p Hj. split.
  - intros k sl Hk Hin. simpl in Hk. unfold rebuildBoard in Hk.
    rewrite list_lookup_fmap in Hk.
    destruct (seq 0 (N * N) !! k); simplify_eq/=. by apply elem_of_nil in Hin.
  - intros _. left.
    pose proof (lookup_lt_Some _ _ _ Hj) as Hlt.
    rewrite length_pieces_assemble in Hlt.
    rewrite lookup_pieces_assemble in Hj by done. by simplify_eq/=.
Qed.

Lemma initPuzzle_tracks W H st random :
  filled_tracks (initPuzzle W H st random)
  ∧ placedSlot_tracks (initPuzzle W H st random).
Proof.
  unfold initPuzzle, loadPuzzle.
  set (s0 := assemble (Z.to_nat (Grid.computeBoardSize W H)) st).
  destruct (shufflePieces_tracks s0 random (assemble_wf _ _)
              (assemble_placedSlot_tracks _ _)) as [Hft Hpt].
  rewrite setStatus_eq. split.
  - intros k sl Hk. by apply (Hft k).
  - intros j p Hj. by apply (Hpt j).
Qed.

Lemma step_tracks s o :
  wf s → filled_tracks s → placedSlot_tracks s →
  filled_tracks (step s o) ∧ placedSlot_tracks (step s o).
Proof.
  intros Hwf Hft Hpt. destruct o as [k id|id|random]; simpl.
  - by apply handleDropOnSlot_tracks.
  - by apply handleDropOnTray_tracks.
  - by apply shufflePieces_tracks.
Qed.

Lemma run_tracks ops s :
  wf s → filled_tracks s → placedSlot_tracks s →
  filled_tracks (run ops s) ∧ placedSlot_tracks (run ops s).
Proof.
  unfold run. revert s. induction ops as [|o ops IH]; intros s Hwf Hft Hpt;
    [done|].
  simpl. destruct (step_tracks s o Hwf Hft Hpt) as [Hft' Hpt'].
  apply IH; [by apply step_wf|done..].
Qed.

(** X8: the [filled] class and the [placedSlot] attribute follow the
    pieces.  In every state the game reaches, a slot carries [filled]
    exactly when it shows a piece; a piece that lies on a slot has that
    slot's id as its [placedSlot]; and a piece in the tray has an empty
    [placedSlot], or none at all if it was never moved. *)
Theorem classes_follow_pieces (W H : Z) (st : option string)
    (random : nat → N) (ops : list op) :
  let s := run ops (initPuzzle W H st random) in
  (∀ k sl, slots s !! k = Some sl →
     (filled sl = true ↔ is_Some (querySelector_piece sl)))
  ∧ (∀ i p k sl, pieces s !! i = Some p → slots s !! k = Some sl →
       i ∈ children sl → placedSlot p = Some (slotId sl))
  ∧ (∀ i p, pieces s !! i = Some p → i ∈ tray s →
       placedSlot p = None ∨ placedSlot p = Some "").
Proof.
  intros s.
  destruct (initPuzzle_tracks W H st random) as [Hft0 Hpt0].
  destruct (run_tracks ops _ (initPuzzle_wf W H st random) Hft0 Hpt0)
    as [Hft Hpt].
  fold s in Hft, Hpt. split; [|split].
  - intros k sl Hk. rewrite (Hft k sl Hk). unfold querySelector_piece.
    destruct (children sl); simpl; split; try done;
      first [by intros [? ?]|intros _; by eexists].
  - intros i p k sl Hi Hk Hin. by apply (proj1 (Hpt i p Hi) k).
  - intros i p Hi Hin. by apply (proj2 (Hpt i p Hi)).
Qed.

End TracksRun.


(* ===================================================================== *)
(** * What holds in every state the game reaches *)
(* ===================================================================== *)

Section ReachFacts.
Import Dom Puzzle Model Frame Effects Reach.
Local Open Scope nat_scope.

Lemma home_frame s s' : same_frame s s' → home s → home s'.
Proof.
  intros (_ & _ & Hs & Hp) [Hl Hh]. split.
  - by rewrite (fmap_length_eq slotId _ _ Hs),
      (fmap_length_eq piece_static _ _ Hp).
  - intros k sl' p' Hk Hpk.
    assert (H1 : (slotId <$> slots s') !! k = Some (slotId sl'))
      by (by rewrite list_lookup_fmap, Hk).
    assert (H2 : (piece_static <$> pieces s') !! k = Some (piece_static p'))
      by (by rewrite list_lookup_fmap, Hpk).
    rewrite Hs, list_lookup_fmap in H1. rewrite Hp, list_lookup_fmap in H2.
    destruct (slots s !! k) as [sl|] eqn:Esl; [|done].
    destruct (pieces s !! k) as [p|] eqn:Ep; [|done].
    destruct (Hh k sl p Esl Ep) as [Ha Hb].
    injection H1 as H1. injection H2 as H2 H3 H4. split; congruence.
Qed.

Lemma home_assemble N st : home (assemble N st).
Proof.
  split.
  - rewrite length_pieces_assemble. apply length_rebuildBoard.
  - intros k sl p Hk Hp.
    pose proof (lookup_lt_Some _ _ _ Hp) as Hlt.
    rewrite length_pieces_assemble in Hlt.
    rewrite lookup_pieces_assemble in Hp by done.
    change (slots (assemble N st)) with (rebuildBoard N) in Hk.
    rewrite lookup_rebuildBoard in Hk by done. by simplify_eq/=.
Qed.

(** ** The status node stays or stays away *)

Lemma statusNode_detach i s : statusNode (detach i s) = statusNode s.
Proof. unfold detach. by destruct (parentElement s i) as [[|?]|]. Qed.

Lemma statusNode_appendChild t i s :
  statusNode (appendChild t i s) = statusNode s.
Proof. unfold appendChild. destruct t; simpl; apply statusNode_detach. Qed.

Lemma statusNode_movePieceToTray i s :
  statusNode (movePieceToTray i s) = statusNode s.
Proof.
  unfold movePieceToTray. cbn [update_piece set_pieces statusNode].
  rewrite statusNode_appendChild. by destruct (parentElement s i) as [[|?]|].
Qed.

Lemma statusNode_placePieceInSlot i k s :
  statusNode (placePieceInSlot i k s) = statusNode s.
Proof.
  unfold placePieceInSlot.
  cbn [update_piece set_pieces update_slot set_slots statusNode].
  rewrite statusNode_appendChild. by destruct (parentElement s i) as [[|?]|].
Qed.

Lemma has_status_setStatus m s :
  is_Some (statusNode (setStatus m s)) ↔ is_Some (statusNode s).
Proof.
  unfold setStatus. destruct (statusNode s) as [t|] eqn:E; [|by rewrite E].
  simpl. split; eauto.
Qed.

Lemma has_status_checkCompletion s :
  is_Some (statusNode (checkCompletion s)) ↔ is_Some (statusNode s).
Proof.
  unfold checkCompletion.
  destruct (allCorrect s && allFilled s); [apply has_status_setStatus|].
  destruct (allFilled s); [apply has_status_setStatus|done].
Qed.

Lemma has_status_clearSlot s k :
  statusNode (clearSlot s k) = statusNode s.
Proof.
  unfold clearSlot. cbn [update_slot set_slots statusNode].
  destruct (slots s !! k ≫= querySelector_piece); [|done].
  apply statusNode_movePieceToTray.
Qed.

Lemma has_status_step s o :
  is_Some (statusNode (step s o)) ↔ is_Some (statusNode s).
Proof.
  destruct o as [k id|id|random]; simpl.
  - unfold handleDropOnSlot. destruct (slots s !! k) as [slot|]; [|done].
    destruct (find_piece s id) as [i|]; [|done]. simpl.
    rewrite has_status_checkCompletion, has_status_setStatus.
    cbn [update_slot set_slots statusNode].
    rewrite statusNode_placePieceInSlot.
    destruct (querySelector_piece slot) as [o|]; [|done].
    case_decide; [|done]. by rewrite statusNode_movePieceToTray.
  - unfold handleDropOnTray. destruct (find_piece s id) as [i|]; [|done].
    simpl. rewrite has_status_checkCompletion, has_status_setStatus.
    by rewrite statusNode_movePieceToTray.
  - unfold shufflePieces. rewrite has_status_setStatus.
    set (sh := fisherYates _ _ _ _). clearbody sh.
    assert (H1 : ∀ l u, statusNode (foldl clearSlot u l) = statusNode u).
    { induction l as [|k l IH]; intros u; [done|].
      cbn [foldl]. by rewrite IH, has_status_clearSlot. }
    rewrite <- (H1 (seq 0 (length (slots s))) s).
    generalize (foldl clearSlot s (seq 0 (length (slots s)))).
    induction sh as [|x sh IH]; intros s1; [done|].
    cbn [foldl]. by rewrite IH, statusNode_appendChild.
Qed.

Lemma has_status_run ops s :
  is_Some (statusNode (run ops s)) ↔ is_Some (statusNode s).
Proof.
  unfold run. revert s. induction ops as [|o ops IH]; intros s; [done|].
  simpl. by rewrite IH, has_status_step.
Qed.

Lemma has_status_initPuzzle W H st random :
  is_Some (statusNode (initPuzzle W H st random)) ↔ is_Some st.
Proof.
  unfold initPuzzle. rewrite has_status_setStatus.
  apply (has_status_step (loadPuzzle W H st) (Shuffle random)).
Qed.

(** Everything the later sections need of a reachable state. *)
Lemma reach_inv W H st random ops :
  let s := run ops (initPuzzle W H st random) in
  wf s ∧ filled_tracks s ∧ placedSlot_tracks s ∧ home s
  ∧ (is_Some (statusNode s) ↔ is_Some st).
Proof.
  intros s.
  destruct (initPuzzle_tracks W H st random) as [Hft0 Hpt0].
  destruct (run_tracks ops _ (initPuzzle_wf W H st random) Hft0 Hpt0)
    as [Hft Hpt].
  split; [apply run_wf, initPuzzle_wf|]. split; [done|]. split; [done|].
  split.
  - apply (home_frame (assemble (Z.to_nat (Grid.computeBoardSize W H)) st));
      [|apply home_assemble].
    eapply same_frame_trans; [apply same_frame_initPuzzle|].
    apply same_frame_run.
  - unfold s. by rewrite has_status_run, has_status_initPuzzle.
Qed.

(** ** A piece in the tray leaves a slot empty *)

Lemma length_bind_children (l : list slot) :
  Forall (λ sl, length (children sl) = 1) l →
  length (l ≫= children) = length l.
Proof.
  induction 1 as [|sl l Hsl _ IH]; [done|].
  rewrite bind_cons, length_app, Hsl, IH. done.
Qed.

Lemma tray_member_some_empty s i :
  wf s → length (slots s) = length (pieces s) → i ∈ tray s → SomeEmpty s.
Proof.
  intros Hwf Hl Hi. apply not_AllFilled. intros Hf.
  assert (Hone : Forall (λ sl, length (children sl) = 1) (slots s)).
  { apply Forall_forall. intros sl Hsl.
    pose proof (Hf sl Hsl) as [o Ho].
    apply list_elem_of_lookup in Hsl as [k Hk].
    pose proof (wf_slot_single s k sl Hwf Hk) as Hle.
    unfold querySelector_piece in Ho.
    destruct (children sl) as [|x l]; [done|]. simpl in *. lia. }
  pose proof (wf_nodes s Hwf) as Hn. apply Permutation_length in Hn.
  unfold nodes in Hn.
  rewrite length_app, (length_bind_children _ Hone), length_seq in Hn.
  destruct (tray s); [by apply elem_of_nil in Hi|]. simpl in Hn. lia.
Qed.

Lemma checkCompletion_some_empty s : SomeEmpty s → checkCompletion s = s.
Proof.
  intros He. pose proof (SomeEmpty_not_AllFilled s He) as Hn.
  by destruct (checkCompletion_cases s)
    as [(Hf & _)|[(Hf & _)|(_ & ->)]].
Qed.

(** In a reachable state a drop on the tray stops at its own message. *)
Lemma handleDropOnTray_plain s id i :
  wf s → length (slots s) = length (pieces s) → find_piece s id = Some i →
  (handleDropOnTray id s).1 = setStatus MSG_RETURNED (moved_to_tray i s)
  ∧ SomeEmpty (handleDropOnTray id s).1.
Proof.
  intros Hwf Hl Hf.
  pose proof (handleDropOnTray_wf s id Hwf) as Hwf'.
  destruct (handleDropOnTray_effect s id i Hwf Hf) as (Hs & Ht & Hp).
  assert (He : SomeEmpty (handleDropOnTray id s).1).
  { apply (tray_member_some_empty _ i); [done| |].
    - by rewrite Hs, Hp, length_fmap, length_alter.
    - rewrite Ht. apply elem_of_app. right. constructor. }
  split; [|done].
  rewrite (handleDropOnTray_tree s id i Hwf Hf) in He |- *.
  apply checkCompletion_some_empty.
  destruct He as (sl & Hsl & Hq).
  destruct (checkCompletion_board (setStatus MSG_RETURNED (moved_to_tray i s)))
    as (_ & Hs' & _).
  rewrite Hs' in Hsl. by exists sl.
Qed.

Lemma vacate_slot_notin i sl : i ∉ children sl → vacate_slot i sl = sl.
Proof. intros Hi. unfold vacate_slot. by case_decide. Qed.

Lemma evict_slot_notin i sl : i ∉ children sl → evict_slot i sl = sl.
Proof. intros Hi. unfold evict_slot. by case_decide. Qed.

Lemma evict_slot_single i sl :
  children sl = [i] → evict_slot i sl = Slot (slotId sl) [] false false.
Proof.
  intros Hc. unfold evict_slot. rewrite Hc.
  rewrite decide_True by constructor.
  by rewrite remove_node_singleton.
Qed.

(** The slots after a piece left the one slot it was on. *)
Lemma evict_slots_at s X i sl :
  wf s → slots s !! X = Some sl → children sl = [i] →
  evict_slot i <$> slots s
  = alter (λ sl, Slot (slotId sl) [] false false) X (slots s).
Proof.
  intros Hwf HX Hc. apply list_eq. intros j.
  rewrite list_lookup_fmap. destruct (decide (j = X)) as [->|Hne].
  - rewrite list_lookup_alter_eq, HX. simpl. f_equal.
    by apply evict_slot_single.
  - rewrite list_lookup_alter_ne by done.
    destruct (slots s !! j) as [sl'|] eqn:Hj; [|done]. simpl. f_equal.
    apply evict_slot_notin. intros Hin. apply Hne.
    apply (tree_slot_unique s j X sl' sl i); [by apply wf_tree|done..|].
    rewrite Hc. constructor.
Qed.

Lemma evict_slots_tray s i :
  wf s → i ∈ tray s → evict_slot i <$> slots s = slots s.
Proof.
  intros Hwf Hi. apply list_eq. intros j. rewrite list_lookup_fmap.
  destruct (slots s !! j) as [sl|] eqn:Hj; [|done]. simpl. f_equal.
  apply evict_slot_notin. apply (tree_tray_slot s j sl i); [|done..].
  by apply wf_tree.
Qed.

Lemma reach_pieces_count W H st random ops :
  4 ≤ length (pieces (run ops (initPuzzle W H st random))) ≤ 49.
Proof.
  pose proof (same_frame_trans _ _ _
    (same_frame_initPuzzle W H st random)
    (same_frame_run (initPuzzle W H st random) ops)) as (_ & _ & _ & Hp).
  apply (fmap_length_eq piece_static) in Hp. rewrite Hp.
  unfold loadPuzzle. rewrite length_pieces_assemble.
  pose proof (clamp_range
    (Grid.or_else (Grid.approximatePiecesPerSide (W * H))
       Grid.MIN_BOARD_SIZE)) as Hc.
  unfold Grid.computeBoardSize, Grid.MIN_BOARD_SIZE, Grid.MAX_BOARD_SIZE
    in *. nia.
Qed.

End ReachFacts.

(* ===================================================================== *)
(** * A drop on the tray of a piece that is in the tray *)
(* ===================================================================== *)

Section Held.
Import Dom Puzzle Model Frame Reach.
Local Open Scope nat_scope.




End Held.


(* ===================================================================== *)
(** * More on the drop handlers *)
(* ===================================================================== *)

Section HandlerMore.
Import Dom Puzzle Model Frame Effects Reach.
Local Open Scope nat_scope.

Lemma alter_fixed {A} (f : A → A) i (l : list A) :
  (∀ x, l !! i = Some x → f x = x) → alter f i l = l.
Proof.
  intros Hf. apply list_eq. intros j. destruct (decide (i = j)) as [<-|Hne].
  - rewrite list_lookup_alter_eq. destruct (l !! i) as [x|] eqn:Hx; [|done].
    simpl. f_equal. by apply Hf.
  - by rewrite list_lookup_alter_ne.
Qed.

Lemma remove_node_tray_slot s k sl i :
  wf s → slots s !! k = Some sl → i ∈ children sl →
  remove_node i (tray s) = tray s.
Proof.
  intros Hwf Hk Hi. apply remove_node_notin. intros Ht.
  by apply (tree_tray_slot s k sl i (wf_tree s Hwf) Ht Hk).
Qed.

Lemma vacate_slots_elsewhere s k slot i :
  wf s → slots s !! k = Some slot → children slot = [i] →
  alter (receive i) k (vacate_slot i <$> slots s)
  = alter (λ sl, Slot (slotId sl) [i] true (drag_over sl)) k (slots s).
Proof.
  intros Hwf Hk Hc. apply list_eq. intros j.
  destruct (decide (k = j)) as [<-|Hne].
  - rewrite !list_lookup_alter_eq, list_lookup_fmap, Hk. simpl. f_equal.
    unfold receive, vacate_slot. rewrite Hc.
    rewrite decide_True by constructor. simpl.
    by rewrite remove_node_singleton.
  - rewrite !list_lookup_alter_ne, list_lookup_fmap by done.
    destruct (slots s !! j) as [sl|] eqn:Hj; [|done]. simpl. f_equal.
    apply vacate_slot_notin. intros Hin. apply Hne.
    apply (tree_slot_unique s k j slot sl i); [by apply wf_tree|done..| |done].
    rewrite Hc. constructor.
Qed.

(** A drop of a piece on the slot it already lies on, in a state where the
    class and the attribute follow the pieces. *)
Lemma handleDropOnSlot_same s k i id :
  wf s → filled_tracks s → placedSlot_tracks s →
  occupant s k = Some i → find_piece s id = Some i →
  (handleDropOnSlot k id s).1
  = checkCompletion
      (setStatus MSG_PLACED (update_slot k (set_drag_over false) s)).
Proof.
  intros Hwf Hft Hpt Ho Hf.
  destruct (occupant_Some s k i Hwf Ho) as (slot & Hk & Hc).
  rewrite (handleDropOnSlot_tree s k slot id i Hwf Hk Hf).
  do 3 f_equal.
  assert (Hq : querySelector_piece slot = Some i)
    by (unfold querySelector_piece; by rewrite Hc).
  unfold after_eviction. rewrite Hq. rewrite decide_False by naive_solver.
  unfold placed_in_slot.
  assert (Hin : i ∈ children slot) by (rewrite Hc; constructor).
  rewrite (remove_node_tray_slot s k slot i Hwf Hk Hin).
  rewrite (vacate_slots_elsewhere s k slot i Hwf Hk Hc).
  rewrite (alter_fixed _ k (slots s)).
  2:{ intros sl Hsl. assert (sl = slot) as -> by congruence.
      pose proof (proj2 (Hft k _ Hk)) as Hfl.
      destruct slot as [sid ch fl dr]. simpl in *. subst ch.
      by rewrite Hfl. }
  rewrite (alter_fixed _ i (pieces s)).
  2:{ intros p Hp. rewrite Hk. simpl.
      pose proof (proj1 (Hpt i p Hp) k slot Hk Hin) as Hps.
      destruct p as [pid cs ps bg]. simpl in *. unfold set_placedSlot. simpl.
      by rewrite Hps. }
  by destruct s.
Qed.

(** X9: dropping a piece on the very slot it already lies on moves
    nothing.  In every state the game reaches, if slot [k] shows piece [i]
    and the drag carries the id of [i], the handler changes only the
    [drag-over] class of slot [k], which it removes, and the status line:
    the tray, the pieces with their attributes and the children and
    [filled] classes of all slots are as before. *)
Theorem drop_on_own_slot (W H : Z) (st : option string) (random : nat → N)
    (ops : list op) (k i : nat) (id : string) :
  let s := run ops (initPuzzle W H st random) in
  occupant s k = Some i →
  pieceId <$> pieces s !! i = Some id →
  let s' := (handleDropOnSlot k id s).1 in
  s' = checkCompletion
         (setStatus MSG_PLACED (update_slot k (set_drag_over false) s))
  ∧ tray s' = tray s
  ∧ pieces s' = pieces s
  ∧ slots s' = alter (set_drag_over false) k (slots s)
  ∧ (∀ j loc, located s' j loc ↔ located s j loc).
Proof.
  intros s Ho Hid. cbv zeta.
  destruct (reach_inv W H st random ops) as (Hwf & Hft & Hpt & _).
  fold s in Hwf, Hft, Hpt.
  pose proof (find_piece_by_id s i id Hwf Hid) as Hf.
  pose proof (handleDropOnSlot_same s k i id Hwf Hft Hpt Ho Hf) as Heq.
  set (u := update_slot k (set_drag_over false) s) in *.
  destruct (checkCompletion_board (setStatus MSG_PLACED u)) as (Ht & Hs & Hp).
  destruct (setStatus_board MSG_PLACED u) as (Ht0 & Hs0 & Hp0).
  rewrite Heq, Ht, Hs, Hp, Ht0, Hs0, Hp0.
  split; [done|]. split; [done|]. split; [done|]. split; [done|].
  intros j [|k']; unfold located; rewrite ?Ht, ?Hs, ?Ht0, ?Hs0; [done|].
  change (slots u) with (alter (set_drag_over false) k (slots s)).
  destruct (decide (k = k')) as [<-|Hne].
  - rewrite list_lookup_alter_eq. split.
    + intros (sl & Hsl & Hin). destruct (slots s !! k) as [sl0|]; [|done].
      simpl in Hsl. injection Hsl as <-. by exists sl0.
    + intros (sl & Hsl & Hin). rewrite Hsl. simpl. by eexists.
  - by rewrite list_lookup_alter_ne.
Qed.

Lemma drop_on_own_slot_witness :
  let s := run [DropOnSlot 2 "1"]
             (initPuzzle 100 100 (Some "") Examples.zero_draws) in
  (occupant s 2 = Some 0 ∧ pieceId <$> pieces s !! 0 = Some "1")
  ∧ tray (handleDropOnSlot 2 "1" s).1 = tray s
  ∧ pieces (handleDropOnSlot 2 "1" s).1 = pieces s.
Proof.
  intros s.
  assert (Ho : occupant s 2 = Some 0) by (by vm_compute).
  assert (Hid : pieceId <$> pieces s !! 0 = Some "1") by (by vm_compute).
  split; [exact (conj Ho Hid)|].
  destruct (drop_on_own_slot 100 100 (Some "") Examples.zero_draws
              [DropOnSlot 2 "1"] 2 0 "1" Ho Hid) as (_ & H1 & H2 & _).
  exact (conj H1 H2).
Defined.

(** X10: taking a piece off the board.  In a well-formed state, when slot
    [X] shows piece [i] and the id of [i] is dropped on the tray, slot [X]
    is left with no child and with neither [filled] nor [drag-over], no
    other slot changes, the piece becomes the last child of the tray, in
    front of which the tray is as it was, and its [placedSlot] is the empty
    string while every other piece keeps its attributes. *)
Theorem return_placed_piece (s : puzzleState) (X i : nat) (id : string) :
  wf s →
  occupant s X = Some i →
  pieceId <$> pieces s !! i = Some id →
  let s' := (handleDropOnTray id s).1 in
  slots s' = alter (λ sl, Slot (slotId sl) [] false false) X (slots s)
  ∧ tray s' = tray s ++ [i]
  ∧ pieces s' = alter (set_placedSlot (Some "")) i (pieces s)
  ∧ occupant s' X = None
  ∧ located s' i InTray
  ∧ (∀ loc, located s' i loc → loc = InTray).
Proof.
  intros Hwf Ho Hid. cbv zeta.
  pose proof (find_piece_by_id s i id Hwf Hid) as Hf.
  destruct (occupant_Some s X i Hwf Ho) as (slot & HX & Hc).
  destruct (handleDropOnTray_effect s id i Hwf Hf) as (Hs & Ht & Hp).
  pose proof (handleDropOnTray_wf s id Hwf) as Hwf'.
  assert (Hin : i ∈ children slot) by (rewrite Hc; constructor).
  rewrite (evict_slots_at s X i slot Hwf HX Hc) in Hs.
  rewrite (remove_node_tray_slot s X slot i Hwf HX Hin) in Ht.
  assert (Hloc : located (handleDropOnTray id s).1 i InTray).
  { simpl. rewrite Ht. apply elem_of_app. right. constructor. }
  split; [done|]. split; [done|]. split; [done|]. split; [|split; [done|]].
  - unfold occupant. by rewrite Hs, list_lookup_alter_eq, HX.
  - intros loc Hl.
    by apply (located_unique _ i loc InTray (wf_tree _ Hwf')).
Qed.

Lemma return_placed_piece_witness :
  let s := Examples.one_placed in
  (wf s ∧ occupant s 2 = Some 0 ∧ pieceId <$> pieces s !! 0 = Some "1")
  ∧ tray (handleDropOnTray "1" s).1 = tray s ++ [0]
  ∧ occupant (handleDropOnTray "1" s).1 2 = None.
Proof.
  intros s.
  assert (Hwf : wf s) by (apply (bool_decide_unpack _); by vm_compute).
  assert (Ho : occupant s 2 = Some 0) by (by vm_compute).
  assert (Hid : pieceId <$> pieces s !! 0 = Some "1") by (by vm_compute).
  split; [exact (conj Hwf (conj Ho Hid))|].
  destruct (return_placed_piece s 2 0 "1" Hwf Ho Hid)
    as (_ & H1 & _ & H2 & _).
  exact (conj H1 H2).
Defined.

(** X11: a drop on the tray never ends the game.  In every state the game
    reaches, dropping the id of a piece on the tray leaves a slot empty, so
    the completion check at the end of the handler writes nothing: the
    handler amounts to [movePieceToTray] followed by its own message, and
    the status line reads "Piece returned to the tray." whenever there is a
    status node - never one of the two messages of the check. *)
Theorem return_never_completes (W H : Z) (st : option string)
    (random : nat → N) (ops : list op) (i : nat) (id : string) :
  let s := run ops (initPuzzle W H st random) in
  pieceId <$> pieces s !! i = Some id →
  let s' := (handleDropOnTray id s).1 in
  s' = setStatus MSG_RETURNED (movePieceToTray i s)
  ∧ SomeEmpty s'
  ∧ checkCompletion s' = s'
  ∧ statusNode s' = (λ _, MSG_RETURNED) <$> st.
Proof.
  intros s Hid. cbv zeta.
  destruct (reach_inv W H st random ops) as (Hwf & _ & _ & [Hl _] & Hst).
  fold s in Hwf, Hl, Hst.
  pose proof (find_piece_by_id s i id Hwf Hid) as Hf.
  destruct (handleDropOnTray_plain s id i Hwf Hl Hf) as [Heq He].
  rewrite movePieceToTray_tree by by apply wf_tree.
  split; [done|]. split; [done|].
  split; [by apply checkCompletion_some_empty|].
  rewrite Heq. unfold setStatus.
  change (statusNode (moved_to_tray i s)) with (statusNode s).
  destruct (statusNode s) as [t|] eqn:Et.
  - destruct st as [t0|]; [done|].
    by destruct (proj1 Hst (mk_is_Some _ _ eq_refl)).
  - destruct st as [t0|].
    + by destruct (proj2 Hst (mk_is_Some _ _ eq_refl)).
    + by cbn [moved_to_tray statusNode fmap option_fmap option_map].
Qed.

Lemma return_never_completes_witness :
  let s := run [DropOnSlot 0 "1"; DropOnSlot 1 "2"; DropOnSlot 2 "3";
                DropOnSlot 3 "4"]
             (initPuzzle 100 100 (Some "") Examples.zero_draws) in
  pieceId <$> pieces s !! 2 = Some "3"
  ∧ statusNode s = Some MSG_COMPLETED
  ∧ statusNode (handleDropOnTray "3" s).1 = Some MSG_RETURNED.
Proof.
  intros s.
  assert (Hid : pieceId <$> pieces s !! 2 = Some "3") by (by vm_compute).
  assert (Hst : statusNode s = Some MSG_COMPLETED) by (by vm_compute).
  split; [exact Hid|]. split; [exact Hst|].
  destruct (return_never_completes 100 100 (Some "") Examples.zero_draws
              [DropOnSlot 0 "1"; DropOnSlot 1 "2"; DropOnSlot 2 "3";
               DropOnSlot 3 "4"] 2 "3" Hid) as (_ & _ & _ & H1).
  exact H1.
Defined.

End HandlerMore.


(* ===================================================================== *)
(** * The finished picture *)
(* ===================================================================== *)

Section Finished.
Import Dom Puzzle Model Frame Effects Reach.
Local Open Scope nat_scope.

Lemma solved_at_home s :
  wf s → home s → (AllFilled s ∧ AllCorrect s ↔ at_home s).
Proof.
  intros Hwf [Hl Hh]. split.
  - intros [Hf Hc] k Hk.
    destruct (lookup_lt_is_Some_2 (slots s) k Hk) as [sl Hsl].
    assert (Hin : sl ∈ slots s) by by eapply list_elem_of_lookup_2.
    destruct (Hf sl Hin) as [i Hi].
    destruct (Hc sl i Hin Hi) as (p & Hp & Hcs).
    pose proof (lookup_lt_Some _ _ _ Hp) as Hlt.
    destruct (lookup_lt_is_Some_2 (slots s) i) as [sli Hsli]; [lia|].
    destruct (lookup_lt_is_Some_2 (pieces s) k) as [pk Hpk]; [lia|].
    destruct (Hh i sli p Hsli Hp) as [_ Hci].
    destruct (Hh k sl pk Hsl Hpk) as [Hid _].
    rewrite Hid, Hci in Hcs. injection Hcs as Hcs.
    apply (inj pretty) in Hcs.
    unfold occupant. rewrite Hsl. simpl. rewrite Hi. f_equal. lia.
  - intros Hah. split.
    + intros sl [k Hk]%list_elem_of_lookup.
      pose proof (Hah k (lookup_lt_Some _ _ _ Hk)) as Ho.
      unfold occupant in Ho. rewrite Hk in Ho. by exists k.
    + intros sl i [k Hk]%list_elem_of_lookup Hq.
      pose proof (lookup_lt_Some _ _ _ Hk) as Hlt.
      pose proof (Hah k Hlt) as Ho.
      unfold occupant in Ho. rewrite Hk in Ho. simpl in Ho.
      assert (i = k) as -> by congruence.
      destruct (lookup_lt_is_Some_2 (pieces s) k) as [pk Hpk]; [lia|].
      exists pk. split; [done|].
      destruct (Hh k sl pk Hk Hpk) as [Hid Hcs]. by rewrite Hid.
Qed.

Lemma SomeEmpty_board s s' : slots s' = slots s → SomeEmpty s' ↔ SomeEmpty s.
Proof. intros Hs. unfold SomeEmpty. by rewrite Hs. Qed.

Lemma run_snoc ops o s : run (ops ++ [o]) s = step (run ops s) o.
Proof. unfold run. by rewrite foldl_app. Qed.

(** X12: the game is won exactly in the finished picture.  In every state
    the game reaches, every slot is filled with a piece that names it as its
    [correctSlot] if and only if slot [k] shows piece [k] for every [k] -
    the piece that was cut from cell [k] of the scene; a status line that
    reads "Puzzle completed! ..." is never wrong about it; and after a drop
    of a known piece on a slot, on a page with a status node, the line
    reads "Puzzle completed! ..." exactly in the finished picture, "So
    close! ..." exactly when the board is full but not in that
    arrangement, and "Piece placed on the board." exactly when a slot is
    still empty. *)
Theorem solved_iff_home (W H : Z) (st : option string) (random : nat → N)
    (ops : list op) :
  let s := run ops (initPuzzle W H st random) in
  (AllFilled s ∧ AllCorrect s ↔ at_home s)
  ∧ (statusNode s = Some MSG_COMPLETED → at_home s)
  ∧ (∀ k id,
       is_Some st → is_Some (slots s !! k) → is_Some (find_piece s id) →
       let s' := (handleDropOnSlot k id s).1 in
       (statusNode s' = Some MSG_COMPLETED ↔ at_home s')
       ∧ (statusNode s' = Some MSG_SO_CLOSE
            ↔ AllFilled s' ∧ ¬ at_home s')
       ∧ (statusNode s' = Some MSG_PLACED ↔ SomeEmpty s')).
Proof.
  intros s.
  destruct (reach_inv W H st random ops) as (Hwf & _ & _ & Hh & Hst).
  fold s in Hwf, Hh, Hst.
  pose proof (solved_at_home s Hwf Hh) as Hsolved.
  split; [done|]. split.
  { intros Hc. apply Hsolved.
    assert (Hag : status_agrees s)
      by apply run_status_agrees, initPuzzle_status_agrees.
    by apply Hag. }
  intros k id Hsome [slot Hk] [i Hf]. cbv zeta.
  destruct (reach_inv W H st random (ops ++ [DropOnSlot k id]))
    as (Hwf' & _ & _ & Hh' & _).
  rewrite run_snoc in Hwf', Hh'. fold s in Hwf', Hh'.
  change (step s (DropOnSlot k id)) with (handleDropOnSlot k id s).1
    in Hwf', Hh'.
  pose proof (solved_at_home _ Hwf' Hh') as Hsolved'.
  revert Hsolved'.
  rewrite (handleDropOnSlot_tree s k slot id i Hwf Hk Hf).
  set (v := update_slot k (set_drag_over false)
              (placed_in_slot i k (after_eviction i slot s))).
  intros Hsolved'.
  assert (Hv : statusNode v = statusNode s).
  { unfold v, after_eviction.
    destruct (querySelector_piece slot); [case_decide|]; done. }
  destruct (proj2 Hst Hsome) as [t Ht].
  assert (Hu : statusNode (setStatus MSG_PLACED v) = Some MSG_PLACED).
  { apply (statusNode_setStatus _ _ t). by rewrite Hv. }
  set (u := setStatus MSG_PLACED v) in *.
  destruct (checkCompletion_reads u MSG_PLACED Hu) as (H1 & H2 & H3);
    [done..|].
  destruct (checkCompletion_board u) as (_ & Hs & Hp).
  destruct (status_agrees_board u (checkCompletion u) Hs Hp) as [Hf' Hc'].
  pose proof (SomeEmpty_board u (checkCompletion u) Hs) as He'.
  split; [|split].
  - rewrite H1, <- Hsolved'. by rewrite Hf', Hc'.
  - rewrite H2, <- Hsolved'. rewrite Hf', Hc'. split.
    + intros [Ha Hn]. split; [done|]. by intros [_ Hb].
    + intros [Ha Hn]. split; [done|]. intros Hb. by apply Hn.
  - by rewrite H3, He'.
Qed.

End Finished.


(* ===================================================================== *)
(** * Drops that follow one another *)
(* ===================================================================== *)

Section Sequences.
Import Dom Puzzle Model Frame Effects Reach.
Local Open Scope nat_scope.

Lemma evicted_empty i slot : children slot = [] → evicted i slot = [].
Proof. intros Hc. unfold evicted, querySelector_piece. by rewrite Hc. Qed.

Lemma evicted_other i o slot :
  children slot = [o] → o ≠ i → evicted i slot = [o].
Proof.
  intros Hc Hne. unfold evicted, querySelector_piece. rewrite Hc. simpl.
  by rewrite decide_True.
Qed.

Lemma occupant_None_children s k slot :
  slots s !! k = Some slot → occupant s k = None → children slot = [].
Proof.
  intros Hk. unfold occupant. rewrite Hk. simpl. apply single_head_None.
Qed.

Lemma vacate_slots_tray s i j :
  wf s → i ∈ tray s → vacate_slot i <$> slots s !! j = slots s !! j.
Proof.
  intros Hwf Hi. destruct (slots s !! j) as [sl|] eqn:Hj; [|done]. simpl.
  f_equal. apply vacate_slot_notin.
  apply (tree_tray_slot s j sl i); [by apply wf_tree|done..].
Qed.

(** X13: no swap.  In a well-formed state, when piece [i] lies on slot [X]
    and is dropped on another slot [Y] that shows piece [o], the two pieces
    do not trade places: [i] becomes the only child of [Y], [o] goes to the
    end of the tray with an empty [placedSlot], slot [X] is left with no
    child and without [filled], and no other slot changes. *)
Theorem displaced_piece_goes_to_tray (s : puzzleState) (X Y i o : nat)
    (id : string) :
  wf s →
  occupant s X = Some i →
  occupant s Y = Some o →
  X ≠ Y →
  pieceId <$> pieces s !! i = Some id →
  let s' := (handleDropOnSlot Y id s).1 in
  occupant s' Y = Some i
  ∧ occupant s' X = None
  ∧ (∃ sl, slots s' !! X = Some sl ∧ children sl = [] ∧ filled sl = false)
  ∧ tray s' = tray s ++ [o]
  ∧ (∀ loc, located s' o loc → loc = InTray)
  ∧ placedSlot <$> pieces s' !! o = Some (Some "")
  ∧ (∀ Z, Z ≠ X → Z ≠ Y → slots s' !! Z = slots s !! Z).
Proof.
  intros Hwf HX HY Hne Hid. cbv zeta.
  destruct (occupant_Some s X i Hwf HX) as (slX & HslX & HchX).
  destruct (occupant_Some s Y o Hwf HY) as (slY & HslY & HchY).
  pose proof (find_piece_by_id s i id Hwf Hid) as Hf.
  pose proof (handleDropOnSlot_wf s Y id Hwf) as Hwf'.
  assert (HiX : i ∈ children slX) by (rewrite HchX; constructor).
  assert (HoY : o ∈ children slY) by (rewrite HchY; constructor).
  assert (Hio : o ≠ i).
  { intros ->. apply Hne.
    by apply (tree_slot_unique s X Y slX slY i (wf_tree s Hwf)). }
  destruct (handleDropOnSlot_effect s Y slY id i Hwf HslY Hf)
    as (HsY & Hsj & Ht & Hp).
  rewrite (remove_node_tray_slot s X slX i Hwf HslX HiX) in Ht.
  rewrite (evicted_other i o slY HchY Hio) in Ht.
  assert (HsX : slots (handleDropOnSlot Y id s).1 !! X
                = Some (Slot (slotId slX) [] false (drag_over slX))).
  { rewrite Hsj, HslX by done. simpl. f_equal. unfold vacate_slot.
    rewrite decide_True by done. by rewrite HchX, remove_node_singleton. }
  split; [|split; [|split; [|split; [|split; [|split]]]]].
  - unfold occupant. by rewrite HsY.
  - unfold occupant. by rewrite HsX.
  - by eexists.
  - done.
  - intros loc Hl. apply (located_unique _ o loc InTray (wf_tree _ Hwf'));
      [done|].
    simpl. rewrite Ht. apply elem_of_app. right. constructor.
  - rewrite Hp, lookup_pieces_after_drop.
    rewrite decide_False by done.
    rewrite (evicted_other i o slY HchY Hio).
    rewrite decide_True by constructor.
    destruct (lookup_lt_is_Some_2 (pieces s) o) as [p Hpo].
    { by apply (wf_occupant_lt s Y slY o). }
    by rewrite Hpo.
  - intros Z HZX HZY. rewrite Hsj by done.
    destruct (slots s !! Z) as [sl|] eqn:HZ; [|done]. simpl. f_equal.
    apply vacate_slot_notin. intros Hin. apply HZX.
    by apply (tree_slot_unique s Z X sl slX i (wf_tree s Hwf)).
Qed.

Lemma displaced_piece_goes_to_tray_witness :
  let s := run [DropOnSlot 0 "1"; DropOnSlot 1 "2"] Examples.start in
  (wf s ∧ occupant s 0 = Some 0 ∧ occupant s 1 = Some 1 ∧ 0 ≠ 1
   ∧ pieceId <$> pieces s !! 0 = Some "1")
  ∧ occupant (handleDropOnSlot 1 "1" s).1 1 = Some 0
  ∧ occupant (handleDropOnSlot 1 "1" s).1 0 = None
  ∧ tray (handleDropOnSlot 1 "1" s).1 = tray s ++ [1].
Proof.
  intros s.
  assert (Hwf : wf s) by (apply (bool_decide_unpack _); by vm_compute).
  assert (HX : occupant s 0 = Some 0) by (by vm_compute).
  assert (HY : occupant s 1 = Some 1) by (by vm_compute).
  assert (Hne : 0 ≠ 1) by lia.
  assert (Hid : pieceId <$> pieces s !! 0 = Some "1") by (by vm_compute).
  split; [exact (conj Hwf (conj HX (conj HY (conj Hne Hid))))|].
  destruct (displaced_piece_goes_to_tray s 0 1 0 1 "1" Hwf HX HY Hne Hid)
    as (H1 & H2 & _ & H3 & _).
  exact (conj H1 (conj H2 H3)).
Defined.

(** X14: put a piece down and take it back.  In every state the game
    reaches, for a piece [i] of the tray and an empty slot [k]: dropping
    [i] on [k] and then on the tray gives the tray, the pieces with their
    attributes and the status line that dropping it on the tray at once
    would have given, and the slots of before, but for the [drag-over]
    class of slot [k], which is gone. *)
Theorem place_and_return (W H : Z) (st : option string) (random : nat → N)
    (ops : list op) (k i : nat) (id : string) :
  let s := run ops (initPuzzle W H st random) in
  located s i InTray →
  k < length (slots s) →
  occupant s k = None →
  pieceId <$> pieces s !! i = Some id →
  let s1 := (handleDropOnTray id (handleDropOnSlot k id s).1).1 in
  let s2 := (handleDropOnTray id s).1 in
  tray s1 = tray s2
  ∧ pieces s1 = pieces s2
  ∧ statusNode s1 = statusNode s2
  ∧ slots s2 = slots s
  ∧ slots s1 = alter (set_drag_over false) k (slots s).
Proof.
  intros s Hi Hk Ho Hid. cbv zeta. simpl in Hi.
  destruct (reach_inv W H st random ops) as (Hwf & Hft & _ & [Hl _] & Hst).
  destruct (reach_inv W H st random (ops ++ [DropOnSlot k id]))
    as (HwfA & _ & _ & [HlA _] & HstA).
  rewrite run_snoc in HwfA, HlA, HstA.
  fold s in Hwf, Hft, Hl, Hst, HwfA, HlA, HstA.
  change (step s (DropOnSlot k id)) with (handleDropOnSlot k id s).1
    in HwfA, HlA, HstA.
  destruct (lookup_lt_is_Some_2 _ _ Hk) as [slot Hslot].
  pose proof (occupant_None_children s k slot Hslot Ho) as Hch.
  pose proof (find_piece_by_id s i id Hwf Hid) as Hf.
  destruct (handleDropOnSlot_effect s k slot id i Hwf Hslot Hf)
    as (HsA & HsjA & HtA & HpA).
  rewrite (evicted_empty i slot Hch), app_nil_r in HtA.
  set (sA := (handleDropOnSlot k id s).1) in *.
  assert (HidA : pieceId <$> pieces sA !! i = Some id).
  { rewrite HpA, lookup_pieces_after_drop, decide_True by done.
    destruct (pieces s !! i) as [p|]; [|done]. done. }
  pose proof (find_piece_by_id sA i id HwfA HidA) as HfA.
  destruct (handleDropOnTray_effect sA id i HwfA HfA) as (Hs1 & Ht1 & Hp1).
  destruct (handleDropOnTray_effect s id i Hwf Hf) as (Hs2 & Ht2 & Hp2).
  destruct (handleDropOnTray_plain sA id i HwfA HlA HfA) as [Heq1 _].
  destruct (handleDropOnTray_plain s id i Hwf Hl Hf) as [Heq2 _].
  split; [|split; [|split; [|split]]].
  - by rewrite Ht1, Ht2, HtA, remove_node_idemp.
  - rewrite Hp1, Hp2, HpA. unfold pieces_after_drop.
    rewrite (evicted_empty i slot Hch). cbn [foldr].
    rewrite list_alter_alter_eq. by apply list_alter_ext.
  - rewrite Heq1, Heq2. unfold setStatus.
    change (statusNode (moved_to_tray i sA)) with (statusNode sA).
    change (statusNode (moved_to_tray i s)) with (statusNode s).
    assert (Hss : is_Some (statusNode sA) ↔ is_Some (statusNode s))
      by (by rewrite HstA, Hst).
    clear Hst HstA.
    destruct (statusNode sA) as [a|] eqn:Ea, (statusNode s) as [b|] eqn:Eb;
      cbn [set_statusNode statusNode moved_to_tray].
    + done.
    + by destruct (proj1 Hss (mk_is_Some _ _ eq_refl)) as [? ?].
    + by destruct (proj2 Hss (mk_is_Some _ _ eq_refl)) as [? ?].
    + by rewrite Ea, Eb.
  - rewrite Hs2. by apply evict_slots_tray.
  - rewrite Hs1.
    rewrite (evict_slots_at sA k i _ HwfA HsA eq_refl).
    apply list_eq. intros j. destruct (decide (k = j)) as [<-|Hne].
    + rewrite !list_lookup_alter_eq, HsA, Hslot. simpl. f_equal.
      unfold set_drag_over. rewrite Hch. f_equal.
      destruct (filled slot) eqn:Hfl; [|done].
      by destruct (proj1 (Hft k slot Hslot) Hfl).
    + rewrite !list_lookup_alter_ne by done. rewrite HsjA by done.
      by apply vacate_slots_tray.
Qed.

Lemma place_and_return_witness :
  let s := run [DropOnSlot 2 "1"]
             (initPuzzle 100 100 (Some "") Examples.zero_draws) in
  (located s 1 InTray ∧ 0 < length (slots s) ∧ occupant s 0 = None
   ∧ pieceId <$> pieces s !! 1 = Some "2")
  ∧ tray (handleDropOnTray "2" (handleDropOnSlot 0 "2" s).1).1
    = tray (handleDropOnTray "2" s).1
  ∧ slots (handleDropOnTray "2" (handleDropOnSlot 0 "2" s).1).1
    = alter (set_drag_over false) 0 (slots s).
Proof.
  intros s.
  assert (Hi : located s 1 InTray)
    by (apply (bool_decide_unpack (1 ∈ tray s)); by vm_compute).
  assert (Hk : 0 < length (slots s)) by (vm_compute; lia).
  assert (Ho : occupant s 0 = None) by (by vm_compute).
  assert (Hid : pieceId <$> pieces s !! 1 = Some "2") by (by vm_compute).
  split; [exact (conj Hi (conj Hk (conj Ho Hid)))|].
  destruct (place_and_return 100 100 (Some "") Examples.zero_draws
              [DropOnSlot 2 "1"] 0 1 "2" Hi Hk Ho Hid)
    as (H1 & _ & _ & _ & H2).
  exact (conj H1 H2).
Defined.

End Sequences.


(* ===================================================================== *)
(** * The shuffle is fair *)
(* ===================================================================== *)

Section ShuffleMore.
Import Dom Puzzle Model Reach Draws.
Local Open Scope nat_scope.

Lemma floor_random_times_draw_for j n :
  j < n → (N.of_nat n ≤ TWO53)%N →
  floor_random_times (draw_for j n) n = j.
Proof.
  intros Hj Hn. unfold floor_random_times, draw_for.
  assert (HT : (0 < TWO53)%N) by done.
  set (T := TWO53) in *. clearbody T.
  set (a := (N.of_nat j * T + N.of_nat n - 1)%N).
  set (b := N.of_nat n).
  assert (Hb : (b ≠ 0)%N) by (unfold b; lia).
  pose proof (N.Div0.mul_div_le a b) as H1.
  pose proof (N.mul_succ_div_gt a b Hb) as H2.
  set (d := (a / b)%N) in *.
  assert (HjT : (N.of_nat j * T + T ≤ b * T)%N).
  { replace (N.of_nat j * T + T)%N with ((N.of_nat j + 1) * T)%N by lia.
    apply N.mul_le_mono_r. unfold b. lia. }
  assert (Hd : (d < T)%N).
  { apply (N.mul_lt_mono_pos_l b); [lia|]. unfold a in H1. lia. }
  rewrite N.mod_small by done.
  assert (Hq : (d * b / T = N.of_nat j)%N).
  { symmetry. apply (N.div_unique _ _ _ (d * b - T * N.of_nat j)%N).
    - unfold a in H1. lia.
    - unfold a in H2. lia. }
  rewrite Hq. apply Nat2N.id.
Qed.

Lemma swap_lookup_ne a i j p :
  p ≠ i → p ≠ j → swap a i j !! p = a !! p.
Proof.
  intros Hi Hj. unfold swap.
  destruct (a !! i) as [x|]; [|done]. destruct (a !! j) as [y|]; [|done].
  by rewrite !list_lookup_insert_ne.
Qed.

Lemma swap_lookup_l a i j :
  i < length a → j < length a → swap a i j !! i = a !! j.
Proof.
  intros Hi Hj. unfold swap.
  destruct (lookup_lt_is_Some_2 a i Hi) as [x Hx].
  destruct (lookup_lt_is_Some_2 a j Hj) as [y Hy].
  rewrite Hx, Hy. destruct (decide (i = j)) as [->|Hne].
  - rewrite list_lookup_insert_eq by (by rewrite length_insert). congruence.
  - rewrite list_lookup_insert_ne by done.
    by rewrite list_lookup_insert_eq.
Qed.

Lemma length_swap a i j : length (swap a i j) = length a.
Proof. apply Permutation_length, swap_Permutation. Qed.

(** The loop reads the draws through the indices they give, and nothing
    else. *)
Lemma fisherYates_ext random random' t i l :
  (∀ m, m < i →
     floor_random_times (random (t + m)) (i - m + 1)
     = floor_random_times (random' (t + m)) (i - m + 1)) →
  fisherYates random t i l = fisherYates random' t i l.
Proof.
  revert t l. induction i as [|i IH]; intros t l Hext; [done|].
  cbn [fisherYates].
  pose proof (Hext 0 ltac:(lia)) as H0.
  rewrite Nat.add_0_r, Nat.sub_0_r in H0. rewrite H0.
  apply IH. intros m Hm. specialize (Hext (S m) ltac:(lia)).
  replace (t + S m) with (S t + m) in Hext by lia.
  by replace (S i - S m) with (i - m) in Hext by lia.
Qed.

(** What lies above [i] is not touched any more. *)
Lemma fisherYates_above random t i l p :
  i < p → fisherYates random t i l !! p = l !! p.
Proof.
  revert t l. induction i as [|i IH]; intros t l Hp; [done|].
  cbn [fisherYates]. rewrite IH by lia.
  apply swap_lookup_ne; [lia|].
  pose proof (floor_random_times_lt (random t) (S i + 1) ltac:(lia)). lia.
Qed.

Lemma fisherYates_inj random random' t i l :
  NoDup l → i < length l →
  fisherYates random t i l = fisherYates random' t i l →
  ∀ m, m < i →
    floor_random_times (random (t + m)) (i - m + 1)
    = floor_random_times (random' (t + m)) (i - m + 1).
Proof.
  revert t l. induction i as [|i IH]; intros t l Hnd Hi Heq m Hm; [lia|].
  cbn [fisherYates] in Heq.
  set (j := floor_random_times (random t) (S i + 1)) in *.
  set (j' := floor_random_times (random' t) (S i + 1)) in *.
  assert (Hj : j < S i + 1) by (apply floor_random_times_lt; lia).
  assert (Hj' : j' < S i + 1) by (apply floor_random_times_lt; lia).
  assert (Hjj : j = j').
  { assert (H1 : l !! j = l !! j').
    { rewrite <- (swap_lookup_l l (S i) j), <- (swap_lookup_l l (S i) j')
        by lia.
      rewrite <- (fisherYates_above random (S t) i _ (S i)) by lia.
      rewrite <- (fisherYates_above random' (S t) i (swap l (S i) j') (S i))
        by lia.
      by rewrite Heq. }
    destruct (lookup_lt_is_Some_2 l j) as [x Hx]; [lia|].
    rewrite Hx in H1. by apply (NoDup_lookup l j j' x). }
  destruct m as [|m].
  - rewrite Nat.add_0_r, Nat.sub_0_r. done.
  - replace (t + S m) with (S t + m) by lia.
    replace (S i - S m) with (i - m) by lia.
    apply (IH (S t) (swap l (S i) j)); [| |by rewrite Heq, Hjj|lia].
    + by rewrite swap_Permutation.
    + rewrite length_swap. lia.
Qed.

Lemma perm_agree_tail (l k : list nat) :
  l ≡ₚ k → (∀ p, 0 < p → l !! p = k !! p) → l = k.
Proof.
  intros Hp Ha. destruct l as [|x l], k as [|y k].
  - done.
  - by apply Permutation_length in Hp.
  - by apply Permutation_length in Hp.
  - assert (l = k) as ->.
    { apply list_eq. intros p. apply (Ha (S p)). lia. }
    f_equal. apply Permutation_singleton_inj.
    by apply (Permutation_app_inv_r k [x] [y]).
Qed.

Lemma fisherYates_surj t i l target :
  NoDup l → i < length l → (N.of_nat (i + 1) ≤ TWO53)%N →
  target ≡ₚ l → (∀ p, i < p → target !! p = l !! p) →
  ∃ random, fisherYates random t i l = target.
Proof.
  revert t l. induction i as [|i IH]; intros t l Hnd Hi Hbig Hperm Hab.
  - exists (λ _, 0%N). simpl. symmetry. by apply perm_agree_tail.
  - assert (Hlen : length target = length l) by by apply Permutation_length.
    destruct (lookup_lt_is_Some_2 target (S i)) as [x Hx]; [lia|].
    assert (Hxl : x ∈ l).
    { rewrite <- Hperm. by eapply list_elem_of_lookup_2. }
    apply list_elem_of_lookup_1 in Hxl as [j Hj].
    assert (Hnd' : NoDup target) by by rewrite Hperm.
    assert (Hji : j ≤ S i).
    { destruct (decide (j ≤ S i)) as [|Hgt]; [done|].
      assert (Hxj : target !! j = Some x) by (rewrite Hab by lia; done).
      pose proof (NoDup_lookup target j (S i) x Hnd' Hxj Hx). lia. }
    pose proof (lookup_lt_Some _ _ _ Hj) as Hjl.
    destruct (IH (S t) (swap l (S i) j)) as [random' Hr].
    + by rewrite swap_Permutation.
    + rewrite length_swap. lia.
    + lia.
    + by rewrite swap_Permutation.
    + intros p Hp. destruct (decide (p = S i)) as [->|Hne].
      * rewrite swap_lookup_l by lia. congruence.
      * rewrite swap_lookup_ne by lia. apply Hab. lia.
    + exists (λ t', if decide (t' = t) then draw_for j (S i + 1)
                   else random' t').
      cbn [fisherYates]. rewrite decide_True by done.
      rewrite floor_random_times_draw_for by lia.
      rewrite <- Hr. apply fisherYates_ext. intros m Hm.
      by rewrite decide_False by lia.
Qed.

(** X15: every order can come out of the shuffle.  In every state the game
    reaches, for each arrangement of the pieces there are values of
    [Math.random] with which [shufflePieces] leaves the tray in exactly that
    arrangement. *)
Theorem shuffle_reaches_every_order (W H : Z) (st : option string)
    (random0 : nat → N) (ops : list op) (target : list nat) :
  let s := run ops (initPuzzle W H st random0) in
  target ≡ₚ seq 0 (length (pieces s)) →
  ∃ random, tray (shufflePieces random s) = target.
Proof.
  intros s Hperm.
  destruct (reach_inv W H st random0 ops) as (Hwf & _ & _ & [Hl Hh] & _).
  fold s in Hwf, Hl, Hh.
  set (n := length (pieces s)) in *.
  assert (Hn : n ≤ 49).
  { pose proof (same_frame_trans _ _ _
      (same_frame_initPuzzle W H st random0)
      (same_frame_run (initPuzzle W H st random0) ops)) as (_ & _ & _ & Hp).
    fold s in Hp. apply (fmap_length_eq Frame.piece_static) in Hp.
    unfold n. rewrite Hp. unfold loadPuzzle.
    rewrite length_pieces_assemble.
    pose proof (clamp_range
      (Grid.or_else (Grid.approximatePiecesPerSide (W * H))
         Grid.MIN_BOARD_SIZE)) as Hc.
    unfold Grid.computeBoardSize, Grid.MIN_BOARD_SIZE, Grid.MAX_BOARD_SIZE
      in *. nia. }
  assert (∃ random, fisherYates random 0 (n - 1) (seq 0 n) = target)
    as [random Hr].
  { destruct (decide (n = 0)) as [Hz|Hz].
    - exists (λ _, 0%N). rewrite Hz in *. simpl in *.
      by apply Permutation_nil_r in Hperm.
    - apply fisherYates_surj; [apply NoDup_seq|rewrite length_seq; lia| |done|].
      + unfold TWO53. lia.
      + intros p Hp. rewrite !lookup_ge_None_2; [done|rewrite length_seq; lia|].
        apply Permutation_length in Hperm. rewrite length_seq in Hperm. lia. }
  exists random.
  destruct (shufflePieces_spec s random Hwf) as (_ & Ht & _).
  by rewrite Ht.
Qed.

Lemma shuffle_reaches_every_order_witness :
  let s := run [] (initPuzzle 100 100 (Some "") Examples.zero_draws) in
  [2; 0; 3; 1] ≡ₚ seq 0 (length (pieces s))
  ∧ ∃ random, tray (shufflePieces random s) = [2; 0; 3; 1].
Proof.
  intros s.
  assert (Hp : [2; 0; 3; 1] ≡ₚ seq 0 (length (pieces s))).
  { assert (Hlen : length (pieces s) = 4) by (by vm_compute).
    rewrite Hlen. apply NoDup_Permutation.
    - apply (bool_decide_unpack _). by vm_compute.
    - apply NoDup_seq.
    - intros x. rewrite elem_of_seq, !elem_of_cons, elem_of_nil. lia. }
  split; [exact Hp|].
  exact (shuffle_reaches_every_order 100 100 (Some "") Examples.zero_draws []
           [2; 0; 3; 1] Hp).
Defined.

(** For up to 49 pieces the draw [draw_for j n] gives the index [j] in the
    doubles of the script as well. *)
Lemma draw_for_double j n :
  j < n → n ≤ 49 →
  floor_random_times_double (draw_for j n) n = Some (Z.of_nat j).
Proof.
  intros Hj Hn.
  assert (Hall :
    forallb (λ n, forallb (λ j,
      bool_decide (floor_random_times_double (draw_for j n) n
                   = Some (Z.of_nat j))) (seq 0 n)) (seq 1 49) = true)
    by (by vm_compute).
  rewrite forallb_forall in Hall.
  specialize (Hall n ltac:(apply in_seq; lia)).
  rewrite forallb_forall in Hall.
  specialize (Hall j ltac:(apply in_seq; lia)).
  by apply bool_decide_eq_true in Hall.
Qed.

(** A draw on which the two floors differ: two thirds, rounded down to a
    double, times three is rounded up to 2. *)
Example floor_random_times_rounding :
  floor_random_times 6004799503160661 3 = 1
  ∧ floor_random_times_double 6004799503160661 3 = Some 2%Z.
Proof. split; by vm_compute. Qed.

(** X16: no order is favoured.  In every state the game reaches, with [n]
    pieces, take any two choices [js] and [js'] of the index [j] for each of
    the [n - 1] steps of the Fisher-Yates loop, each within [0 .. i], and
    for each the least values of [Math.random] that make the loop pick it.
    With these draws the loop picks the indices as chosen, whether the
    product is taken exactly or rounded to a double as the script does, and
    the two shuffles leave the tray in the same order exactly when the two
    choices are the same at every step: different choices give different
    orders, so that each of the [n!] orders comes from one of the [n!]
    choices. *)
Theorem shuffle_order_determines_indices (W H : Z) (st : option string)
    (random0 : nat → N) (ops : list op) (js js' : nat → nat) :
  let s := run ops (initPuzzle W H st random0) in
  let n := length (pieces s) in
  (∀ t, t + 1 < n → js t < n - t) →
  (∀ t, t + 1 < n → js' t < n - t) →
  (∀ t, t + 1 < n →
     chosen (draws_for js n) n t = js t
     ∧ floor_random_times_double (draws_for js n t) (n - t)
       = Some (Z.of_nat (js t)))
  ∧ (tray (shufflePieces (draws_for js n) s)
     = tray (shufflePieces (draws_for js' n) s)
     ↔ ∀ t, t + 1 < n → js t = js' t).
Proof.
  intros s n Hjs Hjs'.
  destruct (reach_inv W H st random0 ops) as (Hwf & _).
  fold s in Hwf.
  pose proof (reach_pieces_count W H st random0 ops) as Hn.
  fold s in Hn. fold n in Hn.
  assert (Hpick : ∀ ks, (∀ t, t + 1 < n → ks t < n - t) →
            ∀ t, t + 1 < n → chosen (draws_for ks n) n t = ks t).
  { intros ks Hks t Ht. unfold chosen, draws_for.
    apply floor_random_times_draw_for; [by apply Hks|].
    unfold TWO53. lia. }
  split.
  { intros t Ht. split; [by apply Hpick|].
    unfold draws_for. apply draw_for_double; [by apply Hjs|lia]. }
  destruct (shufflePieces_spec s (draws_for js n) Hwf) as (_ & -> & _).
  destruct (shufflePieces_spec s (draws_for js' n) Hwf) as (_ & -> & _).
  fold n. split.
  - intros Heq t Ht.
    pose proof (fisherYates_inj (draws_for js n) (draws_for js' n) 0 (n - 1)
      (seq 0 n) (NoDup_seq 0 n) ltac:(rewrite length_seq; lia) Heq t
      ltac:(lia)) as Hc.
    simpl in Hc. replace (n - 1 - t + 1) with (n - t) in Hc by lia.
    rewrite <- (Hpick js Hjs t Ht), <- (Hpick js' Hjs' t Ht). exact Hc.
  - intros Hc. apply fisherYates_ext. intros m Hm. simpl.
    replace (n - 1 - m + 1) with (n - m) by lia.
    change (chosen (draws_for js n) n m = chosen (draws_for js' n) n m).
    rewrite (Hpick js Hjs m), (Hpick js' Hjs' m) by lia. apply Hc. lia.
Qed.

Lemma shuffle_order_determines_indices_witness :
  let s := run [] (initPuzzle 100 100 (Some "") Examples.zero_draws) in
  let n := length (pieces s) in
  let js := λ _ : nat, 0 in
  let js' := λ t : nat, match t with 0 => 1 | _ => 0 end in
  ((∀ t, t + 1 < n → js t < n - t) ∧ (∀ t, t + 1 < n → js' t < n - t))
  ∧ tray (shufflePieces (draws_for js n) s)
    ≠ tray (shufflePieces (draws_for js' n) s).
Proof.
  intros s n js js'.
  assert (Hn : n = 4) by (by vm_compute).
  assert (H1 : ∀ t, t + 1 < n → js t < n - t)
    by (intros t Ht; unfold js; lia).
  assert (H2 : ∀ t, t + 1 < n → js' t < n - t)
    by (intros t Ht; unfold js'; destruct t; lia).
  split; [exact (conj H1 H2)|].
  intros Heq.
  destruct (shuffle_order_determines_indices 100 100 (Some "")
              Examples.zero_draws [] js js' H1 H2) as [_ [Hto _]].
  assert (H0 : 0 + 1 < n) by lia.
  specialize (Hto Heq 0 H0). discriminate Hto.
Defined.

End ShuffleMore.


(* ===================================================================== *)
(** * A whole drag *)
(* ===================================================================== *)

Section DragFacts.
Import Dom Puzzle Model Frame Effects Reach Drag.
Local Open Scope nat_scope.

Lemma fmap_commute {A} (f g g' : A → A) (l : list A) :
  (∀ x, f (g x) = g' (f x)) → f <$> (g <$> l) = g' <$> (f <$> l).
Proof.
  intros Hc. induction l as [|x l IH]; [done|]. csimpl. by rewrite Hc, IH.
Qed.

Lemma calm_evict_slot o sl :
  set_drag_over false (evict_slot o sl)
  = evict_slot o (set_drag_over false sl).
Proof. unfold evict_slot. simpl. by case_decide. Qed.

Lemma calm_vacate_slot o sl :
  set_drag_over false (vacate_slot o sl)
  = vacate_slot o (set_drag_over false sl).
Proof. unfold vacate_slot. simpl. by case_decide. Qed.

Lemma clear_drag_over_idemp s :
  clear_drag_over (clear_drag_over s) = clear_drag_over s.
Proof.
  unfold clear_drag_over, set_slots. simpl. f_equal.
  rewrite <- list_fmap_compose. by apply list_fmap_ext.
Qed.

Lemma clear_moved_to_tray o s :
  clear_drag_over (moved_to_tray o s) = moved_to_tray o (clear_drag_over s).
Proof.
  unfold clear_drag_over, moved_to_tray, set_slots. simpl. f_equal.
  apply fmap_commute, calm_evict_slot.
Qed.

Lemma clear_placed_in_slot i k s :
  clear_drag_over (placed_in_slot i k s)
  = placed_in_slot i k (clear_drag_over s).
Proof.
  unfold clear_drag_over, placed_in_slot, set_slots. simpl. f_equal.
  - rewrite (list_fmap_alter _ (receive i) (receive i))
      by (by apply Forall_true).
    f_equal. apply fmap_commute, calm_vacate_slot.
  - f_equal. rewrite list_lookup_fmap. by destruct (slots s !! k).
Qed.

Lemma clear_after_eviction i slot s :
  clear_drag_over (after_eviction i slot s)
  = after_eviction i (set_drag_over false slot) (clear_drag_over s).
Proof.
  unfold after_eviction.
  change (querySelector_piece (set_drag_over false slot))
    with (querySelector_piece slot).
  destruct (querySelector_piece slot) as [o|]; [|done].
  case_decide; [|done]. apply clear_moved_to_tray.
Qed.

Lemma clear_update_flag k b s :
  clear_drag_over (update_slot k (set_drag_over b) s) = clear_drag_over s.
Proof.
  unfold clear_drag_over, update_slot, set_slots. simpl. f_equal.
  by apply fmap_alter_same.
Qed.

Lemma clear_setStatus m s :
  clear_drag_over (setStatus m s) = setStatus m (clear_drag_over s).
Proof. unfold setStatus. simpl. by destruct (statusNode s). Qed.

Lemma allFilled_clear s : allFilled (clear_drag_over s) = allFilled s.
Proof.
  unfold allFilled. simpl. induction (slots s) as [|sl l IH]; [done|].
  csimpl. by rewrite IH.
Qed.

Lemma allCorrect_clear s : allCorrect (clear_drag_over s) = allCorrect s.
Proof.
  unfold allCorrect. simpl. induction (slots s) as [|sl l IH]; [done|].
  csimpl. by rewrite IH.
Qed.

Lemma clear_checkCompletion s :
  clear_drag_over (checkCompletion s) = checkCompletion (clear_drag_over s).
Proof.
  unfold checkCompletion. rewrite allFilled_clear, allCorrect_clear.
  destruct (allCorrect s && allFilled s); [apply clear_setStatus|].
  destruct (allFilled s); [apply clear_setStatus|done].
Qed.

Lemma clear_drag_over_wf s : wf s → wf (clear_drag_over s).
Proof.
  intros Hwf.
  assert (Hc : children <$> slots (clear_drag_over s) = children <$> slots s).
  { simpl. rewrite <- list_fmap_compose. by apply list_fmap_ext. }
  apply (wf_transfer s); [done| |done|].
  - by rewrite (nodes_children_ext (clear_drag_over s) s).
  - simpl. apply Forall_fmap. eapply Forall_impl; [apply (wf_single s Hwf)|].
    by intros sl Hsl.
Qed.

(** The drop handlers do not look at [drag-over]. *)
Lemma clear_handleDropOnSlot k id s :
  wf s →
  clear_drag_over (handleDropOnSlot k id s).1
  = clear_drag_over (handleDropOnSlot k id (clear_drag_over s)).1.
Proof.
  intros Hwf. pose proof (clear_drag_over_wf s Hwf) as Hwf'.
  destruct (slots s !! k) as [slot|] eqn:Hk.
  - destruct (find_piece s id) as [i|] eqn:Hf.
    + assert (Hk' : slots (clear_drag_over s) !! k
                    = Some (set_drag_over false slot)).
      { simpl. by rewrite list_lookup_fmap, Hk. }
      rewrite (handleDropOnSlot_tree s k slot id i Hwf Hk Hf).
      rewrite (handleDropOnSlot_tree (clear_drag_over s) k _ id i Hwf' Hk' Hf).
      rewrite !clear_checkCompletion, !clear_setStatus, !clear_update_flag.
      rewrite !clear_placed_in_slot, !clear_after_eviction.
      by rewrite clear_drag_over_idemp.
    + unfold handleDropOnSlot.
      change (find_piece (clear_drag_over s) id) with (find_piece s id).
      rewrite Hf. destruct (slots s !! k), (slots (clear_drag_over s) !! k);
        simpl; by rewrite clear_drag_over_idemp.
  - unfold handleDropOnSlot. rewrite Hk.
    assert (slots (clear_drag_over s) !! k = None) as ->.
    { simpl. by rewrite list_lookup_fmap, Hk. }
    simpl. by rewrite clear_drag_over_idemp.
Qed.

Lemma clear_handleDropOnTray id s :
  wf s →
  clear_drag_over (handleDropOnTray id s).1
  = clear_drag_over (handleDropOnTray id (clear_drag_over s)).1.
Proof.
  intros Hwf. pose proof (clear_drag_over_wf s Hwf) as Hwf'.
  destruct (find_piece s id) as [i|] eqn:Hf.
  - rewrite (handleDropOnTray_tree s id i Hwf Hf).
    rewrite (handleDropOnTray_tree (clear_drag_over s) id i Hwf' Hf).
    rewrite !clear_checkCompletion, !clear_setStatus, !clear_moved_to_tray.
    by rewrite clear_drag_over_idemp.
  - unfold handleDropOnTray.
    change (find_piece (clear_drag_over s) id) with (find_piece s id).
    rewrite Hf. simpl. by rewrite clear_drag_over_idemp.
Qed.

(** What the events between the start and the drop leave alone. *)
Lemma hovering_keeps pg e :
  hovering e = true → wf (puzzle pg) →
  wf (puzzle (fire pg e))
  ∧ clear_drag_over (puzzle (fire pg e)) = clear_drag_over (puzzle pg)
  ∧ dragging (fire pg e) = dragging pg
  ∧ text_plain (transfer (fire pg e)) = text_plain (transfer pg).
Proof.
  intros He Hwf. destruct e as [i|i|k| |k|k|k|]; try done;
    cbn [fire on_puzzle handleDragOver puzzle dragging transfer text_plain].
  - case_decide; (split; [exact Hwf|]; split; [reflexivity|]; by split).
  - split; [by apply update_slot_flags_wf|]. split; [|by split].
    apply clear_update_flag.
  - split; [by apply update_slot_flags_wf|]. split; [|by split].
    apply clear_update_flag.
Qed.

Lemma hovering_keeps_all hovers pg :
  forallb hovering hovers = true → wf (puzzle pg) →
  wf (puzzle (foldl fire pg hovers))
  ∧ clear_drag_over (puzzle (foldl fire pg hovers))
    = clear_drag_over (puzzle pg)
  ∧ dragging (foldl fire pg hovers) = dragging pg
  ∧ text_plain (transfer (foldl fire pg hovers)) = text_plain (transfer pg).
Proof.
  revert pg. induction hovers as [|e hovers IH]; intros pg Hh Hwf; [done|].
  cbn [forallb] in Hh. apply andb_true_iff in Hh as [He Hh].
  cbn [foldl].
  destruct (hovering_keeps pg e He Hwf) as (Hwf1 & Hc1 & Hd1 & Ht1).
  destruct (IH (fire pg e) Hh Hwf1) as (Hwf2 & Hc2 & Hd2 & Ht2).
  split; [done|]. split; [congruence|]. split; congruence.
Qed.

Lemma remove_node_classList_add i l :
  remove_node i (classList_add i l) = remove_node i l.
Proof.
  unfold classList_add. case_decide; [done|].
  unfold remove_node. rewrite filter_app, filter_cons_False by naive_solver.
  by rewrite filter_nil, app_nil_r.
Qed.

(** X17: a whole drag.  On a page whose puzzle is well formed, take piece
    [i], start a drag on it, let any number of [dragenter], [dragleave] and
    [dragover] events fire on any slots and on the tray, drop, and end the
    drag on the piece.  Then the puzzle is what the drop handler makes of
    the state of before the drag when it is handed the id of piece [i] - the
    piece found by the id the drag carried is the piece that was picked up,
    and what was hovered on the way leaves no trace - with [drag-over] gone
    from every slot; the piece has lost its class [dragging]; and after a
    drop on a slot of the board the piece lies on that slot. *)
Theorem whole_drag (pg : page) (i : nat) (id : string) (hovers : list event) :
  wf (puzzle pg) →
  pieceId <$> pieces (puzzle pg) !! i = Some id →
  forallb hovering hovers = true →
  let s := puzzle pg in
  (∀ k,
     let pg' :=
       foldl fire pg ([DragStart i] ++ hovers ++ [DropSlot k; DragEnd i]) in
     puzzle pg' = clear_drag_over (handleDropOnSlot k id s).1
     ∧ dragging pg' = remove_node i (dragging pg)
     ∧ Forall (λ sl, drag_over sl = false) (slots (puzzle pg'))
     ∧ (k < length (slots s) → occupant (puzzle pg') k = Some i))
  ∧ (let pg' :=
       foldl fire pg ([DragStart i] ++ hovers ++ [DropTray; DragEnd i]) in
     puzzle pg' = clear_drag_over (handleDropOnTray id s).1
     ∧ dragging pg' = remove_node i (dragging pg)
     ∧ Forall (λ sl, drag_over sl = false) (slots (puzzle pg'))
     ∧ located (puzzle pg') i InTray).
Proof.
  intros Hwf Hid Hh s.
  destruct (pieces (puzzle pg) !! i) as [p|] eqn:Hp; [|done].
  assert (Hpid : pieceId p = id) by (simpl in Hid; congruence).
  pose proof (find_piece_by_id s i id Hwf ltac:(unfold s; by rewrite Hp))
    as Hf.
  set (pg1 := Page (puzzle pg) (classList_add i (dragging pg))
                (DataTransfer id "move" (dropEffect (transfer pg)))).
  assert (H1 : fire pg (DragStart i) = pg1).
  { simpl. unfold handleDragStart. by rewrite Hp, Hpid. }
  destruct (hovering_keeps_all hovers pg1 Hh Hwf) as (Hwf2 & Hc2 & Hd2 & Ht2).
  set (pg2 := foldl fire pg1 hovers) in *.
  simpl in Hc2, Hd2, Ht2. fold s in Hc2.
  assert (Hcalm : ∀ u, Forall (λ sl, drag_over sl = false)
                         (slots (clear_drag_over u))).
  { intros u. simpl. apply Forall_fmap. by apply Forall_true. }
  assert (Hlt : i < length (pieces s))
    by (unfold s; by eapply lookup_lt_Some).
  split.
  - intros k. cbv zeta.
    rewrite foldl_app. cbn [foldl]. rewrite H1.
    rewrite foldl_app. fold pg2. cbn [foldl].
    set (pg3 := fire pg2 (DropSlot k)).
    assert (Hp3 : puzzle pg3 = (handleDropOnSlot k id (puzzle pg2)).1).
    { unfold pg3. simpl. by rewrite Ht2. }
    assert (Hl3 : length (pieces (puzzle pg3)) = length (pieces s)).
    { rewrite Hp3.
      destruct (same_frame_handleDropOnSlot (puzzle pg2) k id)
        as (_ & _ & _ & Hps).
      rewrite (fmap_length_eq piece_static _ _ Hps).
      assert (Hpp : pieces (clear_drag_over (puzzle pg2))
                    = pieces (clear_drag_over s)) by (by rewrite Hc2).
      simpl in Hpp. by rewrite Hpp. }
    assert (H4 : fire pg3 (DragEnd i) = handleDragEnd i pg3).
    { cbn [fire]. apply decide_True. by rewrite Hl3. }
    rewrite H4. unfold handleDragEnd. cbn [puzzle dragging].
    assert (Hres : clear_drag_over (puzzle pg3)
                   = clear_drag_over (handleDropOnSlot k id s).1).
    { rewrite Hp3, (clear_handleDropOnSlot k id (puzzle pg2) Hwf2), Hc2.
      by rewrite <- (clear_handleDropOnSlot k id s Hwf). }
    split; [done|]. split.
    { unfold pg3. simpl. by rewrite Hd2, remove_node_classList_add. }
    split; [apply Hcalm|].
    intros Hk. rewrite Hres.
    destruct (lookup_lt_is_Some_2 _ _ Hk) as [slot Hslot].
    destruct (handleDropOnSlot_effect s k slot id i Hwf Hslot Hf)
      as (HsY & _).
    unfold occupant. simpl. by rewrite list_lookup_fmap, HsY.
  - cbv zeta.
    rewrite foldl_app. cbn [foldl]. rewrite H1.
    rewrite foldl_app. fold pg2. cbn [foldl].
    set (pg3 := fire pg2 DropTray).
    assert (Hp3 : puzzle pg3 = (handleDropOnTray id (puzzle pg2)).1).
    { unfold pg3. simpl. by rewrite Ht2. }
    assert (Hl3 : length (pieces (puzzle pg3)) = length (pieces s)).
    { rewrite Hp3.
      destruct (same_frame_handleDropOnTray (puzzle pg2) id)
        as (_ & _ & _ & Hps).
      rewrite (fmap_length_eq piece_static _ _ Hps).
      assert (Hpp : pieces (clear_drag_over (puzzle pg2))
                    = pieces (clear_drag_over s)) by (by rewrite Hc2).
      simpl in Hpp. by rewrite Hpp. }
    assert (H4 : fire pg3 (DragEnd i) = handleDragEnd i pg3).
    { cbn [fire]. apply decide_True. by rewrite Hl3. }
    rewrite H4. unfold handleDragEnd. cbn [puzzle dragging].
    assert (Hres : clear_drag_over (puzzle pg3)
                   = clear_drag_over (handleDropOnTray id s).1).
    { rewrite Hp3, (clear_handleDropOnTray id (puzzle pg2) Hwf2), Hc2.
      by rewrite <- (clear_handleDropOnTray id s Hwf). }
    split; [done|]. split.
    { unfold pg3. simpl. by rewrite Hd2, remove_node_classList_add. }
    split; [apply Hcalm|].
    rewrite Hres.
    destruct (handleDropOnTray_effect s id i Hwf Hf) as (_ & Ht & _).
    simpl. rewrite Ht. apply elem_of_app. right. constructor.
Qed.

Lemma whole_drag_witness :
  let pg := Page Examples.start [] (DataTransfer "" "uninitialized" "none") in
  let hovers := [DragEnter 1; DragOverSlot 1; DragEnter 2; DragOverSlot 2] in
  (wf (puzzle pg) ∧ pieceId <$> pieces (puzzle pg) !! 0 = Some "1"
   ∧ forallb hovering hovers = true)
  ∧ occupant
      (puzzle (foldl fire pg
                 ([DragStart 0] ++ hovers ++ [DropSlot 2; DragEnd 0]))) 2
    = Some 0.
Proof.
  intros pg hovers.
  assert (Hwf : wf (puzzle pg)) by (apply (bool_decide_unpack _); by vm_compute).
  assert (Hid : pieceId <$> pieces (puzzle pg) !! 0 = Some "1")
    by (by vm_compute).
  assert (Hh : forallb hovering hovers = true) by (by vm_compute).
  split; [exact (conj Hwf (conj Hid Hh))|].
  destruct (whole_drag pg 0 "1" hovers Hwf Hid Hh) as [H1 _].
  destruct (H1 2) as (_ & _ & _ & H2).
  apply H2. vm_compute. lia.
Defined.

End DragFacts.


(* ===================================================================== *)
(** * The sound engine and its button *)
(* ===================================================================== *)

Section AudioFacts.
Import Audio.
Local Open Scope nat_scope.

Lemma pulse_of_well_timed now st :
  (∀ d, duration st = Some d → (1 # 100 < d)%Q) →
  well_timed (pulse_of now st).
Proof.
  intros Hd. unfold well_timed, pulse_of, playPulse.
  cbn [envelope osc_start osc_stop].
  set (d := default (18 # 100)%Q (duration st)).
  assert (Hpos : (1 # 100 < d)%Q).
  { unfold d. destruct (duration st) as [x|]; simpl; [by apply Hd|done]. }
  clearbody d. set (t0 := (now + default 0 (delay st))%Q). clearbody t0.
  eexists _, _. split; [reflexivity|]. split; [lra|]. split; lra.
Qed.

Lemma steps_of_durations c st d :
  st ∈ steps_of c → duration st = Some d → (1 # 100 < d)%Q.
Proof.
  intros Hin Hd. destruct c; simpl in Hin;
    repeat (apply elem_of_cons in Hin as [->|Hin];
            [simpl in Hd; injection Hd as <-; done|]);
    by apply elem_of_nil in Hin.
Qed.

Lemma playSequence_well_timed c suspended now e :
  Forall well_timed (oscillators e) →
  Forall well_timed (oscillators (playSequence (steps_of c) suspended now e)).
Proof.
  intros He. unfold playSequence. destruct (isMuted e); [done|].
  cbn [oscillators]. apply Forall_app. split; [done|].
  apply Forall_fmap, Forall_forall. intros st Hst. simpl.
  apply pulse_of_well_timed. intros d. by apply (steps_of_durations c).
Qed.

Lemma fire_keeps ev s e b :
  audio s = Some e → audioToggle s = Some (label e b) →
  gain_agrees e → Forall well_timed (oscillators e) →
  ∃ e', audio (fire s ev) = Some e'
        ∧ audioToggle (fire s ev) = Some (label e' b)
        ∧ gain_agrees e'
        ∧ Forall well_timed (oscillators e')
        ∧ isMuted e' = xorb (isMuted e) (is_click ev)
        ∧ (isMuted e = true → is_click ev = false →
             oscillators e' = oscillators e).
Proof.
  intros Ha Hb Hg Ho. destruct ev as [|c suspended now]; simpl.
  - rewrite Ha, Hb. simpl. eexists. split; [done|].
    split; [done|]. split; [|split; [done|split; [|done]]].
    + unfold gain_agrees, toggleMute. simpl. by destruct (isMuted e).
    + simpl. by destruct (isMuted e).
  - rewrite Ha. simpl. eexists. split; [done|].
    assert (Hm : isMuted (playSequence (steps_of c) suspended now e)
                 = isMuted e).
    { unfold playSequence. by destruct (isMuted e) eqn:E. }
    split; [|split; [|split; [|split]]].
    + rewrite Hb. unfold label. by rewrite Hm.
    + unfold gain_agrees in *. rewrite Hm. unfold playSequence.
      by destruct (isMuted e) eqn:E.
    + by apply playSequence_well_timed.
    + rewrite Hm. by destruct (isMuted e).
    + intros Hmu _. unfold playSequence. by rewrite Hmu.
Qed.

Lemma clicks_cons ev events :
  Nat.odd (clicks (ev :: events))
  = xorb (is_click ev) (Nat.odd (clicks events)).
Proof.
  unfold clicks. destruct ev as [|c su now]; cbn [is_click xorb].
  - rewrite filter_cons_True by done. cbn [length].
    by rewrite Nat.odd_succ, <- Nat.negb_odd.
  - by rewrite filter_cons_False by done.
Qed.

Lemma fire_all_keeps events s e b :
  audio s = Some e → audioToggle s = Some (label e b) →
  gain_agrees e → Forall well_timed (oscillators e) →
  ∃ e', audio (foldl fire s events) = Some e'
        ∧ audioToggle (foldl fire s events) = Some (label e' b)
        ∧ gain_agrees e'
        ∧ Forall well_timed (oscillators e')
        ∧ isMuted e' = xorb (isMuted e) (Nat.odd (clicks events)).
Proof.
  revert s e. induction events as [|ev events IH]; intros s e Ha Hb Hg Ho.
  - exists e. simpl. split; [done|]. split; [done|]. split; [done|].
    split; [done|]. by destruct (isMuted e).
  - cbn [foldl].
    destruct (fire_keeps ev s e b Ha Hb Hg Ho)
      as (e1 & Ha1 & Hb1 & Hg1 & Ho1 & Hm1 & _).
    destruct (IH (fire s ev) e1 Ha1 Hb1 Hg1 Ho1)
      as (e2 & Ha2 & Hb2 & Hg2 & Ho2 & Hm2).
    exists e2. split; [done|]. split; [done|]. split; [done|].
    split; [done|]. rewrite Hm2, Hm1, clicks_cons.
    by destruct (isMuted e), (is_click ev), (Nat.odd (clicks events)).
Qed.

Lemma fire_all_none events t :
  audio (foldl fire (Sound None t) events) = None
  ∧ audioToggle (foldl fire (Sound None t) events) = t.
Proof.
  induction events as [|ev events IH]; [done|].
  cbn [foldl]. destruct ev as [|c su now]; apply IH.
Qed.

(** X18: the sound button tells the truth.  [setupAudio] on a page with an
    audio button, followed by any clicks on the button and any sounds the
    game asks for: without [AudioContext] there is no engine, the button is
    disabled and reads "Audio not supported", and it stays so; with it, the
    sound starts switched on, the engine is muted exactly after an odd
    number of clicks, the master gain is 0 when muted and 0.25 when not,
    the button reads "Enable sound" when muted and "Mute sound" when not, a
    sound asked for while muted starts no oscillator, and every oscillator
    ever started has an envelope that begins with it, rises, falls and is
    over before the oscillator stops. *)
Theorem sound_button_is_honest (supported : bool) (b : button)
    (events : list event) :
  let s := foldl fire (setupAudio supported (Some b)) events in
  (supported = false →
     audio s = None
     ∧ audioToggle s = Some (Button "Audio not supported" true))
  ∧ (supported = true →
     ∃ e, audio s = Some e
          ∧ isMuted e = Nat.odd (clicks events)
          ∧ masterGain e = (if isMuted e then 0%Q else 25 # 100)
          ∧ audioToggle s
            = Some (Button (if isMuted e then "Enable sound"
                            else "Mute sound") (disabled b))
          ∧ Forall well_timed (oscillators e)
          ∧ ∀ c suspended now,
              isMuted e = true →
              fire s (Play c suspended now) = s).
Proof.
  intros s. split.
  - intros ->. unfold s. apply fire_all_none.
  - intros ->.
    destruct (fire_all_keeps events (setupAudio true (Some b)) fresh b)
      as (e & Ha & Hb & Hg & Ho & Hm); [done..|].
    fold s in Ha, Hb. exists e. split; [done|]. split; [done|].
    split; [done|]. split; [done|]. split; [done|].
    intros c suspended now Hmu. destruct s as [a t]. simpl in *.
    rewrite Ha. simpl. unfold playSequence. by rewrite Hmu.
Qed.

End AudioFacts.

(* ===================================================================== *)
(** * When the game makes a sound *)
(* ===================================================================== *)

Section CueFacts.
Import Dom Puzzle Model Frame Effects Reach Cues.
Local Open Scope nat_scope.

Lemma Cues_checkCompletion_fst s played :
  (Cues.checkCompletion s played).1 = Puzzle.checkCompletion s.
Proof.
  unfold Cues.checkCompletion, Puzzle.checkCompletion.
  destruct (allCorrect s && allFilled s); [done|]. by destruct (allFilled s).
Qed.

Lemma Cues_step_fst o s played :
  (Cues.step o (s, played)).1 = Puzzle.step s o.
Proof.
  destruct o as [k id|id|random]; simpl.
  - unfold Cues.handleDropOnSlot, Puzzle.handleDropOnSlot.
    destruct (slots s !! k); [|done]. destruct (find_piece s id); [|done].
    apply Cues_checkCompletion_fst.
  - unfold Cues.handleDropOnTray, Puzzle.handleDropOnTray.
    destruct (find_piece s id); [|done]. apply Cues_checkCompletion_fst.
  - done.
Qed.

Lemma Cues_checkCompletion_snd s played :
  (AllFilled s ∧ AllCorrect s
   ∧ (Cues.checkCompletion s played).2 = played ++ [playComplete])
  ∨ (¬ (AllFilled s ∧ AllCorrect s)
     ∧ (Cues.checkCompletion s played).2 = played).
Proof.
  unfold Cues.checkCompletion.
  destruct (allCorrect s) eqn:Hc; destruct (allFilled s) eqn:Hf; simpl.
  - left. by apply allCorrect_spec in Hc as [? ?].
  - apply allCorrect_spec in Hc as [Hc1 _]. apply allFilled_spec in Hc1.
    congruence.
  - right. split; [|done]. intros [Ha Hb].
    assert (allCorrect s = true) by (by apply allCorrect_spec). congruence.
  - right. split; [|done]. intros [Ha _].
    apply allFilled_spec in Ha. congruence.
Qed.

(** X19: when the game makes a sound.  The handlers with their calls of the
    sound engine move the pieces as the handlers alone do.  In every state
    the game reaches: a drop of a known piece on a slot of the board asks
    for the place sound and then, exactly when it leaves the board in the
    finished picture, for the fanfare; a drop of a known piece on the tray
    asks for the return sound and for nothing else; a drop that carries no
    piece's id asks for nothing; and a shuffle asks for the shuffle
    sound. *)
Theorem sounds_of_the_game (W H : Z) (st : option string) (random : nat → N)
    (ops : list op) :
  let s := run ops (initPuzzle W H st random) in
  (∀ o played, (Cues.step o (s, played)).1 = Puzzle.step s o)
  ∧ (∀ k id played,
       let r := Cues.handleDropOnSlot k id s played in
       (is_Some (slots s !! k) → is_Some (find_piece s id) →
          (at_home r.1 ∧ r.2 = played ++ [playPlace; playComplete])
          ∨ (¬ at_home r.1 ∧ r.2 = played ++ [playPlace]))
       ∧ (slots s !! k = None ∨ find_piece s id = None → r.2 = played))
  ∧ (∀ id played,
       let r := Cues.handleDropOnTray id s played in
       (is_Some (find_piece s id) → r.2 = played ++ [playReturn])
       ∧ (find_piece s id = None → r.2 = played))
  ∧ (∀ random' played,
       (Cues.shufflePieces random' s played).2 = played ++ [playShuffle]).
Proof.
  intros s.
  destruct (reach_inv W H st random ops) as (Hwf & _ & _ & [Hl Hh] & _).
  fold s in Hwf, Hl, Hh.
  split; [intros o played; apply Cues_step_fst|].
  split; [|split; [|done]].
  - intros k id played. cbv zeta. split.
    + intros [slot Hk] [i Hf].
      destruct (reach_inv W H st random (ops ++ [DropOnSlot k id]))
        as (Hwf' & _ & _ & Hh' & _).
      rewrite run_snoc in Hwf', Hh'. fold s in Hwf', Hh'.
      rewrite <- (Cues_step_fst _ _ played) in Hwf', Hh'.
      pose proof (solved_at_home _ Hwf' Hh') as Hsolved.
      revert Hsolved. cbn [Cues.step fst snd].
      unfold Cues.handleDropOnSlot. rewrite Hk, Hf.
      set (s4 := setStatus MSG_PLACED _).
      intros Hsolved.
      destruct (checkCompletion_board s4) as (_ & Hs & Hp).
      rewrite <- (Cues_checkCompletion_fst s4 (played ++ [playPlace]))
        in Hs, Hp.
      destruct (status_agrees_board s4 _ Hs Hp) as [Hf' Hc'].
      rewrite <- Hsolved, Hf', Hc'.
      destruct (Cues_checkCompletion_snd s4 (played ++ [playPlace]))
        as [(Ha & Hb & ->)|(Hn & ->)].
      * left. split; [done|]. by rewrite <- app_assoc.
      * by right.
    + intros Hnone. unfold Cues.handleDropOnSlot.
      destruct (slots s !! k) as [slot|]; [|done].
      destruct Hnone as [?| ->]; done.
  - intros id played. cbv zeta. split.
    + intros [i Hf].
      destruct (handleDropOnTray_plain s id i Hwf Hl Hf) as [_ He].
      revert He. unfold Puzzle.handleDropOnTray, Cues.handleDropOnTray.
      rewrite Hf. cbn [fst]. set (s2 := setStatus MSG_RETURNED _).
      intros He.
      destruct (checkCompletion_board s2) as (_ & Hs & _).
      apply (SomeEmpty_board s2 _ Hs) in He.
      destruct (Cues_checkCompletion_snd s2 (played ++ [playReturn]))
        as [(Ha & _)|(_ & ->)]; [|done].
      by destruct (SomeEmpty_not_AllFilled s2 He).
    + intros Hnone. unfold Cues.handleDropOnTray. by rewrite Hnone.
Qed.

End CueFacts.

(* ===================================================================== *)
(** * What the page shows after start-up *)
(* ===================================================================== *)

Section StartupFacts.
Import Dom Puzzle Model Startup.
Local Open Scope nat_scope.

(** X20: a failed start is silent.  When [window.onload] runs [initPuzzle]
    on a page with the tray and the board: the message "Loading
    image.png..." is never written, since [puzzleState] is still [null]
    when [setStatus] is called with it; if the image does not load, the
    message "Unable to load image.png. ..." is not written either -
    [puzzleState] stays [null], the status line keeps the text it had (none
    at all in a new panel) and only the console tells of the failure; if
    the image loads, the puzzle is the one of the initial shuffle, and the
    status line, if there is one, names the image and its size.  Without
    the tray or the board nothing is set up and the console carries the
    warning. *)
Theorem failed_start_is_silent (d : document) (random : nat → N) :
  let o := Startup.initPuzzle d random in
  setStatus MSG_LOADING None = None
  ∧ (has_tray d && has_board d = false →
       o = Outcome None (helper_panel d ≫= λ statusNode, statusNode)
             ["Puzzle markup missing. Cannot start puzzle."])
  ∧ (has_tray d && has_board d = true → image d = None →
       puzzleState_after o = None
       ∧ status_line o = injectHelperPanel d
       ∧ (helper_panel d = None → status_line o = Some "")
       ∧ console o = ["Failed to initialize puzzle"])
  ∧ (∀ W H, has_tray d && has_board d = true → image d = Some (W, H) →
       puzzleState_after o
       = Some (Puzzle.initPuzzle W H (injectHelperPanel d) random)
       ∧ status_line o
         = (λ _, "Image loaded from " +:+ IMAGE_PATH +:+ " (" +:+ pretty W
                   +:+ "×" +:+ pretty H +:+ "). Drag pieces to solve!")
           <$> injectHelperPanel d
       ∧ console o = []).
Proof.
  intros o. split; [done|]. unfold o, Startup.initPuzzle.
  split; [|split].
  - by intros ->.
  - intros -> ->. simpl.
    split; [done|]. split; [done|]. split; [|done].
    intros Hp. unfold injectHelperPanel. by rewrite Hp.
  - intros W H -> ->.
    cbn [negb puzzleState_after status_line console shown].
    split; [reflexivity|]. split; [|reflexivity].
    unfold Puzzle.initPuzzle.
    set (m := ("Image loaded from " +:+ _)%string).
    set (u := shufflePieces random _).
    assert (Hu : is_Some (statusNode u) ↔ is_Some (injectHelperPanel d)).
    { apply (has_status_step (loadPuzzle W H (injectHelperPanel d))
               (Shuffle random)). }
    clearbody u m. unfold Puzzle.setStatus.
    destruct (statusNode u) as [t|] eqn:Et,
      (injectHelperPanel d) as [t0|] eqn:E0;
      cbn [statusNode set_statusNode fmap option_fmap option_map].
    + reflexivity.
    + by destruct (proj1 Hu (mk_is_Some _ _ eq_refl)) as [? ?].
    + by destruct (proj2 Hu (mk_is_Some _ _ eq_refl)) as [? ?].
    + exact Et.
Qed.

End StartupFacts.


(* ===================================================================== *)
(** * The puzzle can always be finished *)
(* ===================================================================== *)

Section SolvingFacts.
Import Dom Puzzle Model Frame Effects Reach Solving.
Local Open Scope nat_scope.

Lemma run_app ops ops' s : run (ops ++ ops') s = run ops' (run ops s).
Proof. unfold run. by rewrite foldl_app. Qed.

Lemma solution_S m :
  solution (S m) = solution m ++ [DropOnSlot m (pretty (m + 1))].
Proof. unfold solution. by rewrite seq_S, fmap_app. Qed.

Lemma solution_prefix s m :
  wf s → home s → m ≤ length (pieces s) →
  wf (run (solution m) s) ∧ home (run (solution m) s)
  ∧ ∀ k, k < m → occupant (run (solution m) s) k = Some k.
Proof.
  intros Hwf Hh. induction m as [|m IH]; intros Hm.
  - split; [done|]. split; [done|]. intros k Hk. lia.
  - destruct IH as (Hwfm & Hhm & Hocc); [lia|].
    rewrite solution_S, run_snoc.
    set (sm := run (solution m) s) in *.
    assert (Hlen : length (pieces sm) = length (pieces s)).
    { destruct (same_frame_run s (solution m)) as (_ & _ & _ & Hp).
      by apply (fmap_length_eq piece_static). }
    destruct (lookup_lt_is_Some_2 (pieces sm) m) as [p Hp]; [lia|].
    destruct (lookup_lt_is_Some_2 (slots sm) m) as [slot Hslot].
    { destruct Hhm as [-> _]. lia. }
    assert (Hf : find_piece sm (pretty (m + 1)) = Some m).
    { apply find_piece_by_id; [done|]. rewrite Hp. simpl.
      by rewrite (wf_pieceId sm m p Hwfm Hp). }
    split; [by apply step_wf|]. split.
    { apply (home_frame sm); [apply same_frame_step|done]. }
    cbn [step].
    destruct (handleDropOnSlot_effect sm m slot _ m Hwfm Hslot Hf)
      as (Hsm & Hsj & _).
    intros k Hk. unfold occupant.
    destruct (decide (k = m)) as [->|Hne]; [by rewrite Hsm|].
    rewrite Hsj by done.
    pose proof (Hocc k ltac:(lia)) as Hk'.
    destruct (occupant_Some sm k k Hwfm Hk') as (sl & Hsl & Hch).
    rewrite Hsl. simpl. rewrite vacate_slot_notin.
    + unfold querySelector_piece. by rewrite Hch.
    + rewrite Hch. intros Hin. apply list_elem_of_singleton in Hin. lia.
Qed.

Lemma handleDropOnSlot_completed s k id :
  wf s → is_Some (statusNode s) →
  is_Some (slots s !! k) → is_Some (find_piece s id) →
  AllFilled (handleDropOnSlot k id s).1 →
  AllCorrect (handleDropOnSlot k id s).1 →
  statusNode (handleDropOnSlot k id s).1 = Some MSG_COMPLETED.
Proof.
  intros Hwf [t Ht] [slot Hk] [i Hf].
  rewrite (handleDropOnSlot_tree s k slot id i Hwf Hk Hf).
  set (v := update_slot k (set_drag_over false)
              (placed_in_slot i k (after_eviction i slot s))).
  assert (Hv : statusNode v = statusNode s).
  { unfold v, after_eviction.
    destruct (querySelector_piece slot); [case_decide|]; done. }
  assert (Hu : statusNode (setStatus MSG_PLACED v) = Some MSG_PLACED).
  { apply (statusNode_setStatus _ _ t). by rewrite Hv. }
  set (u := setStatus MSG_PLACED v) in *.
  destruct (checkCompletion_reads u MSG_PLACED Hu) as (H1 & _); [done..|].
  destruct (checkCompletion_board u) as (_ & Hs & Hp).
  destruct (status_agrees_board u (checkCompletion u) Hs Hp) as [Hf' Hc'].
  intros Ha Hc. apply H1. split; [by apply Hf'|by apply Hc'].
Qed.

(** X21: the puzzle can always be finished.  From every state the game
    reaches, whatever lies where, dropping piece 1 on slot 1, piece 2 on
    slot 2 and so on up to the last piece ends in the finished picture:
    every slot shows the piece cut for it, and the status line, if there is
    one, reads "Puzzle completed! Great work!". *)
Theorem always_solvable (W H : Z) (st : option string) (random : nat → N)
    (ops : list op) :
  let s := run ops (initPuzzle W H st random) in
  let s' := run (solution (length (pieces s))) s in
  at_home s'
  ∧ (∀ k, k < length (pieces s) → occupant s' k = Some k)
  ∧ statusNode s' = (λ _, MSG_COMPLETED) <$> st.
Proof.
  intros s s'.
  destruct (reach_inv W H st random ops) as (Hwf & _ & _ & Hh & Hst).
  fold s in Hwf, Hh, Hst.
  pose proof (reach_pieces_count W H st random ops) as Hn. fold s in Hn.
  set (n := length (pieces s)) in *.
  destruct (solution_prefix s n Hwf Hh ltac:(done)) as (Hwf' & Hh' & Hocc).
  fold s' in Hwf', Hh', Hocc.
  assert (Hlen : length (slots s') = n).
  { destruct (same_frame_run s (solution n)) as (_ & _ & Hs & _).
    apply (fmap_length_eq slotId) in Hs. fold s' in Hs.
    destruct Hh as [Hl _]. unfold n. congruence. }
  assert (Hat : at_home s').
  { intros k Hk. apply Hocc. by rewrite <- Hlen. }
  split; [done|]. split; [done|].
  assert (Hst' : is_Some (statusNode s') ↔ is_Some st).
  { unfold s'. by rewrite has_status_run. }
  destruct st as [t0|]; simpl.
  - destruct n as [|m] eqn:En; [lia|].
    revert Hwf' Hh' Hat Hst'. unfold s'.
    rewrite solution_S, run_snoc. cbn [step].
    destruct (solution_prefix s m Hwf Hh ltac:(lia)) as (Hwfm & Hhm & _).
    set (sm := run (solution m) s) in *.
    intros Hwf' Hh' Hat Hst'.
    assert (Hlm : length (pieces sm) = S m).
    { destruct (same_frame_run s (solution m)) as (_ & _ & _ & Hp).
      apply (fmap_length_eq piece_static) in Hp. fold sm in Hp. lia. }
    destruct (lookup_lt_is_Some_2 (pieces sm) m) as [p Hp]; [lia|].
    apply handleDropOnSlot_completed.
    + done.
    + unfold sm. rewrite has_status_run. by apply Hst.
    + apply lookup_lt_is_Some_2. destruct Hhm as [-> _]. lia.
    + exists m. apply find_piece_by_id; [done|]. rewrite Hp. simpl.
      by rewrite (wf_pieceId sm m p Hwfm Hp).
    + by apply (solved_at_home _ Hwf' Hh').
    + by apply (solved_at_home _ Hwf' Hh').
  - destruct (statusNode s') as [t|] eqn:Et; [|done].
    by destruct (proj1 Hst' (mk_is_Some _ _ eq_refl)) as [? ?].
Qed.

Lemma setStatus_idemp m s : setStatus m (setStatus m s) = setStatus m s.
Proof. unfold setStatus. by destruct s as [? ? ? ? ? []]. Qed.

(** X22: a drop on a slot, done twice, is done once.  In every state the
    game reaches, for any slot and any id the drag carries, running
    [handleDropOnSlot] a second time with the same slot and id gives the
    very state the first run gave. *)
Theorem drop_on_slot_idempotent (W H : Z) (st : option string)
    (random : nat → N) (ops : list op) (k : nat) (id : string) :
  let s := run ops (initPuzzle W H st random) in
  let s1 := (handleDropOnSlot k id s).1 in
  (handleDropOnSlot k id s1).1 = s1.
Proof.
  intros s s1.
  destruct (reach_inv W H st random ops) as (Hwf & _).
  fold s in Hwf.
  destruct (slots s !! k) as [slot|] eqn:Hk.
  2:{ assert (s1 = s) as -> by (unfold s1, handleDropOnSlot; by rewrite Hk).
      unfold handleDropOnSlot. by rewrite Hk. }
  destruct (find_piece s id) as [i|] eqn:Hf.
  2:{ assert (s1 = s) as ->
        by (unfold s1, handleDropOnSlot; by rewrite Hk, Hf).
      unfold handleDropOnSlot. by rewrite Hk, Hf. }
  destruct (reach_inv W H st random (ops ++ [DropOnSlot k id]))
    as (Hwf1 & Hft1 & Hpt1 & _).
  rewrite run_snoc in Hwf1, Hft1, Hpt1. fold s in Hwf1, Hft1, Hpt1.
  change (step s (DropOnSlot k id)) with s1 in Hwf1, Hft1, Hpt1.
  destruct (handleDropOnSlot_effect s k slot id i Hwf Hk Hf) as (Hs1 & _).
  destruct (handleDropOnSlot_board s k slot id i Hwf Hk Hf) as (_ & _ & Hids).
  fold s1 in Hs1, Hids.
  assert (Ho1 : occupant s1 k = Some i) by (unfold occupant; by rewrite Hs1).
  assert (Hf1 : find_piece s1 id = Some i).
  { destruct (find_piece_Some s id i Hf) as (p & Hp & Hpid).
    apply find_piece_by_id; [done|].
    assert (Hl : (pieceId <$> pieces s1) !! i = Some id).
    { rewrite Hids, list_lookup_fmap, Hp. simpl. by rewrite Hpid. }
    by rewrite list_lookup_fmap in Hl. }
  rewrite (handleDropOnSlot_same s1 k i id Hwf1 Hft1 Hpt1 Ho1 Hf1).
  assert (Hfix : update_slot k (set_drag_over false) s1 = s1).
  { unfold update_slot, set_slots. rewrite alter_fixed; [apply state_eta|].
    intros sl Hsl. rewrite Hs1 in Hsl. by injection Hsl as <-. }
  rewrite Hfix.
  pose proof (handleDropOnSlot_tree s k slot id i Hwf Hk Hf) as Htree.
  fold s1 in Htree.
  set (v := update_slot k (set_drag_over false)
              (placed_in_slot i k (after_eviction i slot s))) in *.
  destruct (checkCompletion_status (setStatus MSG_PLACED v)) as (x & Hx & Hxs).
  rewrite Htree at 1. rewrite Hx.
  rewrite (setStatus_set_statusNode MSG_PLACED x _ Hxs).
  by rewrite setStatus_idemp, Htree.
Qed.

End SolvingFacts.
